(** * NeuralXC: basis projection and index padding

    Shallow embedding of the padding engine ([neuralxc/pyscf/pyscf.py]:
    [BasisPadder], [PySCFProjector]) and of the Gaussian projector
    ([neuralxc/projector/projector_gaussian.py]: [GaussianProjector]).

    Conventions.
    - A Python [dict] is an insertion-ordered association list with unique
      keys (iteration order is observable in [get_basis_rep]/[get_V]).
    - A raised exception is [None].
    - NumPy arrays are lists (1-D), lists of rows (2-D) and lists of 2-D
      slabs (3-D).  Select/scatter code is polymorphic in the element type.
    - Arithmetic on floats is read over the real numbers. *)

From Stdlib Require Import Reals Lra Lia ZArith Ascii String.
From stdpp Require Import base option list strings gmap.

#[local] Open Scope Z_scope.
#[local] Open Scope nat_scope.


(** ** Python built-ins *)

Module Py.

  (** [dict]: ordered association list. *)
Abbreviation dict V := (list (string * V)).

Section dict.
Context {V : Type}.

    (** [d[k]] / [d.get(k)] *)
Fixpoint get (d : dict V) (k : string) : option V :=
      match d with
      | [] => None
      | (k', v) :: d' => if decide (k' = k) then Some v else get d' k
      end.

    (** [k in d] *)
Definition mem (d : dict V) (k : string) : bool :=
      match get d k with Some _ => true | None => false end.

    (** [d[k] = v]: an existing key keeps its position, a new key goes last. *)
Fixpoint set (d : dict V) (k : string) (v : V) : dict V :=
      match d with
      | [] => [(k, v)]
      | (k', v') :: d' =>
          if decide (k' = k) then (k, v) :: d' else (k', v') :: set d' k v
      end.

    (** [d.pop(k)] without default: [None] is the [KeyError]. *)
Fixpoint pop (d : dict V) (k : string) : option (dict V) :=
      match d with
      | [] => None
      | (k', v') :: d' =>
          if decide (k' = k) then Some d'
          else d'' ← pop d' k; Some ((k', v') :: d'')
      end.

Definition keys (d : dict V) : list string := d.*1.
End dict.

  (** Left fold of a fallible step (a [for] loop whose body may raise). *)
Fixpoint foldlM {S X : Type} (f : S → X → option S) (s : S) (xs : list X)
    : option S :=
    match xs with
    | [] => Some s
    | x :: xs' => s' ← f s x; foldlM f s' xs'
    end.

  (** [enumerate(xs)] *)
Definition enumerate {X : Type} (xs : list X) : list (nat * X) :=
    zip (seq 0 (length xs)) xs.

  (** *** [str] of a non-negative [int], and [int] of a digit string *)

Definition digit_char (d : nat) : ascii := ascii_of_nat (48 + d).

  (** Decimal digits, least significant first. *)
Fixpoint digits_le (fuel n : nat) : list nat :=
    match fuel with
    | 0 => []
    | S fuel' =>
        if n <? 10 then [n] else (n mod 10) :: digits_le fuel' (n / 10)
    end.

Definition digits (n : nat) : list nat := rev (digits_le (S n) n).

  (** ['{}'.format(n)], ['%d' % n] for [n >= 0]. *)
Definition str_of_nat (n : nat) : string :=
    string_of_list_ascii (digit_char <$> digits n).

  (** [int(s)] on a plain digit string; anything else is the [ValueError]
      (signs, blanks and underscores never occur in an orbital label). *)
Definition int (s : string) : option nat :=
    match s with
    | EmptyString => None
    | _ =>
        foldl (λ acc c, a ← acc; d ← Ascii.is_nat c; Some (10 * a + d))
              (Some 0) (list_ascii_of_string s)
    end.

  (** [s[:-1]] and [s[-1]] *)
Definition but_last (s : string) : string :=
    string_of_list_ascii (removelast (list_ascii_of_string s)).
Definition last_char (s : string) : option ascii :=
    last (list_ascii_of_string s).

  (** [p in s] on strings: [p] occurs as a contiguous block of [s]. *)
Fixpoint is_prefix (p s : list ascii) : bool :=
    match p, s with
    | [], _ => true
    | c :: p', d :: s' => bool_decide (c = d) && is_prefix p' s'
    | _ :: _, [] => false
    end.
Fixpoint occurs (p s : list ascii) : bool :=
    is_prefix p s ||
    match s with [] => false | _ :: s' => occurs p s' end.
Definition str_in (p s : string) : bool :=
    occurs (list_ascii_of_string p) (list_ascii_of_string s).

  (** ['%-4s' % s]: left-justified in a field of four blanks. *)
Definition ljust4 (s : string) : string :=
    s +:+ string_of_list_ascii (replicate (4 - String.length s) " "%char).

End Py.

(** ** NumPy indexing *)

Module Np.
Section ops.
Context {A : Type}.

    (** [a[lo:hi]] for non-negative bounds (out-of-range bounds are clipped). *)
Definition slice (a : list A) (lo hi : nat) : list A :=
      take (hi - lo) (drop lo a).

    (** One integer index against an axis of length [len]: negative indices
        count from the end, anything outside [-len, len) is the
        [IndexError]. *)
Definition norm_index (len : nat) (i : Z) : option nat :=
      if bool_decide (0 ≤ i < Z.of_nat len)%Z then Some (Z.to_nat i)
      else if bool_decide (- Z.of_nat len ≤ i < 0)%Z then Some (Z.to_nat (Z.of_nat len + i))
      else None.

    (** [np.array(rs) - off] used as an index.  [np.array([])] has a float
        dtype and is refused as an index ([IndexError]). *)
Definition index_array (rs : list nat) (off : nat) : option (list Z) :=
      match rs with
      | [] => None
      | _ => Some ((λ r : nat, (Z.of_nat r - Z.of_nat off)%Z) <$> rs)
      end.

    (** [a[idx]] with an integer index array. *)
Definition take_idx (a : list A) (idx : list Z) : option (list A) :=
      mapM (λ i, p ← norm_index (length a) i; a !! p) idx.

    (** Broadcasting a 1-D right-hand side to [n] target slots. *)
Definition broadcast (n : nat) (vals : list A) : option (list A) :=
      if decide (length vals = n) then Some vals
      else match vals with
           | [x] => Some (replicate n x)
           | _ => None
           end.

    (** [a[lo:hi][idx] = vals]: the slice is a view, the writes land in [a]
        one after the other (a repeated index keeps the last value). *)
Definition put_idx_slice (a : list A) (lo hi : nat) (idx : list Z)
        (vals : list A) : option (list A) :=
      ps ← mapM (norm_index (length (slice a lo hi))) idx;
      vs ← broadcast (length idx) vals;
      Some (foldl (λ acc pv, <[lo + pv.1 := pv.2]> acc) a (zip ps vs)).

    (** Selection of a row by a boolean mask. *)
Fixpoint gather_mask (mask : list bool) (row : list A) : list A :=
      match mask, row with
      | b :: mask', x :: row' =>
          if b then x :: gather_mask mask' row' else gather_mask mask' row'
      | _, _ => []
      end.

    (** Assignment through a boolean mask: the [True] slots receive the
        values in order. *)
Fixpoint scatter_mask (mask : list bool) (vals row : list A) : list A :=
      match mask, row with
      | b :: mask', x :: row' =>
          if b then
            match vals with
            | v :: vals' => v :: scatter_mask mask' vals' row'
            | [] => x :: scatter_mask mask' [] row'
            end
          else x :: scatter_mask mask' vals row'
      | _, _ => row
      end.

Definition count_true (mask : list bool) : nat :=
      length (filter (λ b, b = true) mask).

    (** The mask must span the axis; an empty Python list is an empty
        integer index and selects nothing from any axis. *)
Definition mask_fits (mask : list bool) (row : list A) : bool :=
      bool_decide (mask = []) || bool_decide (length mask = length row).

    (** [arr[k, mask]] on a 2-D array. *)
Definition getitem_row_mask (arr : list (list A)) (k : nat)
        (mask : list bool) : option (list A) :=
      row ← arr !! k;
      if mask_fits mask row then Some (gather_mask mask row) else None.

    (** [arr[k, mask] = vals] on a 2-D array. *)
Definition setitem_row_mask (arr : list (list A)) (k : nat)
        (mask : list bool) (vals : list A) : option (list (list A)) :=
      row ← arr !! k;
      if mask_fits mask row then
        vs ← broadcast (count_true mask) vals;
        Some (<[k := scatter_mask mask vs row]> arr)
      else None.

    (** [np.zeros([n, m])] *)
Definition zeros2 (zero : A) (n m : nat) : list (list A) :=
      replicate n (replicate m zero).
End ops.

  (** Arrays handed to the adjoint path: two or three axes. *)
Inductive ndarray (A : Type) : Type :=
  | Arr2 (rows : list (list A))
  | Arr3 (slabs : list (list (list A))).
Arguments Arr2 {A} rows.
Arguments Arr3 {A} slabs.
End Np.

(** ** The molecule object of the quantum-chemistry engine *)

Module Pyscf.

(** What [BasisPadder] reads from a [pyscf.gto.Mole]:
    [atom_pure_symbol(i)] for every atom (the list has one entry per atom of
    [atom_charges()]), the label tuples [ao_labels(fmt=False)], i.e.
    [(atom, symbol, "<n><l>", m)], and the last two components
    [(ao_start, ao_end)] of every row of [aoslice_by_atom()]. *)
Record Mole := {
  atom_pure_symbol : list string;
  ao_labels_raw : list (nat * string * string * string);
  aoslice_by_atom : list (nat * nat);
}.

(** [ao_labels()] renders each tuple with ['%d %s %s%-4s']. *)
Definition fmt_label (x : nat * string * string * string) : string :=
  let '(ia, symb, nl, m) := x in
  Py.str_of_nat ia +:+ " " +:+ symb +:+ " " +:+ nl +:+ Py.ljust4 m.

Definition ao_labels (mol : Mole) : list string :=
  fmt_label <$> ao_labels_raw mol.

(** The engine's letter code for an angular momentum. *)
Definition ANGULAR (l : nat) : ascii :=
  nth l (list_ascii_of_string "spdfghik") "?"%char.

Section build.
(** A basis gives every species its shells [(n, l)] in label order;
    [mname l m] names the [m]-th of the [2l+1] functions of a shell. *)
Variable basis : string → list (nat * nat).
Variable mname : nat → nat → string.

Definition shell_labels (ia : nat) (symb : string) (nl : nat * nat)
  : list (nat * string * string * string) :=
  (λ m, (ia, symb, Py.str_of_nat nl.1 +:+ String (ANGULAR nl.2) "",
         mname nl.2 m)) <$> seq 0 (2 * nl.2 + 1).

Definition atom_labels (ia : nat) (symb : string)
  : list (nat * string * string * string) :=
  basis symb ≫= shell_labels ia symb.

Definition nao_atom (symb : string) : nat :=
  sum_list ((λ nl : nat * nat, 2 * nl.2 + 1) <$> basis symb).

Fixpoint slices (off : nat) (atoms : list string) : list (nat * nat) :=
  match atoms with
  | [] => []
  | s :: atoms' => (off, off + nao_atom s) :: slices (off + nao_atom s) atoms'
  end.

(** Modelled from the spec: the external engine's [gto.M(atom, basis)] is
    not part of the repository.  Following the label contract of the spec
    (one scalar per atom, per shell and per magnetic quantum number; each
    label carries atom index, species, principal quantum number and letter
    code), the molecule lists its labels atom by atom and shell by shell,
    [2l+1] labels per shell, and [aoslice_by_atom] delimits each atom's
    block. *)
Definition M (atoms : list string) : Mole :=
  {| atom_pure_symbol := atoms;
     ao_labels_raw := Py.enumerate atoms ≫= (λ x, atom_labels x.1 x.2);
     aoslice_by_atom := slices 0 atoms |}.
End build.

End Pyscf.

(** ** [BasisPadder] *)

Module BasisPadder.
Import Pyscf.

Definition l_dict (c : ascii) : option nat :=
  match c with
  | "s" => Some 0 | "p" => Some 1 | "d" => Some 2 | "f" => Some 3
  | "g" => Some 4 | "h" => Some 5 | "i" => Some 6 | "j" => Some 7
  | _ => None
  end%char.

(** [l_dict_inv[l]]; the constructor only asks for [l <= max_l <= 7], so the
    lookup cannot raise and the last branch is never taken. *)
Definition l_dict_inv (l : nat) : ascii :=
  match l with
  | 0 => "s" | 1 => "p" | 2 => "d" | 3 => "f"
  | 4 => "g" | 5 => "h" | 6 => "i" | _ => "j"
  end%char.

Record t := {
  mol : Mole;
  sym_cnt : Py.dict nat;
  max_l : Py.dict nat;
  max_n : Py.dict nat;
  indexing_l : Py.dict (list (list bool));
  indexing_r : Py.dict (list (list nat));
}.

(** *** Constructor *)

(** First loop: atoms per species. *)
Definition count_atom (st : Py.dict nat * Py.dict (list nat))
    (x : nat * string) : Py.dict nat * Py.dict (list nat) :=
  let '(atom_idx, sym) := x in
  let st :=
    if Py.mem st.1 sym then st
    else (Py.set st.1 sym 0, Py.set st.2 sym []) in
  (Py.set st.1 sym (default 0 (Py.get st.1 sym) + 1),
   Py.set st.2 sym (default [] (Py.get st.2 sym) ++ [atom_idx])).

(** Second loop: largest [n] and [l] per species.  [int] and [l_dict]
    may raise. *)
Definition scan_label (st : Py.dict nat * Py.dict nat)
    (label : nat * string * string * string)
  : option (Py.dict nat * Py.dict nat) :=
  let sym := label.1.1.2 in
  let nl := label.1.2 in
  let st :=
    if Py.mem st.1 sym then st
    else (Py.set st.1 sym 0, Py.set st.2 sym 0) in
  n ← Py.int (Py.but_last nl);
  l ← Py.last_char nl ≫= l_dict;
  Some (Py.set st.1 sym (l `max` default 0 (Py.get st.1 sym)),
        Py.set st.2 sym (n `max` default 0 (Py.get st.2 sym))).

(** ['{} {} {}{}'.format(idx, sym, n, l_dict_inv[l])] *)
Definition pattern (idx : nat) (sym : string) (n l : nat) : string :=
  Py.str_of_nat idx +:+ " " +:+ sym +:+ " " +:+ Py.str_of_nat n
    +:+ String (l_dict_inv l) "".

(** [np.where(bs)[0][0]], defined exactly when [any(bs)]. *)
Fixpoint first_true (bs : list bool) : option nat :=
  match bs with
  | [] => None
  | b :: bs' => if b then Some 0 else S <$> first_true bs'
  end.

(** Body of the innermost loop for one [(n, l)]. *)
Definition index_shell (labels : list string) (idx : nat) (sym : string)
    (acc : list bool * list nat) (nl : nat * nat) : list bool * list nat :=
  let hits := Py.str_in (pattern idx sym nl.1 nl.2) <$> labels in
  match first_true hits with
  | Some sidx =>
      (acc.1 ++ replicate (2 * nl.2 + 1) true,
       acc.2 ++ seq sidx (2 * nl.2 + 1))
  | None => (acc.1 ++ replicate (2 * nl.2 + 1) false, acc.2)
  end.

(** [for n in range(1, max_n + 1): for l in range(max_l + 1)] *)
Definition nl_range (N L : nat) : list (nat * nat) :=
  n ← seq 1 N; l ← seq 0 (L + 1); [(n, l)].

Definition index_atom (labels : list string) (sym : string) (N L : nat)
    (idx : nat) : list bool * list nat :=
  foldl (index_shell labels idx sym) ([], []) (nl_range N L).

Definition index_species (labels : list string)
    (sym_idx : Py.dict (list nat)) (max_n max_l : Py.dict nat) (sym : string)
  : option (list (list bool) * list (list nat)) :=
  idxs ← Py.get sym_idx sym;
  N ← Py.get max_n sym;
  L ← Py.get max_l sym;
  let rows := index_atom labels sym N L <$> idxs in
  Some (rows.*1, rows.*2).

Definition __init__ (mol : Mole) : option t :=
  let cs := foldl count_atom ([], []) (Py.enumerate (atom_pure_symbol mol)) in
  mx ← Py.foldlM scan_label ([], []) (ao_labels_raw mol);
  let labels := ao_labels mol in
  ix ← mapM (λ sym, r ← index_species labels cs.2 mx.2 mx.1 sym;
                    Some (sym, r)) (Py.keys mx.2);
  Some {| mol := mol;
          sym_cnt := cs.1;
          max_l := mx.1;
          max_n := mx.2;
          indexing_l := (λ x, (x.1, x.2.1)) <$> ix;
          indexing_r := (λ x, (x.1, x.2.2)) <$> ix |}.

(** *** Padding and unpadding *)

Section padding.
Context {A : Type} (zero : A).

(** [{sym: np.zeros([sym_cnt[sym], max_n[sym] * (max_l[sym] + 1)**2])}] *)
Definition zeros_for (self : t) (sym : string)
  : option (string * list (list A)) :=
  c ← Py.get (sym_cnt self) sym;
  N ← Py.get (max_n self) sym;
  L ← Py.get (max_l self) sym;
  Some (sym, Np.zeros2 zero c (N * (L + 1) ^ 2)).

Definition pad_atom (self : t) (coeff : list A)
    (st : Py.dict (list (list A)) * Py.dict nat) (x : nat * (nat * nat))
  : option (Py.dict (list (list A)) * Py.dict nat) :=
  let '(aidx, (s0, s1)) := x in
  sym ← atom_pure_symbol (mol self) !! aidx;
  k ← Py.get st.2 sym;
  mask ← Py.get (indexing_l self) sym ≫= (.!! k);
  rs ← Py.get (indexing_r self) sym ≫= (.!! k);
  idx ← Np.index_array rs s0;
  vals ← Np.take_idx (Np.slice coeff s0 s1) idx;
  arr ← Py.get st.1 sym;
  arr' ← Np.setitem_row_mask arr k mask vals;
  Some (Py.set st.1 sym arr', Py.set st.2 sym (k + 1)).

Definition pad_basis (self : t) (coeff : list A)
  : option (Py.dict (list (list A))) :=
  coeff_out ← mapM (zeros_for self) (Py.keys (indexing_l self));
  let cnt := (λ sym, (sym, 0)) <$> Py.keys (indexing_l self) in
  fst <$> Py.foldlM (pad_atom self coeff) (coeff_out, cnt)
            (Py.enumerate (aoslice_by_atom (mol self))).

(** [if coeff_in.ndim == 3: coeff_in = coeff_in[0]] *)
Definition first_slab (a : Np.ndarray A) : option (list (list A)) :=
  match a with
  | Np.Arr2 rows => Some rows
  | Np.Arr3 slabs => slabs !! 0
  end.

Definition unpad_atom (self : t) (coeff : Py.dict (Np.ndarray A))
    (st : list A * Py.dict nat) (x : nat * (nat * nat))
  : option (list A * Py.dict nat) :=
  let '(aidx, (s0, s1)) := x in
  sym ← atom_pure_symbol (mol self) !! aidx;
  coeff_in ← Py.get coeff sym ≫= first_slab;
  k ← Py.get st.2 sym;
  mask ← Py.get (indexing_l self) sym ≫= (.!! k);
  rs ← Py.get (indexing_r self) sym ≫= (.!! k);
  idx ← Np.index_array rs s0;
  vals ← Np.getitem_row_mask coeff_in k mask;
  out ← Np.put_idx_slice st.1 s0 s1 idx vals;
  Some (out, Py.set st.2 sym (k + 1)).

Definition unpad_basis (self : t) (coeff : Py.dict (Np.ndarray A))
  : option (list A) :=
  let cnt := (λ sym, (sym, 0)) <$> Py.keys (indexing_l self) in
  let coeff_out := replicate (length (ao_labels (mol self))) zero in
  fst <$> Py.foldlM (unpad_atom self coeff) (coeff_out, cnt)
            (Py.enumerate (aoslice_by_atom (mol self))).
End padding.

End BasisPadder.

(** ** [PySCFProjector] *)

Module PySCFProjector.

(** Gradient dictionaries are Python objects shared with the caller: they
    live in a store and are passed by reference. *)
Definition loc := nat.

Section projector.
Context {A : Type} (zero : A).
Context {DM V : Type}.

(** Tensor contractions with the stored three-centre integrals, and the
    subtraction of the reference density matrix; their numerical content
    does not matter to the index bookkeeping. *)
Variable get_coeff : DM → list A.
Variable sub_dm_init : DM → DM.
Variable einsum_V : list A → V.

Record t := {
  spec_agnostic : bool;
  delta : bool;
  bp : BasisPadder.t;
  (** absent until the first agnostic [get_basis_rep] *)
  spec_partition : option (Py.dict nat);
}.

Abbreviation heap := (gmap loc (Py.dict (Np.ndarray A))).

(** Statements that read and update the store and may raise. *)
Definition prog (X : Type) : Type := heap → heap * option X.

Definition ret {X} (x : X) : prog X := λ h, (h, Some x).
Definition bind {X Y} (m : prog X) (k : X → prog Y) : prog Y :=
  λ h, match m h with
       | (h', Some x) => k x h'
       | (h', None) => (h', None)
       end.

(** [d[k]], [d[k] = v] and [d.pop(k)] on the dictionary stored at [r]. *)
Definition dict_getitem (r : loc) (k : string) : prog (Np.ndarray A) :=
  λ h, (h, h !! r ≫= λ d, Py.get d k).
Definition dict_setitem (r : loc) (k : string) (v : Np.ndarray A)
  : prog unit :=
  λ h, match h !! r with
       | Some d => (<[r := Py.set d k v]> h, Some ())
       | None => (h, None)
       end.
Definition dict_pop (r : loc) (k : string) : prog unit :=
  λ h, match h !! r ≫= λ d, Py.pop d k with
       | Some d' => (<[r := d']> h, Some ())
       | None => (h, None)
       end.
Definition deref (r : loc) : prog (Py.dict (Np.ndarray A)) :=
  λ h, (h, h !! r).
Definition lift {X} (o : option X) : prog X := λ h, (h, o).

(** [np.concatenate(arrs, axis=0)] of 2-D arrays: needs one array at least
    and rows of one width.  (An array without rows carries no width in
    this representation; the padder never produces one.) *)
Definition concatenate0 (arrs : list (list (list A)))
  : option (list (list A)) :=
  match arrs with
  | [] => None
  | _ =>
      let rows := concat arrs in
      match rows with
      | [] => Some []
      | r :: _ =>
          if forallb (λ r', bool_decide (length r' = length r)) rows
          then Some rows else None
      end
  end.

Definition get_basis_rep (self : t) (dm : DM)
  : t * option (Py.dict (list (list A))) :=
  let dm := if delta self then sub_dm_init dm else dm in
  match BasisPadder.pad_basis zero (bp self) (get_coeff dm) with
  | None => (self, None)
  | Some coeff =>
      if spec_agnostic self then
        let part := (λ x : string * list (list A), (x.1, length x.2)) <$> coeff in
        let self' := {| spec_agnostic := spec_agnostic self;
                        delta := delta self;
                        bp := bp self;
                        spec_partition := Some part |} in
        (self', coeff_agn ← concatenate0 (coeff.*2);
                Some [("X", coeff_agn)])
      else (self, Some coeff)
  end.

(** [a[:, lo:hi]]: the slice runs along the second axis. *)
Definition slice_axis1 (a : Np.ndarray A) (lo hi : nat) : Np.ndarray A :=
  match a with
  | Np.Arr2 rows => Np.Arr2 ((λ row, Np.slice row lo hi) <$> rows)
  | Np.Arr3 slabs => Np.Arr3 ((λ slab, Np.slice slab lo hi) <$> slabs)
  end.

(** The loop over [self.spec_partition]. *)
Fixpoint split_loop (dEdC : loc) (part : Py.dict nat) (running_idx : nat)
  : prog unit :=
  match part with
  | [] => ret ()
  | (sym, n) :: part' =>
      bind (dict_getitem dEdC "X") (λ X,
      bind (dict_setitem dEdC sym
              (slice_axis1 X running_idx (running_idx + n))) (λ _,
      split_loop dEdC part' (running_idx + n)))
  end.

Definition get_V (self : t) (dEdC : loc) : prog V :=
  bind (if spec_agnostic self then
          bind (lift (spec_partition self)) (λ part,
          bind (split_loop dEdC part 0) (λ _,
          dict_pop dEdC "X"))
        else ret ()) (λ _,
  bind (deref dEdC) (λ d,
  bind (lift (BasisPadder.unpad_basis zero (bp self) d)) (λ flat,
  ret (einsum_V flat)))).

End projector.
End PySCFProjector.

(** ** [GaussianProjector] *)

Module GaussianProjector.

Section projector.
Context {Rho Pos Basis Coef Angs : Type}.

(** ['{}{}{}{}'.format(spec, pos[0], pos[1], pos[2])]; raises when [pos]
    has fewer than three components. *)
Variable fmt_idx : string → Pos → option string.

(** The body of [project] up to the padded coefficient row: windowing,
    radial and angular evaluation, contraction and padding.  It reads the
    density, the position, the shell list, the basis string and immutable
    attributes of the projector; it never reads its [angs] argument. *)
Variable project_body : Rho → Pos → Basis → string → option (list Coef).

Record t := {
  basis : Py.dict Basis;
  basis_strings : Py.dict string;
  all_angs : Py.dict (option Angs);
}.

(** [return np.array(coeff).reshape(1, -1), None] *)
Definition project (self : t) (rho : Rho) (pos : Pos)
    (basis_instructions : Basis) (basis_string : string)
    (angs : option Angs) : option (list (list Coef) * option Angs) :=
  coeff ← project_body rho pos basis_instructions basis_string;
  Some ([coeff], None).

(** The loop over [zip(positions, species)].  The cache survives an
    exception with whatever was written before it. *)
Fixpoint rep_loop (UseMemory : bool) (self : t) (rho : Rho)
    (atoms : list (Pos * string)) (cache : Py.dict (option Angs))
    (basis_rep : Py.dict (list (list (list Coef))))
  : Py.dict (option Angs) * option (Py.dict (list (list (list Coef)))) :=
  match atoms with
  | [] => (cache, Some basis_rep)
  | (pos, spec) :: atoms' =>
      let basis_rep :=
        if Py.mem basis_rep spec then basis_rep
        else Py.set basis_rep spec [] in
      match
        idx ← fmt_idx spec pos;
        b ← Py.get (basis self) spec;
        bs ← Py.get (basis_strings self) spec;
        pa ← project self rho pos b bs (default None (Py.get cache idx));
        Some (idx, pa)
      with
      | None => (cache, None)
      | Some (idx, (projection, angs)) =>
          let basis_rep :=
            Py.set basis_rep spec
              (default [] (Py.get basis_rep spec) ++ [projection]) in
          let cache := if UseMemory then Py.set cache idx angs else cache in
          rep_loop UseMemory self rho atoms' cache basis_rep
      end
  end.

(** [np.concatenate(rows, axis=0)] of a non-empty list of [(1, k)] arrays. *)
Definition concatenate0 (arrs : list (list (list Coef)))
  : option (list (list Coef)) :=
  match concat arrs with
  | [] => None
  | r :: rows =>
      if forallb (λ r', bool_decide (length r' = length r)) rows
      then Some (r :: rows) else None
  end.

Definition get_basis_rep (UseMemory : bool) (self : t) (rho : Rho)
    (positions : list Pos) (species : list string)
  : t * option (Py.dict (list (list Coef))) :=
  let '(cache, r) :=
    rep_loop UseMemory self rho (zip positions species) (all_angs self) [] in
  ({| basis := basis self; basis_strings := basis_strings self;
      all_angs := cache |},
   basis_rep ← r;
   mapM (λ x : string * list (list (list Coef)),
           a ← concatenate0 x.2; Some (x.1, a)) basis_rep).
End projector.

(** *** The radial function [g] *)

Section radial.
#[local] Open Scope R_scope.

Definition GAMMA : list R :=
  (λ c, c * sqrt PI) <$>
    [1/2; 3/4; 15/8; 105/16; 945/32; 10395/64; 135135/128].

(** [np.max] of a scalar or of a non-empty array. *)
Definition np_max (xs : list R) : option R :=
  match xs with
  | [] => None
  | x :: xs' => Some (foldl Rmax x xs')
  end.

(** [(2*a)**(l/2+3/4)*np.sqrt(2)/np.sqrt(GAMMA[l])].  [Rpower] is the
    floating-point power for a positive base; the statements about [g] take
    positive exponents [a]. *)
Definition norm_term (a : R) (l : nat) : option R :=
  G ← GAMMA !! l;
  Some (Rpower (2 * a) (INR l / 2 + 3 / 4) * sqrt 2 / sqrt G).

(** One turn of [for a, c in zip(alpha, coeff)]. *)
Definition g_step (r : list R) (l : nat) (st : R * list R) (ac : R * R)
  : option (R * list R) :=
  Ni ← norm_term ac.1 l;
  Some (st.1 + Ni,
        zip_with Rplus st.2 ((λ x, exp (- ac.1 * x ^ 2) * ac.2) <$> r)).

(** The quotient [r / np.max(r_o)] is the real one for a cutoff other than
    zero; the statements about [g] take a positive cutoff. *)
Definition g (r r_o alpha : list R) (l : nat) (coeff : list R)
  : option (list R) :=
  M ← np_max r_o;
  let fc := (λ x, 1 - (0.5 * (1 - cos (PI * x / M))) ^ 8) <$> r in
  st ← Py.foldlM (g_step r l) (0, (λ _, 0) <$> r) (zip alpha coeff);
  let N := st.1 in
  let f := zip_with Rmult st.2
             (zip_with (λ x e, x ^ l * e * N) r fc) in
  Some (zip_with (λ x y, if Rgt_dec x M then 0 else y) r f).
End radial.

End GaussianProjector.

(** ** Vocabulary of the statements *)

Module Spec.
Import Pyscf.

(** Value of a little-endian digit list. *)
Fixpoint val_le (ds : list nat) : nat :=
  match ds with
  | [] => 0
  | d :: ds' => d + 10 * val_le ds'
  end.

Definition blank : ascii := " "%char.

(** A string without blanks. *)
Definition nospace (s : string) : Prop := blank ∉ list_ascii_of_string s.

(** The atoms of species [s], in geometry order, and the rank of atom [a]
    among the atoms of its species. *)
Definition atoms_of (s : string) (atoms : list string) : list nat :=
  (filter (λ x : nat * string, x.2 = s) (Py.enumerate atoms)).*1.

Definition rank (atoms : list string) (a : nat) (s : string) : nat :=
  length (atoms_of s (take a atoms)).

(** Offset of the shell [nl] inside the block of an atom with shells [B]. *)
Fixpoint shoff (B : list (nat * nat)) (nl : nat * nat) : nat :=
  match B with
  | [] => 0
  | b :: B' => if decide (b = nl) then 0 else (2 * b.2 + 1) + shoff B' nl
  end.

(** Consecutive blocks of the given widths. *)
Fixpoint blocks (off : nat) (ws : list nat) : list (nat * nat) :=
  match ws with
  | [] => []
  | w :: ws' => (off, off + w) :: blocks (off + w) ws'
  end.

(** The index lists the constructor builds for an atom whose shells are
    [B] and whose block starts at [off]. *)
Definition mask_row (B : list (nat * nat)) (N L : nat) : list bool :=
  BasisPadder.nl_range N L ≫= λ nl, replicate (2 * nl.2 + 1) (bool_decide (nl ∈ B)).

Definition rs_row (B : list (nat * nat)) (off N L : nat) : list nat :=
  BasisPadder.nl_range N L ≫= λ nl,
    if decide (nl ∈ B) then seq (off + shoff B nl) (2 * nl.2 + 1) else [].

(** A geometry and basis the engine accepts: species names and function
    names are single words, every species of the geometry has at least one
    shell, no shell twice, principal numbers start at 1 and angular momenta
    stay within the letters the padder shares with the engine
    ([s p d f g h i]). *)
Record licit (basis : string → list (nat * nat)) (mname : nat → nat → string)
    (atoms : list string) : Prop := {
  licit_sym : ∀ s, s ∈ atoms → nospace s;
  licit_m : ∀ l m, nospace (mname l m);
  licit_nonempty : ∀ s, s ∈ atoms → basis s ≠ [];
  licit_nodup : ∀ s, s ∈ atoms → NoDup (basis s);
  licit_range : ∀ s nl, s ∈ atoms → nl ∈ basis s → 1 ≤ nl.1 ∧ nl.2 ≤ 6;
}.

(** What the second loop of the constructor reads from a label, and what
    it has established after the labels [Ls]. *)
Definition label_sym (x : nat * string * string * string) : string := x.1.1.2.
Definition label_n (x : nat * string * string * string) : option nat :=
  Py.int (Py.but_last x.1.2).
Definition label_l (x : nat * string * string * string) : option nat :=
  Py.last_char x.1.2 ≫= BasisPadder.l_dict.

Record scan_inv (mx : Py.dict nat * Py.dict nat)
    (Ls : list (nat * string * string * string)) : Prop := {
  si_keys : ∀ s, is_Some (Py.get mx.1 s) ↔ is_Some (Py.get mx.2 s);
  si_dom : ∀ s, is_Some (Py.get mx.2 s) → ∃ x, x ∈ Ls ∧ label_sym x = s;
  si_bound : ∀ x, x ∈ Ls →
    ∃ n l N L, label_n x = Some n ∧ label_l x = Some l ∧
               Py.get mx.2 (label_sym x) = Some N ∧
               Py.get mx.1 (label_sym x) = Some L ∧ n ≤ N ∧ l ≤ L;
  si_tight : ∀ s L, Py.get mx.1 s = Some L →
    L = 0 ∨ ∃ x, x ∈ Ls ∧ label_sym x = s ∧ label_l x = Some L;
}.

(** The index lists of atom [a] (species [s]) inside a padder. *)
Definition mask_of (bp : BasisPadder.t) (atoms : list string) (a : nat)
    (s : string) : option (list bool) :=
  Py.get (BasisPadder.indexing_l bp) s ≫= (.!! rank atoms a s).
Definition rs_of (bp : BasisPadder.t) (atoms : list string) (a : nat)
    (s : string) : option (list nat) :=
  Py.get (BasisPadder.indexing_r bp) s ≫= (.!! rank atoms a s).

(** What padding and unpadding rely on in a constructed padder. *)
Record wf (bp : BasisPadder.t) : Prop := {
  wf_blocks : ∃ ws,
    aoslice_by_atom (BasisPadder.mol bp) = blocks 0 ws ∧
    length ws = length (atom_pure_symbol (BasisPadder.mol bp)) ∧
    length (ao_labels_raw (BasisPadder.mol bp)) = sum_list ws;
  wf_keys : ∀ s,
    s ∈ Py.keys (BasisPadder.indexing_l bp) ↔
    s ∈ atom_pure_symbol (BasisPadder.mol bp);
  wf_dims : ∀ s, s ∈ atom_pure_symbol (BasisPadder.mol bp) →
    ∃ N L ml rl,
      Py.get (BasisPadder.sym_cnt bp) s
        = Some (length (atoms_of s (atom_pure_symbol (BasisPadder.mol bp)))) ∧
      Py.get (BasisPadder.max_n bp) s = Some N ∧
      Py.get (BasisPadder.max_l bp) s = Some L ∧
      Py.get (BasisPadder.indexing_l bp) s = Some ml ∧
      Py.get (BasisPadder.indexing_r bp) s = Some rl ∧
      length ml = length (atoms_of s (atom_pure_symbol (BasisPadder.mol bp))) ∧
      Forall (λ m, length m = N * (L + 1) ^ 2) ml ∧
      Forall2 (λ m r, Np.count_true m = length r) ml rl;
  wf_perm : ∀ a s s0 s1 rs,
    atom_pure_symbol (BasisPadder.mol bp) !! a = Some s →
    aoslice_by_atom (BasisPadder.mol bp) !! a = Some (s0, s1) →
    rs_of bp (atom_pure_symbol (BasisPadder.mol bp)) a s = Some rs →
    rs ≡ₚ seq s0 (s1 - s0) ∧ rs ≠ [];
}.

(** Entry [j] of row [k] of the array stored under [sym]. *)
Definition slot {B : Type} (d : Py.dict (list (list B))) (sym : string)
    (k j : nat) : option B :=
  (Py.get d sym ≫= (.!! k)) ≫= (.!! j).

Section arrays.
Context {A : Type} (zero : A).

(** [v[rs]], reading [zero] outside [v]. *)
Definition pick (v : list A) (rs : list nat) : list A :=
  (λ r, default zero (v !! r)) <$> rs.

(** Successive writes [a[r] = x] for the pairs of [rs] and [vals]. *)
Definition writes (a : list A) (rs : list nat) (vals : list A) : list A :=
  foldl (λ acc rv, <[rv.1 := rv.2]> acc) a (zip rs vals).

(** A padded mapping handed to [unpad_basis] as 2-D arrays. *)
Definition arr2_dict (w : Py.dict (list (list A)))
  : Py.dict (Np.ndarray A) :=
  (λ x : string * list (list A), (x.1, Np.Arr2 x.2)) <$> w.

(** [w] has the per-species shapes of the padder [bp]. *)
Definition shaped (bp : BasisPadder.t) (w : Py.dict (list (list A))) : Prop :=
  ∀ s ml, Py.get (BasisPadder.indexing_l bp) s = Some ml →
    ∃ arr, Py.get w s = Some arr ∧
           Forall2 (λ (m : list bool) (row : list A), length row = length m)
                   ml arr.

(** The same mapping as 3-D arrays: every entry leads a stack whose other
    slabs are [rest]. *)
Definition arr3_dict (rest : string → list (list (list A)))
    (w : Py.dict (list (list A))) : Py.dict (Np.ndarray A) :=
  (λ x : string * list (list A), (x.1, Np.Arr3 (x.2 :: rest x.1))) <$> w.

(** Keep of a 3-D array its leading 2-D slab only. *)
Definition squeeze0 (a : Np.ndarray A) : Np.ndarray A :=
  match a with
  | Np.Arr3 (slab :: _) => Np.Arr2 slab
  | _ => a
  end.

Definition squeeze_dict (coeff : Py.dict (Np.ndarray A))
  : Py.dict (Np.ndarray A) :=
  (λ x : string * Np.ndarray A, (x.1, squeeze0 x.2)) <$> coeff.

(** The row of a 2-D or 3-D array that [unpad_basis] reads for atom [a]. *)
Definition row_of (coeff : Py.dict (Np.ndarray A)) (atoms : list string)
    (a : nat) (s : string) : option (list A) :=
  (Py.get coeff s ≫= BasisPadder.first_slab) ≫= (.!! rank atoms a s).

(** State of the padding loop before atom [a]. *)
Definition pad_inv (bp : BasisPadder.t) (v : list A) (a : nat)
    (st : Py.dict (list (list A)) * Py.dict nat) : Prop :=
  let atoms := atom_pure_symbol (BasisPadder.mol bp) in
  (∀ s, s ∈ atoms → Py.get st.2 s = Some (rank atoms a s)) ∧
  (∀ s, s ∈ atoms → ∃ arr,
      Py.get st.1 s = Some arr ∧
      length arr = length (atoms_of s atoms) ∧
      (∀ a' m rs, a' < a → atoms !! a' = Some s →
         mask_of bp atoms a' s = Some m → rs_of bp atoms a' s = Some rs →
         arr !! rank atoms a' s
         = Some (Np.scatter_mask m (pick v rs) (replicate (length m) zero))) ∧
      (∀ k m, rank atoms a s ≤ k →
         Py.get (BasisPadder.indexing_l bp) s ≫= (.!! k) = Some m →
         arr !! k = Some (replicate (length m) zero))).

(** State of the unpadding loop before atom [a]. *)
Definition unpad_inv (bp : BasisPadder.t) (coeff : Py.dict (Np.ndarray A))
    (a : nat) (st : list A * Py.dict nat) : Prop :=
  let atoms := atom_pure_symbol (BasisPadder.mol bp) in
  length st.1 = length (ao_labels_raw (BasisPadder.mol bp)) ∧
  (∀ s, s ∈ atoms → Py.get st.2 s = Some (rank atoms a s)) ∧
  (∀ a' s m rs row t r, a' < a → atoms !! a' = Some s →
     mask_of bp atoms a' s = Some m → rs_of bp atoms a' s = Some rs →
     row_of coeff atoms a' s = Some row → rs !! t = Some r →
     st.1 !! r = Np.gather_mask m row !! t).
End arrays.

(** *** Radial functions *)

Section radial.
#[local] Open Scope R_scope.

(** [(2l+1)!!] and the closed form of [Gamma(l + 3/2)]. *)
Fixpoint odd_fact (l : nat) : Z :=
  match l with
  | O => 1%Z
  | S l' => ((2 * Z.of_nat l + 1) * odd_fact l')%Z
  end.

Definition gamma_half (l : nat) : R :=
  IZR (odd_fact l) / 2 ^ (l + 1) * sqrt PI.

(** Normalisation constant of one primitive with exponent [a]. *)
Definition norm_const (a : R) (l : nat) : R :=
  Rpower (2 * a) (INR l / 2 + 3 / 4) * sqrt 2 / sqrt (gamma_half l).

(** The cutoff envelope. *)
Definition envelope (M x : R) : R :=
  1 - (0.5 * (1 - cos (PI * x / M))) ^ 8.

(** Sum of the normalisation constants, and the bare contraction. *)
Fixpoint sum_norm (l : nat) (ac : list (R * R)) : R :=
  match ac with
  | [] => 0
  | p :: ac' => norm_const p.1 l + sum_norm l ac'
  end.

Fixpoint sum_coeff (ac : list (R * R)) : R :=
  match ac with
  | [] => 0
  | p :: ac' => p.2 + sum_coeff ac'
  end.

Fixpoint contraction (ac : list (R * R)) (x : R) : R :=
  match ac with
  | [] => 0
  | p :: ac' => exp (- p.1 * x ^ 2) * p.2 + contraction ac' x
  end.

(** What [g] computes at a radius [x] for the cutoff [M]. *)
Definition g_value (M : R) (l : nat) (ac : list (R * R)) (x : R) : R :=
  if Rgt_dec x M then 0
  else contraction ac x * (x ^ l * envelope M x * sum_norm l ac).

(** The contraction of individually normalised primitives. *)
Fixpoint normalized_sum (l : nat) (ac : list (R * R)) (x : R) : R :=
  match ac with
  | [] => 0
  | p :: ac' =>
      norm_const p.1 l * p.2 * exp (- p.1 * x ^ 2) + normalized_sum l ac' x
  end.
End radial.

End Spec.

(** ** Sample inputs *)

Module Examples.
Import Py Np Pyscf.

(** A water-like geometry; oxygen carries two s shells and a p shell,
    hydrogen one s shell. *)
Definition water : list string := ["O"; "H"; "H"].

Definition sp_basis (s : string) : list (nat * nat) :=
  if decide (s = "O") then [(1, 0); (2, 0); (2, 1)] else [(1, 0)].

Definition cart_name (l m : nat) : string :=
  match l with
  | 1 => nth m ["x"; "y"; "z"] ""
  | _ => ""
  end.

Definition water_coeff : list nat := [10; 11; 12; 13; 14; 15; 16].

(** The species-agnostic set-up: one and the same s shell on every atom. *)
Definition s_basis (s : string) : list (nat * nat) := [(1, 0)].

Definition no_padder : BasisPadder.t :=
  {| BasisPadder.mol := M s_basis cart_name [];
     BasisPadder.sym_cnt := []; BasisPadder.max_l := [];
     BasisPadder.max_n := []; BasisPadder.indexing_l := [];
     BasisPadder.indexing_r := [] |}.

Definition water_s_padder : BasisPadder.t :=
  default no_padder (BasisPadder.__init__ (M s_basis cart_name water)).

Definition agnostic (part : option (dict nat)) : PySCFProjector.t :=
  {| PySCFProjector.spec_agnostic := true;
     PySCFProjector.delta := false;
     PySCFProjector.bp := water_s_padder;
     PySCFProjector.spec_partition := part |}.

(** Density matrices stand for their coefficient vectors, potentials for
    the flat gradients they are contracted from. *)
Definition get_coeff (dm : list nat) : list nat := dm.
Definition sub_dm_init (dm : list nat) : list nat := dm.
Definition einsum_V (flat : list nat) : list nat := flat.

Definition water_s_coeff : list nat := [5; 6; 7].
Definition water_s_padded : dict (list (list nat)) :=
  [("O", [[5]]); ("H", [[6]; [7]])].
Definition water_s_partition : dict nat := [("O", 1); ("H", 2)].

(** A caller's gradient dictionary, stored at address 0, holding the
    combined array with and without a leading system axis. *)
Definition grad3 : dict (ndarray nat) := [("X", Arr3 [[[5]; [6]; [7]]])].
Definition grad2 : dict (ndarray nat) := [("X", Arr2 [[5]; [6]; [7]])].
Definition store (d : dict (ndarray nat))
  : gmap PySCFProjector.loc (dict (ndarray nat)) := {[ 0 := d ]}.

(** A Gaussian projector for one species, with integer grid positions and
    a projection that returns one coefficient. *)
Definition fmt_idx (spec : string) (pos : list nat) : option string :=
  match pos with
  | x :: y :: z :: _ =>
      Some (spec +:+ str_of_nat x +:+ str_of_nat y +:+ str_of_nat z)
  | _ => None
  end.

Definition project_body (rho : nat) (pos : list nat) (b : unit)
    (bs : string) : option (list nat) :=
  Some [rho].

Definition oxygen_projector : @GaussianProjector.t unit unit :=
  {| GaussianProjector.basis := [("O", ())];
     GaussianProjector.basis_strings := [("O", "O S")];
     GaussianProjector.all_angs := [] |}.
End Examples.

(** ** Layout of the padded rows *)

Module Layout.
Import Pyscf.

(** Column of the [m]-th function of shell [(n, l)] in a padded row of a
    species whose largest angular momentum is [L]: the row runs over
    [n = 1, 2, ...], inside that over [l = 0, ..., L], and gives every
    shell [2l+1] columns. *)
Definition slot_of (L n l m : nat) : nat :=
  (n - 1) * (L + 1) ^ 2 + l ^ 2 + m.

(** Position, in the flat vector, of the [m]-th function of shell [nl] of
    atom [a] (species [s]). *)
Definition ao_index (basis : string → list (nat * nat))
    (atoms : list string) (a : nat) (s : string) (nl : nat * nat) (m : nat)
  : nat :=
  sum_list (nao_atom basis <$> take a atoms) + Spec.shoff (basis s) nl + m.

(** The padded row of an atom with shells [B] whose block of the flat
    vector [v] starts at [off]. *)
Definition padded_row {A : Type} (zero : A) (v : list A)
    (B : list (nat * nat)) (off N L : nat) : list A :=
  BasisPadder.nl_range N L ≫= λ nl,
    if decide (nl ∈ B)
    then Spec.pick zero v (seq (off + Spec.shoff B nl) (2 * nl.2 + 1))
    else replicate (2 * nl.2 + 1) zero.

(** The largest principal numbers recorded by the second loop of the
    constructor are attained by a label. *)
Definition tight_n (mx : Py.dict nat * Py.dict nat)
    (Ls : list (nat * string * string * string)) : Prop :=
  ∀ s N, Py.get mx.2 s = Some N →
    N = 0 ∨ ∃ x, x ∈ Ls ∧ Spec.label_sym x = s ∧ Spec.label_n x = Some N.
End Layout.

(** ** [BasisPadder.get_basis_json] *)

Module BasisJson.
Import BasisPadder.



End BasisJson.

(** ** Further sample inputs *)

Module MoreExamples.
Import Py Np Pyscf Examples.

(** Hydrogen without any basis function. *)
Definition ghost_basis (s : string) : list (nat * nat) :=
  if decide (s = "O") then [(1, 0)] else [].

Definition ghost_padder : BasisPadder.t :=
  default no_padder (BasisPadder.__init__ (M ghost_basis cart_name water)).

Definition water_padder : BasisPadder.t :=
  default no_padder (BasisPadder.__init__ (M sp_basis cart_name water)).
End MoreExamples.

Module ProjectorExamples.
Import Py Np Pyscf Examples MoreExamples.

End ProjectorExamples.

(** ** Rows of the Gaussian basis representation *)

Module GaussianRows.
Section rows.
Context {Rho Pos Basis Coef Angs : Type}.
Variable fmt_idx : string → Pos → option string.
Variable project_body : Rho → Pos → Basis → string → option (list Coef).

(** The coefficient rows of the atoms of species [spec], in the order of
    the atoms. *)
Definition projections (self : @GaussianProjector.t Basis Angs) (rho : Rho)
    (atoms : list (Pos * string)) (spec : string) : list (list Coef) :=
  omap (λ x : Pos * string,
          if decide (x.2 = spec) then
            b ← Py.get (GaussianProjector.basis self) x.2;
            bs ← Py.get (GaussianProjector.basis_strings self) x.2;
            project_body rho x.1 b bs
          else None) atoms.

(** An atom the loop gets through: its position renders, its species has a
    basis and a basis string, and its projection has [W] coefficients. *)
Definition projects (self : @GaussianProjector.t Basis Angs) (rho : Rho)
    (W : string → nat) (x : Pos * string) : Prop :=
  ∃ idx b bs c,
    fmt_idx x.2 x.1 = Some idx ∧
    Py.get (GaussianProjector.basis self) x.2 = Some b ∧
    Py.get (GaussianProjector.basis_strings self) x.2 = Some bs ∧
    project_body rho x.1 b bs = Some c ∧ length c = W x.2.
End rows.
End GaussianRows.

(** ** [GaussianProjector.radials] *)

Module Radials.
Import GaussianProjector.
Section radials.
#[local] Open Scope R_scope.

(** One entry of the basis list,
    [{'l': ..., 'alpha': [...], 'r_o': [...], 'coeff': [...]}]: entry [ib]
    of each list belongs to the [ib]-th contracted function (its primitive
    exponents, their cutoffs, its contraction coefficients). *)
Record shell := {
  l : nat;
  alpha : list (list R);
  r_o : list (list R);
  coeff : list (list R);
}.

(** The [basis] argument: a list of entries, one entry (a [dict]), or
    anything else. *)
Inductive basis_arg :=
  | BList (bs : list shell)
  | BDict (b : shell)
  | BOther.

(** [cls.g(r, b['r_o'][ib], b['alpha'][ib], b['l'], b['coeff'][ib])] *)
Definition radial (r : list R) (b : shell) (ib : nat) : option (list R) :=
  ro ← r_o b !! ib;
  a ← alpha b !! ib;
  c ← coeff b !! ib;
  g r ro a (l b) c.

(** The [dict] branch reads the loop variable [b] of the other branch,
    which is unbound there: it raises. *)
Definition radials (r : list R) (basis : basis_arg)
  : option (list (list (list R))) :=
  match basis with
  | BList bs =>
      mapM (λ b, mapM (radial r b) (seq 0 (length (alpha b)))) bs
  | BDict _ => None
  | BOther => Some []
  end.

(** An entry whose lists go together: as many cutoff lists and coefficient
    lists as contracted functions, positive cutoffs and exponents, and an
    angular momentum of the table. *)
Record shell_ok (b : shell) : Prop := {
  ok_l : (l b ≤ 6)%nat;
  ok_r_o : length (r_o b) = length (alpha b);
  ok_coeff : length (coeff b) = length (alpha b);
  ok_cut : Forall (λ ro, ∃ M, np_max ro = Some M ∧ 0 < M) (r_o b);
  ok_alpha : Forall (Forall (λ a, 0 < a)) (alpha b);
}.

Definition s_shell : shell :=
  {| l := 0; alpha := [[1 / 2; 1]]; r_o := [[2; 3]]; coeff := [[1; 3]] |}.
End radials.
End Radials.

(** ** The tensor contractions of [pyscf.py] *)

Module Kernels.
Section kernels.
#[local] Open Scope R_scope.

(** Sums of [np.einsum], read over the reals (where the order of the
    summands does not matter). *)
Definition sum_R (xs : list R) : R := foldr Rplus 0 xs.

Definition dot (u w : list R) : R := sum_R (zip_with Rmult u w).

(** [u + a * e], entry by entry. *)
Definition axpy (a : R) (e u : list R) : list R :=
  zip_with (λ x y, x + a * y) u e.

(** The length that an axis shared by two operands of [np.einsum] has in
    the contraction, for operands of lengths [a] and [b] along it: the
    lengths agree, or the one that is 1 is repeated to the other.
    [Np.broadcast (axis a b)] of each operand raises when they do not
    fit. *)
Definition axis (a b : nat) : nat := if decide (a = 1%nat) then b else a.

(** [np.einsum('ij,j,jk -> ik', mo_coeff, mo_occ, mo_coeff.T)]: the three
    operands share the axis [j].  (A matrix without rows carries no width
    in this representation, and gives the matrix without rows.) *)
Definition get_dm (mo_coeff : list (list R)) (mo_occ : list R)
  : option (list (list R)) :=
  match mo_coeff with
  | [] => Some []
  | c0 :: _ =>
      if forallb (λ row, bool_decide (length row = length c0)) mo_coeff then
        let J := axis (length c0) (length mo_occ) in
        occ ← Np.broadcast J mo_occ;
        C ← mapM (Np.broadcast J) mo_coeff;
        Some ((λ ci, (λ ck, dot (zip_with Rmult ci occ) ck) <$> C) <$> C)
      else None
  end.

(** The length of the last axis of a 3-D array, read off its first entry. *)
Definition last_axis (eri3c : list (list (list R))) : nat :=
  length (default [] (head (default [] (head eri3c)))).

(** Operands of matching shapes [(I, J, K)] and [(I, J)]. *)
Definition shapes_match (eri3c : list (list (list R))) (dm : list (list R))
  : bool :=
  bool_decide (length eri3c = length dm)
  && forallb (λ p : list (list R) * list R,
                bool_decide (length p.1 = length p.2)
                && forallb (λ e, bool_decide (length e = last_axis eri3c)) p.1)
             (zip eri3c dm).

(** [np.einsum('ijk, ij -> k', eri3c, dm)]: the sum over [i] and [j] of
    [dm[i, j] * eri3c[i, j, :]], the operands sharing the axes [i] and
    [j]. *)
Definition get_coeff (dm : list (list R)) (eri3c : list (list (list R)))
  : option (list R) :=
  let K := last_axis eri3c in
  if forallb (forallb (λ e, bool_decide (length e = K))) eri3c then
    let I := axis (length eri3c) (length dm) in
    eri ← Np.broadcast I eri3c;
    d ← Np.broadcast I dm;
    ps ← mapM (λ p : list (list R) * list R,
                 let J := axis (length p.1) (length p.2) in
                 ei ← Np.broadcast J p.1;
                 di ← Np.broadcast J p.2;
                 Some (zip ei di))
              (zip eri d);
    Some (foldr (λ p acc, axpy p.2 p.1 acc) (replicate K 0) (concat ps))
  else None.

(** [np.einsum('ijk, k', self.eri3c, dEdC)], the last line of [get_V]:
    [V[i, j]] is the sum over [k] of [eri3c[i, j, k] * dEdC[k]], the
    operands sharing the axis [k]. *)
Definition einsum_V (eri3c : list (list (list R))) (dEdC : list R)
  : option (list (list R)) :=
  let K := last_axis eri3c in
  if forallb (forallb (λ e, bool_decide (length e = K))) eri3c then
    let K' := axis K (length dEdC) in
    c ← Np.broadcast K' dEdC;
    eri ← mapM (mapM (Np.broadcast K')) eri3c;
    Some ((λ ei : list (list R), (λ e, dot e c) <$> ei) <$> eri)
  else None.

(** [sum_ij a[i, j] * b[i, j]] *)
Definition frobenius (a b : list (list R)) : R :=
  sum_R (zip_with dot a b).
End kernels.
End Kernels.

(** ** Inner products of padded mappings *)

Module Transpose.
Section defs.
#[local] Open Scope R_scope.

(** The row of atom [a] in a padded mapping (empty when there is none). *)
Definition atom_row (atoms : list string) (X : Py.dict (list (list R)))
    (a : nat) : list R :=
  default [] (s ← atoms !! a; Py.get X s ≫= (.!! Spec.rank atoms a s)).

(** The inner product of two padded mappings, atom row by atom row. *)
Definition padded_dot (atoms : list string)
    (P w : Py.dict (list (list R))) : R :=
  Kernels.sum_R ((λ a, Kernels.dot (atom_row atoms P a) (atom_row atoms w a))
                   <$> seq 0 (length atoms)).
End defs.
End Transpose.

Module KernelExamples.
Import Examples.
Section examples.
#[local] Open Scope R_scope.

(** Integrals of one basis function against the seven auxiliary functions
    of the water-like geometry, and a density matrix to go with them. *)
Definition water_eri3c : list (list (list R)) := [[[1; 2; 0; 1; 0; 3; 1]]].
Definition water_dm : list (list R) := [[2]].
End examples.
End KernelExamples.

(** * Facts about the Python and NumPy layer *)

Module PyFacts.
Import Py Spec.

Abbreviation la := list_ascii_of_string (only parsing).

#[global] Arguments Py.digit_char : simpl never.
#[global] Arguments Py.str_of_nat : simpl never.

Section dict.
Context {V : Type}.
Implicit Types (d : dict V) (k : string) (v : V).

Lemma get_set d k v k' :
  get (set d k v) k' = if decide (k = k') then Some v else get d k'.
Proof.
  induction d as [|[k0 v0] d IH]; simpl.
  - repeat case_decide; congruence.
  - destruct (decide (k0 = k)) as [->|Hne]; simpl.
    + repeat case_decide; congruence.
    + rewrite IH. repeat case_decide; congruence.
Qed.

Lemma get_set_eq d k v : get (set d k v) k = Some v.
Proof. rewrite get_set. by case_decide. Qed.

Lemma get_set_ne d k v k' : k ≠ k' → get (set d k v) k' = get d k'.
Proof. intros. rewrite get_set. by case_decide. Qed.

Lemma mem_get d k : mem d k = true ↔ is_Some (get d k).
Proof.
  unfold mem. destruct (get d k); split; intros H; eauto; try done.
Qed.

Lemma get_None_keys d k : get d k = None ↔ k ∉ keys d.
Proof.
  unfold keys. induction d as [|[k0 v0] d IH]; simpl.
  - split; [intros _; apply not_elem_of_nil | done].
  - rewrite not_elem_of_cons. destruct (decide (k0 = k)) as [->|Hne].
    + split; [done | intros [? _]; done].
    + rewrite IH. naive_solver.
Qed.

Lemma get_Some_keys d k v : get d k = Some v → k ∈ keys d.
Proof.
  intros H. destruct (decide (k ∈ keys d)) as [|Hn]; [done|].
  apply get_None_keys in Hn. congruence.
Qed.

Lemma keys_set_present d k v : is_Some (get d k) → keys (set d k v) = keys d.
Proof.
  unfold keys. induction d as [|[k0 v0] d IH]; simpl.
  - by intros [? ?].
  - destruct (decide (k0 = k)); subst; simpl; [done|].
    intros Hs. f_equal. by apply IH.
Qed.

Lemma get_fmap_keys (f : string → V) (ks : list string) k :
  get ((λ s, (s, f s)) <$> ks) k = if decide (k ∈ ks) then Some (f k) else None.
Proof.
  induction ks as [|k0 ks IH]; [done|].
  rewrite fmap_cons. cbn [get].
  - rewrite IH. destruct (decide (k0 = k)) as [->|Hne].
    + rewrite decide_True; [done | by left].
    + destruct (decide (k ∈ ks)) as [Hin|Hin].
      * rewrite decide_True; [done | by right].
      * rewrite decide_False; [done|]. rewrite elem_of_cons. naive_solver.
Qed.
End dict.

Lemma foldlM_app {S X} (f : S → X → option S) s xs ys :
  foldlM f s (xs ++ ys) = foldlM f s xs ≫= λ s', foldlM f s' ys.
Proof.
  revert s. induction xs as [|x xs IH]; intros s; simpl; [done|].
  destruct (f s x); simpl; [apply IH | done].
Qed.

Lemma enumerate_snoc {X} (xs : list X) x :
  enumerate (xs ++ [x]) = enumerate xs ++ [(length xs, x)].
Proof.
  unfold enumerate. rewrite length_app. simpl.
  rewrite seq_app. simpl.
  rewrite zip_with_app; [done | by rewrite length_seq].
Qed.

Lemma enumerate_length {X} (xs : list X) : length (enumerate xs) = length xs.
Proof.
  unfold enumerate. rewrite length_zip_with, length_seq. lia.
Qed.

Lemma enumerate_lookup {X} (xs : list X) i x :
  enumerate xs !! i = Some x ↔ x.1 = i ∧ xs !! i = Some x.2.
Proof.
  unfold enumerate. destruct x as [j y]. simpl.
  rewrite lookup_zip_with_Some. split.
  - intros (a & b & Heq & Ha & Hb). simplify_eq.
    apply lookup_seq in Ha as [-> _]. done.
  - intros [-> H]. exists i, y. split_and!; [done| |done].
    apply lookup_seq. split; [done|]. by apply lookup_lt_Some in H.
Qed.

(** ** Strings *)

Lemma la_app a b : la (a +:+ b) = la a ++ la b.
Proof. induction a as [|c a IH]; simpl; [done|]. by rewrite <- IH. Qed.

Lemma la_of_list l : la (string_of_list_ascii l) = l.
Proof. apply list_ascii_of_string_of_list_ascii. Qed.

Lemma la_inj s1 s2 : la s1 = la s2 → s1 = s2.
Proof.
  intros H. rewrite <- (string_of_list_ascii_of_string s1),
    <- (string_of_list_ascii_of_string s2). by rewrite H.
Qed.

Lemma is_prefix_spec p s : is_prefix p s = true ↔ ∃ b, s = p ++ b.
Proof.
  revert s. induction p as [|c p IH]; intros s; simpl.
  - split; [intros _; by exists s | done].
  - destruct s as [|d s].
    + split; [done | intros [b Hb]; discriminate].
    + rewrite andb_true_iff, bool_decide_eq_true, IH. split.
      * intros [-> [b ->]]. by exists b.
      * intros [b Hb]. simplify_eq. split; [done | by exists b].
Qed.

Lemma occurs_spec p s : occurs p s = true ↔ ∃ a b, s = a ++ p ++ b.
Proof.
  induction s as [|d s IH].
  - simpl. rewrite orb_false_r, is_prefix_spec. split.
    + intros [b Hb]. by exists [], b.
    + intros (a & b & H). symmetry in H.
      apply app_eq_nil in H as [-> H]. apply app_eq_nil in H as [-> ->].
      by exists [].
  - cbn [occurs]. rewrite orb_true_iff, is_prefix_spec, IH. split.
    + intros [[b Hb]|(a & b & Hab)].
      * by exists [], b.
      * exists (d :: a), b. by rewrite Hab.
    + intros (a & b & H). destruct a as [|d' a]; simpl in H.
      * left. by exists b.
      * right. simplify_eq. by exists a, b.
Qed.

Lemma str_in_spec p s :
  str_in p s = true ↔ ∃ a b, la s = a ++ la p ++ b.
Proof. apply occurs_spec. Qed.

(** The first separator of a list is determined by the list. *)
Lemma split_at_first (P : ascii → Prop) x c y x' c' y' :
  Forall P x → Forall P x' → ¬ P c → ¬ P c' →
  x ++ c :: y = x' ++ c' :: y' → x = x' ∧ c = c' ∧ y = y'.
Proof.
  intros Hx. revert x'. induction Hx as [|a x Ha Hx IH];
    intros x' Hx' Hc Hc' Heq.
  - destruct Hx' as [|a' x' Ha' Hx']; simpl in *.
    + by simplify_eq.
    + simplify_eq. done.
  - destruct Hx' as [|a' x' Ha' Hx']; simpl in *.
    + simplify_eq. done.
    + simplify_eq. destruct (IH x' Hx' Hc Hc' H0) as (-> & -> & ->). done.
Qed.

Lemma first_sep_cases (c : ascii) (l : list ascii) :
  c ∉ l ∨ ∃ l1 l2, l = l1 ++ c :: l2 ∧ c ∉ l1.
Proof.
  induction l as [|a l IH].
  - left. apply not_elem_of_nil.
  - destruct (decide (a = c)) as [->|Hne].
    + right. exists [], l. split; [done | apply not_elem_of_nil].
    + destruct IH as [IH|(l1 & l2 & -> & H1)].
      * left. rewrite not_elem_of_cons. done.
      * right. exists (a :: l1), l2. split; [done|].
        rewrite not_elem_of_cons. done.
Qed.

(** In a word followed only by blanks, nothing but blanks follows a blank. *)
Lemma blank_then_blank (c : ascii) (w pad u v z : list ascii) (e : ascii) :
  c ∉ w → Forall (λ a, a = c) pad →
  w ++ pad = u ++ c :: v ++ e :: z → e = c.
Proof.
  intros Hw Hpad Heq.
  assert (Hi : (w ++ pad) !! length u = Some c).
  { rewrite Heq. by rewrite list_lookup_middle. }
  assert (length w ≤ length u) as Hle.
  { destruct (decide (length u < length w)) as [Hlt|]; [|lia].
    rewrite lookup_app_l in Hi by done.
    apply list_elem_of_lookup_2 in Hi. done. }
  assert (Hj : (w ++ pad) !! (length u + S (length v)) = Some e).
  { rewrite Heq. rewrite lookup_app_r by lia.
    replace (length u + S (length v) - length u) with (S (length v)) by lia.
    simpl. by rewrite list_lookup_middle. }
  rewrite lookup_app_r in Hj by lia.
  apply list_elem_of_lookup_2 in Hj.
  rewrite Forall_forall in Hpad. by apply Hpad.
Qed.

(** ** Decimal numerals *)

Lemma is_nat_digit_char d : d < 10 → Ascii.is_nat (digit_char d) = Some d.
Proof. intros H. do 10 (destruct d as [|d]; [done|]). lia. Qed.

Lemma digits_le_lt10 fuel n : Forall (λ d, d < 10) (digits_le fuel n).
Proof.
  revert n. induction fuel as [|fuel IH]; intros n; cbn [digits_le];
    [constructor|].
  destruct (Nat.ltb_spec n 10).
  - constructor; [done | constructor].
  - constructor; [|apply IH]. apply Nat.mod_upper_bound. lia.
Qed.

Lemma digits_le_val fuel n : n < fuel → val_le (digits_le fuel n) = n.
Proof.
  revert n. induction fuel as [|fuel IH]; intros n Hn; [lia|].
  cbn [digits_le]. destruct (Nat.ltb_spec n 10); cbn [val_le]; [lia|].
  rewrite IH.
  - pose proof (Nat.div_mod_eq n 10). lia.
  - assert (n / 10 < n) by (apply Nat.div_lt; lia). lia.
Qed.

Lemma digits_le_nonempty fuel n : digits_le (S fuel) n ≠ [].
Proof. cbn [digits_le]. by destruct (n <? 10). Qed.

Lemma val_le_app xs ys :
  val_le (xs ++ ys) = val_le xs + 10 ^ length xs * val_le ys.
Proof.
  induction xs as [|x xs IH]; simpl; [lia|]. rewrite IH. lia.
Qed.

Lemma la_str_of_nat n :
  la (str_of_nat n) = digit_char <$> rev (digits_le (S n) n).
Proof. unfold str_of_nat, digits. apply la_of_list. Qed.

Lemma str_of_nat_digits n :
  Forall (λ c, is_Some (Ascii.is_nat c)) (la (str_of_nat n)).
Proof.
  rewrite la_str_of_nat. apply Forall_fmap, Forall_rev.
  eapply Forall_impl; [apply digits_le_lt10|].
  intros d Hd. unfold compose. cbv beta in *.
  rewrite is_nat_digit_char by done. eauto.
Qed.

Lemma str_of_nat_nonempty n : la (str_of_nat n) ≠ [].
Proof.
  rewrite la_str_of_nat. intros H. apply fmap_nil_inv in H.
  apply (f_equal (@rev nat)) in H. rewrite rev_involutive in H.
  by apply digits_le_nonempty in H.
Qed.

Lemma int_fold_digits ds :
  Forall (λ d, d < 10) ds →
  foldl (λ acc c, a ← acc; d ← Ascii.is_nat c; Some (10 * a + d))
    (Some 0) (digit_char <$> rev ds) = Some (val_le ds).
Proof.
  induction 1 as [|d ds Hd Hds IH]; [done|].
  cbn [rev]. rewrite fmap_app, foldl_app, IH. cbn [fmap list_fmap foldl].
  rewrite is_nat_digit_char by done. cbn [mbind option_bind val_le].
  f_equal. lia.
Qed.

Lemma int_str_of_nat n : int (str_of_nat n) = Some n.
Proof.
  unfold int. pose proof (str_of_nat_nonempty n) as Hne.
  destruct (str_of_nat n) as [|c s] eqn:E; [done|].
  rewrite <- E, la_str_of_nat, int_fold_digits by apply digits_le_lt10.
  rewrite digits_le_val; [done | lia].
Qed.

Lemma str_of_nat_inj n m : str_of_nat n = str_of_nat m → n = m.
Proof.
  intros H. pose proof (int_str_of_nat n) as Hn.
  rewrite H, int_str_of_nat in Hn. congruence.
Qed.

Lemma digit_char_fmap_inj xs ys :
  Forall (λ d, d < 10) xs → Forall (λ d, d < 10) ys →
  digit_char <$> xs = digit_char <$> ys → xs = ys.
Proof.
  intros Hx. revert ys. induction Hx as [|x xs Hx Hxs IH];
    intros ys Hy Heq; destruct Hy as [|y ys Hy Hys]; simplify_eq/=; [done|].
  f_equal; [|by apply IH].
  apply (f_equal Ascii.is_nat) in H.
  rewrite !is_nat_digit_char in H by done. congruence.
Qed.

(** A numeral that ends another numeral is not larger. *)
Lemma str_of_nat_suffix_le a b :
  la (str_of_nat a) `suffix_of` la (str_of_nat b) → a ≤ b.
Proof.
  intros [k Hk]. rewrite !la_str_of_nat in Hk.
  apply fmap_app_inv in Hk as (k1 & k2 & _ & Hk1 & Hk2).
  assert (Forall (λ d, d < 10) k2) as H2.
  { assert (Forall (λ d, d < 10) (rev (digits_le (S b) b))) as Hb
      by apply Forall_rev, digits_le_lt10.
    rewrite Hk2 in Hb. by apply Forall_app in Hb as [_ ?]. }
  apply digit_char_fmap_inj in Hk1;
    [|apply Forall_rev, digits_le_lt10|done].
  subst k2. apply (f_equal (@rev nat)) in Hk2.
  rewrite rev_involutive, rev_app_distr, rev_involutive in Hk2.
  apply (f_equal val_le) in Hk2.
  rewrite val_le_app, !digits_le_val in Hk2 by lia. lia.
Qed.

Lemma but_last_snoc s c : but_last (s +:+ String c "") = s.
Proof.
  unfold but_last. rewrite la_app. simpl.
  rewrite removelast_last. apply string_of_list_ascii_of_string.
Qed.

Lemma last_char_snoc s c : last_char (s +:+ String c "") = Some c.
Proof. unfold last_char. rewrite la_app. simpl. apply last_snoc. Qed.

End PyFacts.

(** * The constructor on a molecule of the engine *)

Module LabelFacts.
Import Py Np Pyscf BasisPadder Spec PyFacts.

Ltac norm_app :=
  repeat (progress (rewrite <- ?app_assoc; cbn [app])).

Lemma blank_not_digit : Ascii.is_nat blank = None.
Proof. done. Qed.

Lemma digits_nospace n : blank ∉ la (str_of_nat n).
Proof.
  intros H. pose proof (str_of_nat_digits n) as Hd.
  rewrite Forall_forall in Hd. destruct (Hd _ H) as [? Hx]. done.
Qed.

Lemma l_dict_inv_not_digit l : ¬ is_Some (Ascii.is_nat (l_dict_inv l)).
Proof. do 8 (destruct l as [|l]; [by intros [? ?]|]). by intros [? ?]. Qed.

Lemma l_dict_inv_not_blank l : l_dict_inv l ≠ blank.
Proof. by do 8 (destruct l as [|l]; [done|]). Qed.

Lemma ANGULAR_l_dict_inv l : l ≤ 6 → ANGULAR l = l_dict_inv l.
Proof. intros H. do 7 (destruct l as [|l]; [done|]). lia. Qed.

Lemma l_dict_inv_inj l l' : l ≤ 7 → l' ≤ 7 → l_dict_inv l = l_dict_inv l' → l = l'.
Proof.
  intros H H'.
  do 8 (destruct l as [|l]; [do 8 (destruct l' as [|l']; [done|]); lia|]).
  lia.
Qed.

Lemma l_dict_ANGULAR l : l ≤ 6 → l_dict (ANGULAR l) = Some l.
Proof. intros H. do 7 (destruct l as [|l]; [done|]). lia. Qed.

Lemma la_pattern idx sym n l :
  la (pattern idx sym n l) =
  la (str_of_nat idx) ++ blank :: la sym ++ blank :: la (str_of_nat n)
    ++ [l_dict_inv l].
Proof. unfold pattern. by rewrite !la_app. Qed.

Lemma la_fmt_label ia symb n l m :
  la (fmt_label (ia, symb, str_of_nat n +:+ String (ANGULAR l) "", m)) =
  la (str_of_nat ia) ++ blank :: la symb ++ blank :: la (str_of_nat n)
    ++ ANGULAR l :: la m ++ replicate (4 - String.length m) blank.
Proof.
  unfold fmt_label, ljust4. rewrite !la_app, la_of_list.
  cbn [list_ascii_of_string]. by norm_app.
Qed.

(** When the pattern of [(idx, sym, n, l)] occurs in a rendered label. *)
Lemma hit_iff idx sym n l ia symb n' l' m :
  nospace sym → nospace symb → nospace m → l ≤ 6 → l' ≤ 6 →
  str_in (pattern idx sym n l)
    (fmt_label (ia, symb, str_of_nat n' +:+ String (ANGULAR l') "", m)) = true
  ↔ symb = sym ∧ n' = n ∧ l' = l ∧
    la (str_of_nat idx) `suffix_of` la (str_of_nat ia).
Proof.
  intros Hsym Hsymb Hm Hl Hl'. unfold nospace in *.
  rewrite str_in_spec, la_pattern, la_fmt_label, (ANGULAR_l_dict_inv l') by done.
  set (Dia := la (str_of_nat ia)). set (Didx := la (str_of_nat idx)).
  set (Dn := la (str_of_nat n)). set (Dn' := la (str_of_nat n')).
  set (pad := replicate _ blank).
  assert (Hpad : Forall (λ c, c = blank) pad).
  { apply Forall_forall. intros c Hc.
    by apply elem_of_replicate in Hc as [-> _]. }
  assert (HDia : blank ∉ Dia) by apply digits_nospace.
  assert (HDidx : blank ∉ Didx) by apply digits_nospace.
  assert (HDn : blank ∉ Dn) by apply digits_nospace.
  assert (HDn' : blank ∉ Dn') by apply digits_nospace.
  assert (Hw : blank ∉ Dn' ++ l_dict_inv l' :: la m).
  { rewrite elem_of_app, elem_of_cons.
    pose proof (l_dict_inv_not_blank l'). naive_solver. }
  assert (Hns : ∀ x, blank ∉ x → Forall (λ c, c ≠ blank) x).
  { intros x Hx. apply Forall_forall. intros c Hc ->. done. }
  split.
  - intros (a & b & Heq).
    destruct (first_sep_cases blank a) as [Ha|(a1 & a2 & -> & Ha1)].
    + assert (Dia ++ blank :: (la symb ++ blank :: Dn' ++ l_dict_inv l' :: la m ++ pad)
              = (a ++ Didx) ++ blank :: (la sym ++ blank :: Dn ++ l_dict_inv l :: b)) as E.
      { revert Heq. by norm_app. }
      apply (split_at_first (λ c, c ≠ blank)) in E as (E1 & _ & E2);
        [|apply Hns; done|apply Hns; rewrite elem_of_app; naive_solver
         |naive_solver..].
      apply (split_at_first (λ c, c ≠ blank)) in E2 as (E2 & _ & E3);
        [|apply Hns; done|apply Hns; done|naive_solver..].
      apply (split_at_first (λ c, is_Some (Ascii.is_nat c))) in E3
        as (E3 & E4 & _);
        [|apply str_of_nat_digits|apply str_of_nat_digits
         |apply l_dict_inv_not_digit..].
      split_and!.
      * by apply la_inj.
      * by apply str_of_nat_inj, la_inj.
      * apply l_dict_inv_inj; [lia..|done].
      * by exists a.
    + exfalso.
      assert (Dia ++ blank :: (la symb ++ blank :: (Dn' ++ l_dict_inv l' :: la m) ++ pad)
              = a1 ++ blank :: (a2 ++ (Didx ++ blank :: la sym ++ blank :: Dn ++ [l_dict_inv l]) ++ b)) as E.
      { revert Heq. by norm_app. }
      apply (split_at_first (λ c, c ≠ blank)) in E as (_ & _ & E2);
        [|apply Hns; done|apply Hns; done|naive_solver..].
      destruct (first_sep_cases blank a2) as [Ha2|(a3 & a4 & -> & Ha3)].
      * assert (la symb ++ blank :: (Dn' ++ l_dict_inv l' :: la m) ++ pad
                = (a2 ++ Didx) ++ blank :: (la sym ++ blank :: Dn ++ l_dict_inv l :: b)) as E.
        { revert E2. by norm_app. }
        apply (split_at_first (λ c, c ≠ blank)) in E as (_ & _ & E3);
          [|apply Hns; done|apply Hns; rewrite elem_of_app; naive_solver
           |naive_solver..].
        apply (blank_then_blank blank _ _ (la sym) Dn b) in E3; [|done..].
        by apply l_dict_inv_not_blank in E3.
      * assert (la symb ++ blank :: (Dn' ++ l_dict_inv l' :: la m) ++ pad
                = a3 ++ blank :: (a4 ++ Didx ++ blank :: la sym ++ blank :: Dn ++ l_dict_inv l :: b)) as E.
        { revert E2. by norm_app. }
        apply (split_at_first (λ c, c ≠ blank)) in E as (_ & _ & E3);
          [|apply Hns; done|apply Hns; done|naive_solver..].
        assert ((Dn' ++ l_dict_inv l' :: la m) ++ pad
                = (a4 ++ Didx) ++ blank :: (la sym ++ blank :: Dn) ++ l_dict_inv l :: b) as E.
        { revert E3. by norm_app. }
        apply blank_then_blank in E; [|done..].
        by apply l_dict_inv_not_blank in E.
  - intros (-> & -> & -> & [k Hk]).
    exists k, (la m ++ pad). fold Dia. rewrite Hk.
    by norm_app.
Qed.

End LabelFacts.

Module InitFacts.
Import Py Np Pyscf BasisPadder Spec PyFacts LabelFacts.

Lemma first_true_app bs1 bs2 :
  first_true (bs1 ++ bs2) =
  match first_true bs1 with
  | Some i => Some i
  | None => (λ i, length bs1 + i) <$> first_true bs2
  end.
Proof.
  induction bs1 as [|b bs1 IH]; cbn [app first_true length].
  - by destruct (first_true bs2).
  - destruct b; [done|]. rewrite IH.
    destruct (first_true bs1); [done|]. by destruct (first_true bs2).
Qed.

Lemma first_true_none bs : Forall (λ b, b = false) bs → first_true bs = None.
Proof.
  induction 1 as [|b bs -> _ IH]; [done|]. cbn [first_true]. by rewrite IH.
Qed.

Lemma bind_length_sum {X Y} (f : X → list Y) (l : list X) :
  length (l ≫= f) = sum_list ((λ x, length (f x)) <$> l).
Proof.
  induction l as [|x l IH]; [done|].
  rewrite bind_cons, length_app, IH. done.
Qed.

Lemma bind_ext_in {X Y} (f g : X → list Y) (l : list X) :
  (∀ x, x ∈ l → f x = g x) → l ≫= f = l ≫= g.
Proof.
  induction l as [|x l IH]; intros H; [done|].
  rewrite !bind_cons, H, IH; [done| |by left].
  intros y Hy. apply H. by right.
Qed.

Lemma foldl_ext_in {X S} (f g : S → X → S) (l : list X) s :
  (∀ x acc, x ∈ l → f acc x = g acc x) → foldl f s l = foldl g s l.
Proof.
  revert s. induction l as [|x l IH]; intros s H; [done|].
  cbn [foldl]. rewrite H by (by left). apply IH.
  intros y acc Hy. apply H. by right.
Qed.

Lemma foldl_pair_app {X Y Z} (f : X → list Y) (g : X → list Z) l a1 a2 :
  foldl (λ acc x, (acc.1 ++ f x, acc.2 ++ g x)) (a1, a2) l
  = (a1 ++ l ≫= f, a2 ++ l ≫= g).
Proof.
  revert a1 a2. induction l as [|x l IH]; intros a1 a2.
  - csimpl. by rewrite !app_nil_r.
  - cbn [foldl fst snd]. rewrite IH, !bind_cons, !app_assoc. done.
Qed.

Lemma enumerate_app {X} (xs ys : list X) :
  enumerate (xs ++ ys) = enumerate xs ++ zip (seq (length xs) (length ys)) ys.
Proof.
  unfold enumerate. rewrite length_app, seq_app.
  rewrite zip_with_app; [done | by rewrite length_seq].
Qed.

Lemma elem_of_enumerate {X} (xs : list X) (x : nat * X) :
  x ∈ enumerate xs ↔ xs !! x.1 = Some x.2.
Proof.
  rewrite list_elem_of_lookup. split.
  - intros [i Hi]. apply enumerate_lookup in Hi as [<- ?]. done.
  - intros H. exists x.1. by apply enumerate_lookup.
Qed.

(** ** Blocks *)

Lemma blocks_lookup off ws a s0 s1 :
  blocks off ws !! a = Some (s0, s1) ↔
  ∃ w, ws !! a = Some w ∧ s0 = off + sum_list (take a ws) ∧ s1 = s0 + w.
Proof.
  revert off a. induction ws as [|w ws IH]; intros off a.
  - cbn [blocks]. rewrite lookup_nil. split; [done|]. by intros (? & ? & _).
  - destruct a as [|a]; cbn [blocks lookup list_lookup take sum_list].
    + split.
      * intros [= <- <-]. exists w. split; [done|]. lia.
      * intros (w' & [= <-] & -> & ->). do 2 f_equal; lia.
    + change (blocks (off + w) ws !! a = Some (s0, s1) ↔ ∃ w0 : nat,
        ws !! a = Some w0 ∧ s0 = off + (w + sum_list (take a ws))
        ∧ s1 = s0 + w0).
      rewrite IH. split; intros (w' & ? & ? & ?); exists w';
        split_and!; try done; lia.
Qed.

Lemma blocks_length off ws : length (blocks off ws) = length ws.
Proof.
  revert off. induction ws as [|w ws IH]; intros off; [done|].
  cbn [blocks length]. by rewrite IH.
Qed.

Lemma sum_list_take_le (ws : list nat) a w :
  ws !! a = Some w → sum_list (take a ws) + w ≤ sum_list ws.
Proof.
  revert a. induction ws as [|w0 ws IH]; intros a H; [done|].
  destruct a as [|a]; simpl in *.
  - injection H as ->. lia.
  - apply IH in H. lia.
Qed.

Lemma sum_list_take_mono (ws : list nat) a a' w :
  a < a' → ws !! a = Some w →
  sum_list (take a ws) + w ≤ sum_list (take a' ws).
Proof.
  intros Hlt H.
  assert (take a' ws !! a = Some w) as H' by by rewrite lookup_take_lt.
  apply sum_list_take_le in H'.
  rewrite take_take in H'. by replace (a `min` a') with a in H' by lia.
Qed.

End InitFacts.

Module ModelFacts.
Import Py Np Pyscf BasisPadder Spec PyFacts LabelFacts InitFacts.

Section model.
Variable basis : string → list (nat * nat).
Variable mname : nat → nat → string.

Abbreviation lab := (λ x : nat * string, atom_labels basis mname x.1 x.2).
Abbreviation hit idx sym n l :=
  (λ x, str_in (pattern idx sym n l) (fmt_label x)).

Lemma shell_labels_length ia s nl :
  length (shell_labels mname ia s nl) = 2 * nl.2 + 1.
Proof. unfold shell_labels. by rewrite length_fmap, length_seq. Qed.

Lemma atom_labels_length ia s :
  length (atom_labels basis mname ia s) = nao_atom basis s.
Proof.
  unfold atom_labels, nao_atom. rewrite bind_length_sum. f_equal.
  apply list_fmap_ext. intros _ nl _. apply shell_labels_length.
Qed.

Lemma slices_blocks off atoms :
  slices basis off atoms = blocks off (nao_atom basis <$> atoms).
Proof.
  revert off. induction atoms as [|s atoms IH]; intros off; [done|].
  cbn [slices blocks fmap list_fmap]. by rewrite IH.
Qed.

Lemma zip_bind_length i0 (l : list string) :
  length (zip (seq i0 (length l)) l ≫= lab) = sum_list (nao_atom basis <$> l).
Proof.
  revert i0. induction l as [|s l IH]; intros i0; [done|].
  cbn [length seq zip_with]. rewrite bind_cons, length_app, IH.
  cbn [fst snd]. by rewrite atom_labels_length.
Qed.

Lemma hit_shell idx sym n l ia symb nl x :
  (∀ l m, nospace (mname l m)) →
  nospace sym → nospace symb → l ≤ 6 → nl.2 ≤ 6 →
  x ∈ shell_labels mname ia symb nl →
  hit idx sym n l x = true ↔
  symb = sym ∧ nl = (n, l) ∧
  list_ascii_of_string (str_of_nat idx)
    `suffix_of` list_ascii_of_string (str_of_nat ia).
Proof.
  intros Hm Hsym Hsymb Hl Hnl Hx. unfold shell_labels in Hx.
  apply list_elem_of_fmap in Hx as (m & -> & _).
  destruct nl as [n' l']. cbn [fst snd] in *.
  rewrite hit_iff by done. split.
  - intros (-> & -> & -> & ?). done.
  - intros (-> & [= -> ->] & ?). done.
Qed.

Lemma first_hit_block a s B n l :
  (∀ l m, nospace (mname l m)) →
  nospace s → (∀ nl, nl ∈ B → nl.2 ≤ 6) → l ≤ 6 →
  first_true (hit a s n l <$> (B ≫= shell_labels mname a s))
  = if decide ((n, l) ∈ B) then Some (shoff B (n, l)) else None.
Proof.
  intros Hm Hs HB Hl. induction B as [|b B IH].
  - done.
  - rewrite bind_cons, fmap_app, first_true_app. cbn [shoff].
    destruct (decide (b = (n, l))) as [->|Hne].
    + rewrite decide_True by by left.
      unfold shell_labels. cbn [snd fst].
      replace (2 * l + 1) with (S (2 * l)) by lia.
      cbn [seq fmap list_fmap first_true].
      rewrite (proj2 (hit_iff a s n l a s n l (mname l 0) Hs Hs (Hm _ _) Hl Hl));
        done.
    + rewrite first_true_none.
      2:{ apply Forall_fmap, Forall_forall. intros x Hx. cbn.
          destruct (str_in _ _) eqn:E; [|done].
          assert (b.2 ≤ 6) as Hb by (apply HB; by left).
          by destruct (proj1 (hit_shell a s n l a s b x Hm Hs Hs Hl Hb Hx) E)
            as (_ & ? & _). }
      rewrite IH by (intros; apply HB; by right).
      rewrite length_fmap, shell_labels_length.
      destruct (decide ((n, l) ∈ B)) as [Hin|Hin].
      * rewrite decide_True by by right. done.
      * rewrite decide_False; [done|]. rewrite elem_of_cons. naive_solver.
Qed.

Lemma raw_labels_elem atoms x :
  x ∈ ao_labels_raw (M basis mname atoms) →
  ∃ ia S nl, atoms !! ia = Some S ∧ nl ∈ basis S ∧
             x ∈ shell_labels mname ia S nl.
Proof.
  cbn [M ao_labels_raw]. intros (y & Hx & Hy)%list_elem_of_bind.
  apply elem_of_enumerate in Hy. unfold atom_labels in Hx.
  apply list_elem_of_bind in Hx as (nl & Hx & Hnl).
  by exists y.1, y.2, nl.
Qed.

Lemma raw_labels_split atoms a s :
  atoms !! a = Some s →
  ∃ rest, ao_labels_raw (M basis mname atoms)
          = (enumerate (take a atoms) ≫= lab)
            ++ atom_labels basis mname a s ++ rest.
Proof.
  intros H. cbn [M ao_labels_raw].
  assert (enumerate atoms
          = enumerate (take a atoms ++ s :: drop (S a) atoms)) as ->
    by (by rewrite take_drop_middle).
  rewrite enumerate_app, bind_app. cbn [length seq zip_with].
  rewrite bind_cons. cbn [fst snd].
  rewrite length_take_le by (apply lookup_lt_Some in H; lia).
  eexists. done.
Qed.

Lemma first_hit atoms a s n l :
  licit basis mname atoms → atoms !! a = Some s → l ≤ 6 →
  first_true (str_in (pattern a s n l) <$> ao_labels (M basis mname atoms))
  = if decide ((n, l) ∈ basis s)
    then Some (sum_list (nao_atom basis <$> take a atoms)
               + shoff (basis s) (n, l))
    else None.
Proof.
  intros [Hsym Hm Hne Hnd Hrg] Ha Hl. unfold ao_labels.
  rewrite <- list_fmap_compose.
  assert (Hs : s ∈ atoms) by by eapply list_elem_of_lookup_2.
  destruct (decide ((n, l) ∈ basis s)) as [Hin|Hin].
  - destruct (raw_labels_split atoms a s Ha) as [rest ->].
    rewrite !fmap_app, first_true_app, first_true_none.
    2:{ apply Forall_fmap, Forall_forall. intros x Hx. cbn.
        destruct (str_in _ _) eqn:E; [|done]. exfalso.
        apply (raw_labels_elem (take a atoms)) in Hx
          as (ia & S & nl & Hia & Hnl & Hx).
        apply lookup_take_Some in Hia as [Hia Hlt].
        assert (S ∈ atoms) by by eapply list_elem_of_lookup_2.
        assert (nl.2 ≤ 6) as Hb by by eapply Hrg.
        destruct (proj1 (hit_shell a s n l ia S nl x Hm (Hsym s Hs)
                           (Hsym S H) Hl Hb Hx) E) as (_ & _ & Hsuf).
        apply str_of_nat_suffix_le in Hsuf. lia. }
    rewrite first_true_app.
    pose proof (first_hit_block a s (basis s) n l Hm (Hsym s Hs)
                  ltac:(naive_solver) Hl) as Hb.
    rewrite decide_True in Hb by done.
    unfold atom_labels, compose. rewrite Hb.
    cbn [fmap option_fmap option_map].
    rewrite length_fmap. unfold enumerate. by rewrite zip_bind_length.
  - rewrite first_true_none; [done|].
    apply Forall_fmap, Forall_forall. intros x Hx. cbn.
    destruct (str_in _ _) eqn:E; [|done]. exfalso.
    apply raw_labels_elem in Hx as (ia & S & nl & Hia & Hnl & Hx).
    assert (S ∈ atoms) by by eapply list_elem_of_lookup_2.
    assert (nl.2 ≤ 6) as Hb by by eapply Hrg.
    destruct (proj1 (hit_shell a s n l ia S nl x Hm (Hsym s Hs)
                       (Hsym S H) Hl Hb Hx) E) as (-> & -> & _).
    done.
Qed.

(** ** The [(n, l)] grid *)

Lemma elem_of_nl_range N L nl :
  nl ∈ nl_range N L ↔ 1 ≤ nl.1 ≤ N ∧ nl.2 ≤ L.
Proof.
  unfold nl_range. rewrite list_elem_of_bind. split.
  - intros (n & (l & Hnl & Hl)%list_elem_of_bind & Hn).
    apply list_elem_of_singleton in Hnl as ->.
    apply elem_of_seq in Hn, Hl. cbn. lia.
  - intros [Hn Hl]. exists nl.1. split.
    + apply list_elem_of_bind. exists nl.2. split.
      * destruct nl. apply list_elem_of_singleton. done.
      * apply elem_of_seq. lia.
    + apply elem_of_seq. lia.
Qed.

Lemma NoDup_nl_range N L : NoDup (nl_range N L).
Proof.
  unfold nl_range. apply NoDup_bind; [| |apply NoDup_seq].
  - intros n1 n2 y _ _ (l1 & Hy1 & _)%list_elem_of_bind
      (l2 & Hy2 & _)%list_elem_of_bind.
    apply list_elem_of_singleton in Hy1, Hy2. congruence.
  - intros n _. apply NoDup_bind; [| |apply NoDup_seq].
    + intros l1 l2 y _ _ Hy1 Hy2.
      apply list_elem_of_singleton in Hy1, Hy2. congruence.
    + intros. apply NoDup_singleton.
Qed.

Lemma sum_odd L : sum_list ((λ l, 2 * l + 1) <$> seq 0 (L + 1)) = (L + 1) ^ 2.
Proof.
  induction L as [|L IH]; [done|].
  replace (S L + 1) with (S (L + 1)) by lia.
  rewrite seq_S, fmap_app, sum_list_with_app, IH. simpl. lia.
Qed.

Lemma row_widths (i : nat) (ls : list nat) :
  (λ nl : nat * nat, 2 * nl.2 + 1) <$> (ls ≫= λ l, [(i, l)])
  = (λ l, 2 * l + 1) <$> ls.
Proof.
  induction ls as [|l ls IH]; [done|].
  rewrite bind_cons, fmap_app, IH. done.
Qed.

Lemma nl_grid_width i N L :
  sum_list ((λ nl : nat * nat, 2 * nl.2 + 1) <$>
              (seq i N ≫= λ n, seq 0 (L + 1) ≫= λ l, [(n, l)]))
  = N * (L + 1) ^ 2.
Proof.
  revert i. induction N as [|N IH]; intros i; [done|].
  cbn [seq]. rewrite bind_cons, fmap_app, sum_list_with_app, IH.
  rewrite row_widths, sum_odd. lia.
Qed.

Lemma nl_range_width N L :
  sum_list ((λ nl : nat * nat, 2 * nl.2 + 1) <$> nl_range N L)
  = N * (L + 1) ^ 2.
Proof. apply nl_grid_width. Qed.

(** ** The index lists of one atom *)

Lemma index_atom_spec atoms a s N L :
  licit basis mname atoms → atoms !! a = Some s → L ≤ 6 →
  index_atom (ao_labels (M basis mname atoms)) s N L a
  = (mask_row (basis s) N L,
     rs_row (basis s) (sum_list (nao_atom basis <$> take a atoms)) N L).
Proof.
  intros Hlic Ha HL. unfold index_atom, mask_row, rs_row.
  rewrite (foldl_ext_in _ (λ acc nl,
     (acc.1 ++ replicate (2 * nl.2 + 1) (bool_decide (nl ∈ basis s)),
      acc.2 ++ if decide (nl ∈ basis s)
               then seq (sum_list (nao_atom basis <$> take a atoms)
                         + shoff (basis s) nl) (2 * nl.2 + 1)
               else []))).
  - by rewrite foldl_pair_app.
  - intros [n l] acc Hnl. apply elem_of_nl_range in Hnl as [_ Hl].
    cbn [fst snd] in *. unfold index_shell. cbn [fst snd].
    rewrite first_hit by (done || lia).
    destruct (decide ((n, l) ∈ basis s)).
    + by rewrite bool_decide_eq_true_2.
    + rewrite bool_decide_eq_false_2 by done. by rewrite app_nil_r.
Qed.

Lemma mask_row_length B N L : length (mask_row B N L) = N * (L + 1) ^ 2.
Proof.
  unfold mask_row. rewrite bind_length_sum, <- nl_range_width. f_equal.
  apply list_fmap_ext. intros _ nl _. by rewrite length_replicate.
Qed.

Lemma count_true_app m1 m2 :
  count_true (m1 ++ m2) = count_true m1 + count_true m2.
Proof. unfold count_true. by rewrite filter_app, length_app. Qed.

Lemma count_true_replicate k b :
  count_true (replicate k b) = if b then k else 0.
Proof.
  unfold count_true. induction k as [|k IH]; [by destruct b|].
  cbn [replicate]. destruct b.
  - rewrite filter_cons_True by done. cbn [length]. by rewrite IH.
  - rewrite filter_cons_False by done. done.
Qed.

Lemma mask_rs_count B off N L :
  count_true (mask_row B N L) = length (rs_row B off N L).
Proof.
  unfold mask_row, rs_row. induction (nl_range N L) as [|nl l IH]; [done|].
  rewrite !bind_cons, count_true_app, length_app, IH, count_true_replicate.
  destruct (decide (nl ∈ B)).
  - rewrite bool_decide_eq_true_2 by done. by rewrite length_seq.
  - rewrite bool_decide_eq_false_2 by done. done.
Qed.

Lemma shells_tile (B : list (nat * nat)) off :
  NoDup B →
  B ≫= (λ nl, seq (off + shoff B nl) (2 * nl.2 + 1))
  = seq off (sum_list ((λ nl : nat * nat, 2 * nl.2 + 1) <$> B)).
Proof.
  intros Hnd. revert off. induction Hnd as [|b B Hb Hnd IH]; intros off; [done|].
  rewrite bind_cons. cbn [shoff]. rewrite decide_True by done.
  rewrite (bind_ext_in _ (λ nl, seq ((off + (2 * b.2 + 1)) + shoff B nl)
                                   (2 * nl.2 + 1))).
  - rewrite IH, fmap_cons.
    assert (∀ (x : nat) l, sum_list (x :: l) = x + sum_list l) as Hc by done.
    by rewrite Hc, Nat.add_0_r, (seq_app (2 * b.2 + 1)).
  - intros nl Hnl. rewrite decide_False by (intros ->; done).
    f_equal. lia.
Qed.

Lemma rs_row_perm B off N L :
  NoDup B → (∀ nl, nl ∈ B → 1 ≤ nl.1 ≤ N ∧ nl.2 ≤ L) →
  rs_row B off N L
  ≡ₚ seq off (sum_list ((λ nl : nat * nat, 2 * nl.2 + 1) <$> B)).
Proof.
  intros Hnd Hin. rewrite <- shells_tile by done. unfold rs_row.
  assert (nl_range N L ≫= (λ nl,
            if decide (nl ∈ B) then seq (off + shoff B nl) (2 * nl.2 + 1)
            else [])
          = filter (λ nl, nl ∈ B) (nl_range N L)
              ≫= λ nl, seq (off + shoff B nl) (2 * nl.2 + 1)) as ->.
  { induction (nl_range N L) as [|nl l IH]; [done|].
    rewrite bind_cons, IH. destruct (decide (nl ∈ B)).
    - by rewrite filter_cons_True, bind_cons.
    - by rewrite filter_cons_False. }
  apply bind_Permutation. apply NoDup_Permutation.
  - apply NoDup_filter, NoDup_nl_range.
  - done.
  - intros nl. rewrite list_elem_of_filter, elem_of_nl_range. naive_solver.
Qed.

End model.
End ModelFacts.

Module CtorFacts.
Import Py Np Pyscf BasisPadder Spec PyFacts LabelFacts InitFacts ModelFacts.

(** ** Atoms per species *)

Lemma atoms_of_snoc s atoms x :
  atoms_of s (atoms ++ [x])
  = atoms_of s atoms ++ (if decide (x = s) then [length atoms] else []).
Proof.
  unfold atoms_of. rewrite enumerate_snoc, filter_app, fmap_app. f_equal.
  destruct (decide (x = s)).
  - by rewrite filter_cons_True.
  - by rewrite filter_cons_False.
Qed.

Lemma elem_atoms_of s atoms i : i ∈ atoms_of s atoms ↔ atoms !! i = Some s.
Proof.
  unfold atoms_of. rewrite list_elem_of_fmap. split.
  - intros ([j y] & -> & H). apply list_elem_of_filter in H as [Hy H].
    apply elem_of_enumerate in H. cbn in *. by subst.
  - intros H. exists (i, s). split; [done|].
    apply list_elem_of_filter. split; [done|]. by apply elem_of_enumerate.
Qed.

Lemma atoms_of_nil s atoms : s ∉ atoms → atoms_of s atoms = [].
Proof.
  intros H. destruct (atoms_of s atoms) as [|i l] eqn:E; [done|].
  assert (i ∈ atoms_of s atoms) as Hi by (rewrite E; by left).
  apply elem_atoms_of, list_elem_of_lookup_2 in Hi. done.
Qed.

Lemma atoms_of_rank atoms a s :
  atoms !! a = Some s → atoms_of s atoms !! rank atoms a s = Some a.
Proof.
  intros H. unfold rank.
  assert (atoms_of s atoms
          = atoms_of s (take a atoms ++ s :: drop (S a) atoms)) as ->
    by (by rewrite take_drop_middle).
  unfold atoms_of. rewrite enumerate_app. cbn [length seq zip_with].
  rewrite filter_app, filter_cons_True by done.
  rewrite fmap_app, fmap_cons. cbn [fst].
  rewrite length_take_le by (apply lookup_lt_Some in H; lia).
  by rewrite list_lookup_middle.
Qed.

Lemma rank_atoms_of atoms s k a :
  atoms_of s atoms !! k = Some a → atoms !! a = Some s ∧ rank atoms a s = k.
Proof.
  intros H. split; [by eapply elem_atoms_of, list_elem_of_lookup_2|].
  revert k H. induction atoms as [|x atoms IH] using rev_ind; intros k H.
  - apply list_elem_of_lookup_2, elem_atoms_of in H.
    by rewrite lookup_nil in H.
  - rewrite atoms_of_snoc in H. unfold rank.
    destruct (decide (k < length (atoms_of s atoms))) as [Hlt|Hge].
    + rewrite lookup_app_l in H by done.
      assert (a < length atoms) as Ha.
      { eapply lookup_lt_Some, elem_atoms_of, list_elem_of_lookup_2, H. }
      rewrite take_app_le by lia. by apply IH.
    + rewrite lookup_app_r in H by lia.
      destruct (decide (x = s)) as [->|]; [|by rewrite lookup_nil in H].
      apply list_lookup_singleton_Some in H as [Hk <-].
      rewrite take_app_length. lia.
Qed.

Lemma rank_lt atoms a s :
  atoms !! a = Some s → rank atoms a s < length (atoms_of s atoms).
Proof. intros H. eapply lookup_lt_Some, atoms_of_rank, H. Qed.

Lemma rank_snoc_same atoms a s :
  atoms !! a = Some s →
  rank atoms (S a) s = S (rank atoms a s).
Proof.
  intros H. unfold rank. rewrite (take_S_r _ _ _ H), atoms_of_snoc.
  rewrite decide_True by done. rewrite length_app. cbn. lia.
Qed.

Lemma rank_snoc_other atoms a s s' :
  atoms !! a = Some s' → s' ≠ s → rank atoms (S a) s = rank atoms a s.
Proof.
  intros H Hne. unfold rank. rewrite (take_S_r _ _ _ H), atoms_of_snoc.
  rewrite decide_False by done. by rewrite app_nil_r.
Qed.

Lemma rank_full atoms s : rank atoms (length atoms) s = length (atoms_of s atoms).
Proof. unfold rank. by rewrite firstn_all. Qed.

Lemma rank_mono atoms a a' s :
  a < a' → atoms !! a = Some s → rank atoms a s < rank atoms a' s.
Proof.
  intros Hlt H. induction Hlt as [|a' Hle IH].
  - rewrite (rank_snoc_same _ _ _ H). lia.
  - destruct (atoms !! a') as [s'|] eqn:E.
    + destruct (decide (s' = s)) as [->|Hne].
      * rewrite (rank_snoc_same _ _ _ E). lia.
      * by rewrite (rank_snoc_other _ _ _ _ E Hne).
    + apply lookup_ge_None in E. unfold rank in *.
      rewrite (take_ge atoms (S a')) by lia.
      rewrite (take_ge atoms a') in IH by lia. done.
Qed.

(** ** First loop of the constructor *)

Lemma count_atoms_spec atoms :
  let st := foldl count_atom ([], []) (enumerate atoms) in
  ∀ s,
    get st.1 s = (if decide (s ∈ atoms)
                  then Some (length (atoms_of s atoms)) else None) ∧
    get st.2 s = (if decide (s ∈ atoms)
                  then Some (atoms_of s atoms) else None).
Proof.
  induction atoms as [|x atoms IH] using rev_ind.
  - cbn. intros s. split; done.
  - cbn zeta in *. intros s. rewrite enumerate_snoc, foldl_app. cbn [foldl].
    set (st := foldl count_atom ([], []) (enumerate atoms)) in *.
    unfold count_atom. rewrite atoms_of_snoc.
    destruct (IH x) as [Hx1 Hx2]. destruct (IH s) as [Hs1 Hs2].
    unfold mem.
    destruct (decide (x = s)) as [->|Hne].
    + rewrite !(decide_True (P := s ∈ atoms ++ [s]))
        by (apply elem_of_app; right; by left).
      destruct (decide (s ∈ atoms)) as [Hin|Hin].
      * rewrite Hs1. cbn [fst snd]. rewrite !get_set_eq, Hs1, Hs2.
        cbn [default]. rewrite length_app. cbn [length].
        split; [f_equal; lia | done].
      * rewrite Hs1. cbn [fst snd]. rewrite !get_set_eq.
        rewrite atoms_of_nil by done. done.
    + rewrite app_nil_r.
      assert (∀ st0 : dict nat * dict (list nat),
                get st0.1 s = get st.1 s → get st0.2 s = get st.2 s →
                get (set st0.1 x (default 0 (get st0.1 x) + 1),
                     set st0.2 x (default [] (get st0.2 x) ++ [length atoms])).1 s
                = get st.1 s ∧
                get (set st0.1 x (default 0 (get st0.1 x) + 1),
                     set st0.2 x (default [] (get st0.2 x) ++ [length atoms])).2 s
                = get st.2 s) as Hstep.
      { intros st0 E1 E2. cbn [fst snd]. by rewrite !get_set_ne. }
      destruct (Hstep (if match get st.1 x with Some _ => true | None => false end
                       then st else (set st.1 x 0, set st.2 x []))) as [-> ->].
      { destruct (get st.1 x); [done|]. cbn [fst]. by rewrite get_set_ne. }
      { destruct (get st.1 x); [done|]. cbn [snd]. by rewrite get_set_ne. }
      rewrite Hs1, Hs2.
      destruct (decide (s ∈ atoms)) as [Hin|Hin].
      * rewrite !(decide_True (P := s ∈ atoms ++ [x]))
          by (apply elem_of_app; by left). done.
      * assert (s ∉ atoms ++ [x]) as Hn.
        { rewrite elem_of_app, list_elem_of_singleton. naive_solver. }
        by rewrite !(decide_False (P := s ∈ atoms ++ [x])).
Qed.

End CtorFacts.

Module ScanFacts.
Import Py Np Pyscf BasisPadder Spec PyFacts LabelFacts InitFacts ModelFacts
  CtorFacts.

(** ** Second loop of the constructor *)

Lemma scan_inv_nil : scan_inv ([], []) [].
Proof.
  split.
  - intros s. cbn. done.
  - intros s [? H]. done.
  - intros x Hx. by apply elem_of_nil in Hx.
  - intros s L H. done.
Qed.

Lemma scan_step st x st' Ls :
  scan_label st x = Some st' → scan_inv st Ls → scan_inv st' (Ls ++ [x]).
Proof.
  intros H [Hk Hd Hb Ht]. unfold scan_label in H.
  fold (label_sym x) in H. fold (label_n x) in H. fold (label_l x) in H.
  set (s0 := label_sym x) in *.
  destruct (label_n x) as [n0|] eqn:En; [|done].
  destruct (label_l x) as [l0|] eqn:El; [|done].
  cbn [mbind option_bind] in H.
  set (st0 := if mem st.1 s0 then st else (set st.1 s0 0, set st.2 s0 0)) in *.
  assert (F1 : ∀ s, s0 ≠ s →
            get st0.1 s = get st.1 s ∧ get st0.2 s = get st.2 s).
  { intros s Hs. subst st0. destruct (mem st.1 s0); [done|].
    cbn [fst snd]. by rewrite !get_set_ne. }
  assert (F2 : ∃ d1 d2, get st0.1 s0 = Some d1 ∧ get st0.2 s0 = Some d2 ∧
            ((get st.1 s0 = Some d1 ∧ get st.2 s0 = Some d2) ∨
             (get st.1 s0 = None ∧ get st.2 s0 = None ∧ d1 = 0 ∧ d2 = 0))).
  { subst st0. destruct (mem st.1 s0) eqn:Em.
    - apply mem_get in Em. destruct Em as [d1 E1].
      destruct (proj1 (Hk s0)) as [d2 E2]; [by eexists|].
      exists d1, d2. split_and!; [done..|]. by left.
    - assert (get st.1 s0 = None) as E1.
      { destruct (get st.1 s0) eqn:E; [|done].
        assert (mem st.1 s0 = true) by (apply mem_get; by eexists).
        congruence. }
      assert (get st.2 s0 = None) as E2.
      { destruct (get st.2 s0) eqn:E; [|done].
        destruct (proj2 (Hk s0)) as [? ?]; [by eexists|]. congruence. }
      exists 0, 0. cbn [fst snd]. rewrite !get_set_eq.
      split_and!; [done..|]. by right. }
  destruct F2 as (d1 & d2 & G1 & G2 & Hold).
  injection H as <-. rewrite G1, G2. cbn [default].
  assert (S1 : ∀ s, get (set st0.1 s0 (l0 `max` d1)) s
               = if decide (s0 = s) then Some (l0 `max` d1) else get st.1 s).
  { intros s. rewrite get_set. case_decide; [done|]. by apply F1. }
  assert (S2 : ∀ s, get (set st0.2 s0 (n0 `max` d2)) s
               = if decide (s0 = s) then Some (n0 `max` d2) else get st.2 s).
  { intros s. rewrite get_set. case_decide; [done|]. by apply F1. }
  split; cbn [fst snd].
  - intros s. rewrite S1, S2. destruct (decide (s0 = s)); [|apply Hk].
    split; by eexists.
  - intros s. rewrite S2. destruct (decide (s0 = s)) as [<-|].
    + intros _. exists x. split; [|done]. apply elem_of_app. right. by left.
    + intros Hs. destruct (Hd s Hs) as (y & Hy & <-). exists y.
      split; [|done]. apply elem_of_app. by left.
  - intros y Hy. rewrite S1, S2. apply elem_of_app in Hy as [Hy|Hy].
    + destruct (Hb y Hy) as (n & l & N & L & ? & ? & HN & HL & ? & ?).
      destruct (decide (s0 = label_sym y)) as [E|].
      * rewrite <- E in HN, HL.
        destruct Hold as [[? ?]|(? & ? & _)]; [|congruence].
        assert (d1 = L) as -> by congruence.
        assert (d2 = N) as -> by congruence.
        exists n, l, (n0 `max` N), (l0 `max` L). split_and!; try done; lia.
      * exists n, l, N, L. done.
    + apply list_elem_of_singleton in Hy as ->. fold s0.
      rewrite !(decide_True (P := s0 = s0)) by done.
      exists n0, l0, (n0 `max` d2), (l0 `max` d1). split_and!; try done; lia.
  - intros s L. rewrite S1. destruct (decide (s0 = s)) as [<-|].
    + intros [= <-].
      destruct (Nat.max_spec l0 d1) as [[? ->]|[? ->]].
      * destruct Hold as [[E1 _]|(_ & _ & -> & _)]; [|by left].
        destruct (Ht _ _ E1) as [?|(y & Hy & ? & ?)]; [by left|].
        right. exists y. split_and!; [|done..]. apply elem_of_app. by left.
      * right. exists x. split_and!; [|done..].
        apply elem_of_app. right. by left.
    + intros Hs. destruct (Ht _ _ Hs) as [?|(y & Hy & ? & ?)]; [by left|].
      right. exists y. split_and!; [|done..]. apply elem_of_app. by left.
Qed.

Lemma scan_inv_fold Ls mx :
  foldlM scan_label ([], []) Ls = Some mx → scan_inv mx Ls.
Proof.
  revert mx. induction Ls as [|x Ls IH] using rev_ind; intros mx H.
  - injection H as <-. apply scan_inv_nil.
  - rewrite foldlM_app in H.
    destruct (foldlM scan_label ([], []) Ls) as [st|]; [|done].
    cbn in H. destruct (scan_label st x) as [st'|] eqn:E; [|done].
    injection H as <-. eapply scan_step; [done|]. by apply IH.
Qed.

Lemma scan_total Ls st :
  (∀ x, x ∈ Ls → is_Some (label_n x) ∧ is_Some (label_l x)) →
  is_Some (foldlM scan_label st Ls).
Proof.
  revert st. induction Ls as [|x Ls IH]; intros st H; [by eexists|].
  cbn [foldlM]. destruct (H x) as [[n Hn] [l Hl]]; [by left|].
  unfold label_n, label_l in Hn, Hl.
  destruct (scan_label st x) as [st'|] eqn:E.
  - cbn [mbind option_bind]. apply IH. intros y Hy. apply H. by right.
  - unfold scan_label in E. cbn zeta in E. rewrite Hn, Hl in E. done.
Qed.

Lemma mapM_ext_Some {X Y} (f : X → option Y) (g : X → Y) (l : list X) :
  (∀ x, x ∈ l → f x = Some (g x)) → mapM f l = Some (g <$> l).
Proof.
  intros H. apply mapM_Some. apply Forall2_fmap_r, Forall_Forall2_diag.
  apply Forall_forall. done.
Qed.

End ScanFacts.

Module WfFacts.
Import Py Np Pyscf BasisPadder Spec PyFacts LabelFacts InitFacts ModelFacts
  CtorFacts ScanFacts.

Lemma get_fmap_pair {X V} (h : string → X) (p : X → V) ks k :
  get ((λ x : string * X, (x.1, p x.2)) <$> ((λ s, (s, h s)) <$> ks)) k
  = if decide (k ∈ ks) then Some (p (h k)) else None.
Proof. rewrite <- list_fmap_compose. apply (get_fmap_keys (λ s, p (h s))). Qed.

Lemma keys_fmap_pair {X V} (h : string → X) (p : X → V) ks :
  keys ((λ x : string * X, (x.1, p x.2)) <$> ((λ s, (s, h s)) <$> ks)) = ks.
Proof.
  unfold keys. rewrite <- !list_fmap_compose.
  induction ks as [|k ks IH]; [done|]. cbn. by rewrite IH.
Qed.

Section model.
Variable basis : string → list (nat * nat).
Variable mname : nat → nat → string.
Variable atoms : list string.
Hypothesis Hlic : licit basis mname atoms.

Abbreviation Ls := (ao_labels_raw (M basis mname atoms)).

Lemma label_parse ia S nl x :
  nl.2 ≤ 6 → x ∈ shell_labels mname ia S nl →
  label_sym x = S ∧ label_n x = Some nl.1 ∧ label_l x = Some nl.2.
Proof.
  intros Hl Hx. unfold shell_labels in Hx.
  apply list_elem_of_fmap in Hx as (m & -> & _).
  unfold label_sym, label_n, label_l. cbn [fst snd].
  rewrite but_last_snoc, int_str_of_nat, last_char_snoc.
  cbn [mbind option_bind]. by rewrite l_dict_ANGULAR.
Qed.

Lemma raw_labels_intro a s nl x :
  atoms !! a = Some s → nl ∈ basis s →
  x ∈ shell_labels mname a s nl → x ∈ Ls.
Proof.
  intros Ha Hnl Hx. cbn [M ao_labels_raw]. apply list_elem_of_bind.
  exists (a, s). split; [|by apply elem_of_enumerate].
  cbn [fst snd]. unfold atom_labels. apply list_elem_of_bind. by exists nl.
Qed.

Lemma shell_labels_inhabited ia sym nl :
  ∃ x, x ∈ shell_labels mname ia sym nl.
Proof.
  unfold shell_labels. replace (2 * nl.2 + 1) with (S (2 * nl.2)) by lia.
  cbn [seq fmap list_fmap]. eexists. by left.
Qed.

Lemma scan_model :
  ∃ mx, foldlM scan_label ([], []) Ls = Some mx ∧ scan_inv mx Ls.
Proof using Hlic.
  destruct (scan_total Ls ([], [])) as [mx Hmx].
  - intros x Hx. apply raw_labels_elem in Hx as (ia & S & nl & Hia & Hnl & Hx).
    assert (nl.2 ≤ 6) as Hl.
    { eapply (licit_range _ _ _ Hlic); [|done].
      by eapply list_elem_of_lookup_2. }
    destruct (label_parse ia S nl x Hl Hx) as (_ & -> & ->). split; by eexists.
  - exists mx. split; [done|]. by apply scan_inv_fold.
Qed.

Lemma scan_bounds mx s :
  scan_inv mx Ls → s ∈ atoms →
  ∃ N L, get mx.2 s = Some N ∧ get mx.1 s = Some L ∧ L ≤ 6 ∧
         ∀ nl, nl ∈ basis s → 1 ≤ nl.1 ≤ N ∧ nl.2 ≤ L.
Proof using Hlic.
  intros [Hk Hd Hb Ht] Hs.
  apply list_elem_of_lookup_1 in Hs as [a Ha].
  assert (Hs : s ∈ atoms) by by eapply list_elem_of_lookup_2.
  destruct (basis s) as [|nl0 B] eqn:EB.
  { by destruct (licit_nonempty _ _ _ Hlic s Hs). }
  assert (Hrg : ∀ nl, nl ∈ basis s → 1 ≤ nl.1 ∧ nl.2 ≤ 6)
    by (intros; by eapply (licit_range _ _ _ Hlic)).
  assert (Hnl : ∀ nl, nl ∈ basis s →
            ∃ N L, get mx.2 s = Some N ∧ get mx.1 s = Some L ∧
                   nl.1 ≤ N ∧ nl.2 ≤ L).
  { intros nl Hnl. destruct (shell_labels_inhabited a s nl) as [x Hx].
    destruct (Hrg nl Hnl) as [_ Hl].
    destruct (label_parse a s nl x Hl Hx) as (Es & En & El).
    destruct (Hb x (raw_labels_intro a s nl x Ha Hnl Hx))
      as (n & l & N & L & En' & El' & HN & HL & ? & ?).
    rewrite Es in HN, HL. exists N, L.
    assert (n = nl.1) as -> by congruence.
    assert (l = nl.2) as -> by congruence. done. }
  destruct (Hnl nl0) as (N & L & HN & HL & _); [rewrite EB; by left|].
  exists N, L. split_and!; [done..| |].
  - destruct (Ht _ _ HL) as [->|(x & Hx & Hsx & Hlx)]; [lia|].
    apply raw_labels_elem in Hx as (ia & S & nl & Hia & Hnl' & Hx).
    assert (nl.2 ≤ 6) as Hl.
    { eapply (licit_range _ _ _ Hlic); [|done].
      by eapply list_elem_of_lookup_2. }
    destruct (label_parse ia S nl x Hl Hx) as (_ & _ & El). 
    assert (L = nl.2) as -> by congruence. done.
  - rewrite <- EB. intros nl Hnl'.
    destruct (Hnl nl Hnl') as (N' & L' & HN' & HL' & ? & ?).
    assert (N' = N) as -> by congruence.
    assert (L' = L) as -> by congruence.
    destruct (Hrg nl Hnl'). lia.
Qed.

Lemma scan_keys mx s :
  scan_inv mx Ls → s ∈ keys mx.2 ↔ s ∈ atoms.
Proof using Hlic.
  intros Hinv. split.
  - intros Hs. destruct (get mx.2 s) as [N|] eqn:E.
    + destruct (si_dom _ _ Hinv s) as (x & Hx & <-); [by eexists|].
      apply raw_labels_elem in Hx as (ia & S & nl & Hia & Hnl & Hx).
      assert (nl.2 ≤ 6) as Hl.
      { eapply (licit_range _ _ _ Hlic); [|done].
        by eapply list_elem_of_lookup_2. }
      destruct (label_parse ia S nl x Hl Hx) as (-> & _).
      by eapply list_elem_of_lookup_2.
    + by apply get_None_keys in E.
  - intros Hs. destruct (scan_bounds mx s Hinv Hs) as (N & L & HN & _).
    by eapply get_Some_keys.
Qed.

Lemma nao_atom_pos s : s ∈ atoms → 0 < nao_atom basis s.
Proof using Hlic.
  intros Hs. unfold nao_atom.
  destruct (basis s) as [|nl B] eqn:E.
  - by destruct (licit_nonempty _ _ _ Hlic s Hs).
  - simpl. lia.
Qed.

(** The constructor succeeds on a licit molecule and yields a padder that
    satisfies [wf]. *)
Lemma init_wf :
  ∃ bp, __init__ (M basis mname atoms) = Some bp ∧ wf bp ∧
        mol bp = M basis mname atoms.
Proof using Hlic.
  destruct scan_model as (mx & Hscan & Hinv).
  unfold __init__. rewrite Hscan. cbn [mbind option_bind].
  change (atom_pure_symbol (M basis mname atoms)) with atoms.
  set (cs := foldl count_atom ([], []) (enumerate atoms)).
  set (labels := ao_labels (M basis mname atoms)).
  set (rows := λ sym : string,
         index_atom labels sym (default 0 (get mx.2 sym))
           (default 0 (get mx.1 sym)) <$> atoms_of sym atoms).
  rewrite (mapM_ext_Some _ (λ sym, (sym, ((rows sym).*1, (rows sym).*2)))).
  2:{ intros sym Hsym. apply (scan_keys mx sym Hinv) in Hsym.
      destruct (scan_bounds mx sym Hinv Hsym) as (N & L & HN & HL & _).
      unfold index_species.
      destruct (count_atoms_spec atoms sym) as [_ Hidx].
      fold cs in Hidx. rewrite decide_True in Hidx by done.
      rewrite Hidx, HN, HL. cbn [mbind option_bind].
      subst rows. cbn beta. by rewrite HN, HL. }
  cbn [mbind option_bind]. eexists. split; [reflexivity|].
  split; [|done]. split; cbn [mol sym_cnt max_n max_l indexing_l indexing_r
                               atom_pure_symbol aoslice_by_atom ao_labels_raw M].
  - exists (nao_atom basis <$> atoms). split_and!.
    + apply slices_blocks.
    + by rewrite length_fmap.
    + apply (zip_bind_length basis mname 0).
  - intros s. rewrite (keys_fmap_pair _ fst). by apply scan_keys.
  - intros s Hs.
    destruct (scan_bounds mx s Hinv Hs) as (N & L & HN & HL & HL6 & Hbs).
    exists N, L, (rows s).*1, (rows s).*2.
    rewrite (get_fmap_pair _ fst), (get_fmap_pair _ snd).
    rewrite !decide_True by by apply scan_keys.
    destruct (count_atoms_spec atoms s) as [Hcnt _].
    fold cs in Hcnt. rewrite decide_True in Hcnt by done.
    split_and!; [done..| | |].
    + subst rows. cbn beta. by rewrite !length_fmap.
    + subst rows. cbn beta. rewrite HN, HL. cbn [default].
      apply Forall_fmap, Forall_fmap, Forall_forall. intros a Ha.
      apply elem_atoms_of in Ha. unfold compose. cbv beta.
      subst labels. rewrite (index_atom_spec basis mname) by done.
      cbn [fst]. apply mask_row_length.
    + subst rows. cbn beta. rewrite HN, HL. cbn [default].
      apply Forall2_fmap, Forall2_fmap, Forall_Forall2_diag, Forall_forall.
      intros a Ha. apply elem_atoms_of in Ha.
      subst labels. rewrite (index_atom_spec basis mname) by done.
      cbn [fst snd]. apply mask_rs_count.
  - intros a s s0 s1 rs Ha Hsl Hrs.
    assert (Hs : s ∈ atoms) by by eapply list_elem_of_lookup_2.
    destruct (scan_bounds mx s Hinv Hs) as (N & L & HN & HL & HL6 & Hbs).
    unfold rs_of in Hrs.
    cbn [mol indexing_r atom_pure_symbol M] in Hrs.
    rewrite (get_fmap_pair _ snd) in Hrs.
    rewrite decide_True in Hrs by by apply scan_keys.
    cbn [mbind option_bind] in Hrs. subst rows. cbn beta in Hrs.
    rewrite HN, HL in Hrs. cbn [default snd] in Hrs.
    unfold Datatypes.id in Hrs.
    rewrite !list_lookup_fmap, (atoms_of_rank _ _ _ Ha) in Hrs.
    cbn [fmap option_fmap option_map] in Hrs. injection Hrs as <-.
    subst labels. rewrite (index_atom_spec basis mname) by done.
    cbn [snd].
    rewrite slices_blocks in Hsl.
    apply blocks_lookup in Hsl as (w & Hw & -> & ->).
    rewrite list_lookup_fmap, Ha in Hw. injection Hw as <-.
    rewrite Nat.add_0_l, <- fmap_take.
    replace (sum_list (nao_atom basis <$> take a atoms) + nao_atom basis s
             - sum_list (nao_atom basis <$> take a atoms))
      with (nao_atom basis s) by lia.
    assert (rs_row (basis s) (sum_list (nao_atom basis <$> take a atoms)) N L
            ≡ₚ seq (sum_list (nao_atom basis <$> take a atoms))
                 (nao_atom basis s)) as Hp.
    { unfold nao_atom. apply (rs_row_perm basis mname).
      - by apply (licit_nodup _ _ _ Hlic).
      - done. }
    split; [done|]. intros E. rewrite E in Hp.
    apply Permutation_nil_l in Hp.
    pose proof (nao_atom_pos s Hs) as Hpos.
    destruct (nao_atom basis s); [lia|done].
Qed.

End model.
End WfFacts.

(** * Facts about NumPy indexing *)

Module NpFacts.
Import Py Np Spec PyFacts.

Section ops.
Context {A : Type} (zero : A).
Implicit Types (a v w row vals : list A) (mask : list bool) (rs : list nat).

Lemma count_true_cons b mask :
  count_true (b :: mask) = (if b then 1 else 0) + count_true mask.
Proof.
  unfold count_true. destruct b.
  - by rewrite filter_cons_True.
  - by rewrite filter_cons_False.
Qed.

Lemma gather_mask_length mask row :
  length row = length mask → length (gather_mask mask row) = count_true mask.
Proof.
  revert row. induction mask as [|b mask IH]; intros [|x row] H;
    simplify_eq/=; [done|].
  rewrite count_true_cons. destruct b; cbn [length]; rewrite IH by done; lia.
Qed.

Lemma scatter_mask_length mask vals row :
  length (scatter_mask mask vals row) = length row.
Proof.
  revert vals row. induction mask as [|b mask IH]; intros vals [|x row];
    cbn [scatter_mask]; try done.
  destruct b; [destruct vals|]; cbn [length]; by rewrite IH.
Qed.

Lemma gather_scatter mask vals row :
  length row = length mask → length vals = count_true mask →
  gather_mask mask (scatter_mask mask vals row) = vals.
Proof.
  revert vals row. induction mask as [|b mask IH]; intros vals [|x row] Hr Hv;
    simplify_eq/=.
  - by destruct vals.
  - rewrite count_true_cons in Hv. destruct b.
    + destruct vals as [|y vals]; [done|]. cbn [gather_mask].
      f_equal. apply IH; [done|]. simpl in Hv. lia.
    + apply IH; [done|]. simpl in Hv. lia.
Qed.

Lemma scatter_gather_lookup mask w row (j : nat) (b : bool) :
  length row = length mask → length w = length mask →
  mask !! j = Some b →
  scatter_mask mask (gather_mask mask w) row !! j
  = if b then w !! j else row !! j.
Proof.
  revert w row j. induction mask as [|b0 mask IH]; intros w row j Hr Hw Hj.
  - by rewrite lookup_nil in Hj.
  - destruct w as [|y w]; [done|]. destruct row as [|x row]; [done|].
    cbn [length] in Hr, Hw. destruct j as [|j]; simpl in Hj.
    + injection Hj as ->. by destruct b.
    + destruct b0; cbn [gather_mask scatter_mask]; simpl;
        apply IH; (done || lia).
Qed.

Lemma scatter_false_lookup mask vals row (j : nat) :
  mask !! j = Some false → scatter_mask mask vals row !! j = row !! j.
Proof.
  revert vals row j. induction mask as [|b0 mask IH]; intros vals row j Hj.
  - by rewrite lookup_nil in Hj.
  - destruct row as [|x row]; [done|]. destruct j as [|j]; simpl in Hj.
    + injection Hj as ->. done.
    + destruct b0; [destruct vals|]; cbn [scatter_mask]; simpl; by apply IH.
Qed.

Lemma broadcast_same n vals : length vals = n → broadcast n vals = Some vals.
Proof. intros H. unfold broadcast. by rewrite decide_True. Qed.

Lemma pick_length v rs : length (pick zero v rs) = length rs.
Proof. unfold pick. by rewrite length_fmap. Qed.

Lemma pick_lookup v rs t r :
  rs !! t = Some r → r < length v → pick zero v rs !! t = v !! r.
Proof.
  intros Ht Hr. unfold pick. rewrite list_lookup_fmap, Ht. cbn.
  destruct (lookup_lt_is_Some_2 v r Hr) as [x ->]. done.
Qed.

Lemma slice_length v lo hi :
  lo ≤ hi → hi ≤ length v → length (slice v lo hi) = hi - lo.
Proof.
  intros. unfold slice. rewrite length_take, length_drop. lia.
Qed.

Lemma slice_lookup v lo hi i :
  i < hi - lo → slice v lo hi !! i = v !! (lo + i).
Proof.
  intros. unfold slice. by rewrite lookup_take_lt, lookup_drop.
Qed.

Lemma norm_index_nat len (r off : nat) :
  off ≤ r →
  norm_index len (Z.of_nat r - Z.of_nat off)
  = if decide (r - off < len) then Some (r - off) else None.
Proof.
  intros H. unfold norm_index.
  destruct (decide (r - off < len)).
  - rewrite bool_decide_eq_true_2 by lia. f_equal. lia.
  - rewrite bool_decide_eq_false_2 by lia.
    by rewrite bool_decide_eq_false_2 by lia.
Qed.

(** Reading a block through relative indices reads the vector itself. *)
Lemma take_idx_slice_inv v s0 s1 rs idx vals :
  (∀ r, r ∈ rs → s0 ≤ r < s1) →
  index_array rs s0 = Some idx →
  take_idx (slice v s0 s1) idx = Some vals →
  vals = pick zero v rs.
Proof.
  intros Hrs Hidx H. unfold index_array in Hidx.
  assert (idx = (λ r : nat, (Z.of_nat r - Z.of_nat s0)%Z) <$> rs) as ->.
  { destruct rs; [done|]. by injection Hidx as <-. }
  clear Hidx. unfold take_idx in H. apply mapM_Some in H.
  apply Forall2_fmap_l in H. unfold pick.
  apply list_eq. intros t. rewrite list_lookup_fmap.
  destruct (rs !! t) as [r|] eqn:Er.
  - destruct (Forall2_lookup_l _ _ _ _ _ H Er) as (x & Ex & Hx).
    rewrite Ex. cbn. destruct (Hrs r) as [? ?]; [by eapply list_elem_of_lookup_2|].
    unfold compose in Hx. cbv beta in Hx.
    rewrite norm_index_nat in Hx by done.
    destruct (decide _) as [Hlt|]; [|done]. cbn [mbind option_bind] in Hx.
    assert (r - s0 < s1 - s0) by lia.
    rewrite slice_lookup in Hx by done.
    replace (s0 + (r - s0)) with r in Hx by lia. by rewrite Hx.
  - cbn. apply lookup_ge_None. apply lookup_ge_None in Er.
    apply Forall2_length in H. lia.
Qed.

Lemma take_idx_slice_ok v s0 s1 rs :
  rs ≠ [] → (∀ r, r ∈ rs → s0 ≤ r < s1) → s1 ≤ length v →
  ∃ idx vals, index_array rs s0 = Some idx ∧
              take_idx (slice v s0 s1) idx = Some vals.
Proof.
  intros Hne Hrs Hlen. unfold index_array.
  exists ((λ r : nat, (Z.of_nat r - Z.of_nat s0)%Z) <$> rs).
  destruct (mapM (λ i, p ← norm_index (length (slice v s0 s1)) i;
                       slice v s0 s1 !! p)
              ((λ r : nat, (Z.of_nat r - Z.of_nat s0)%Z) <$> rs))
    as [vals|] eqn:E.
  - exists vals. split; [by destruct rs|done].
  - exfalso. apply mapM_None in E. 
    apply Exists_exists in E as (i & Hi & E).
    apply list_elem_of_fmap in Hi as (r & -> & Hr).
    destruct (Hrs r Hr) as [? ?].
    rewrite norm_index_nat in E by done.
    assert (s0 ≤ s1) by lia.
    rewrite slice_length in E by lia.
    rewrite decide_True in E by lia. cbn [mbind option_bind] in E.
    rewrite slice_lookup in E by lia.
    apply lookup_ge_None in E. lia.
Qed.

(** *** Successive writes *)

Lemma writes_length a rs vals : length (writes a rs vals) = length a.
Proof.
  unfold writes. revert a vals. induction rs as [|r rs IH]; intros a vals.
  - done.
  - destruct vals as [|x vals]; [done|]. cbn [zip_with foldl].
    by rewrite IH, length_insert.
Qed.

Lemma writes_other a rs vals i :
  i ∉ rs → writes a rs vals !! i = a !! i.
Proof.
  unfold writes. revert a vals. induction rs as [|r rs IH]; intros a vals Hi.
  - done.
  - destruct vals as [|x vals]; [done|]. cbn [zip_with foldl fst snd].
    apply not_elem_of_cons in Hi as [Hne Hi].
    rewrite IH by done. by rewrite list_lookup_insert_ne.
Qed.

Lemma writes_lookup a rs vals t r :
  NoDup rs → length vals = length rs → rs !! t = Some r → r < length a →
  writes a rs vals !! r = vals !! t.
Proof.
  unfold writes. revert a vals t.
  induction rs as [|r0 rs IH]; intros a vals t Hnd Hlen Ht Hr; [done|].
  destruct vals as [|x vals]; [done|]. cbn [zip_with foldl fst snd].
  apply NoDup_cons in Hnd as [Hr0 Hnd].
  destruct t as [|t]; simplify_eq/=.
  - fold (writes (<[r:=x]> a) rs vals). rewrite writes_other by done.
    by rewrite list_lookup_insert_eq.
  - apply (IH _ _ t); [done|lia|done|]. by rewrite length_insert.
Qed.

Lemma mapM_fmap_Some_in {X Y Z} (f : Y → option Z) (g : X → Y) (h : X → Z)
    (l : list X) :
  (∀ x, x ∈ l → f (g x) = Some (h x)) → mapM f (g <$> l) = Some (h <$> l).
Proof.
  intros H. apply mapM_Some, Forall2_fmap, Forall_Forall2_diag, Forall_forall.
  done.
Qed.

(** Writing through a block view writes the vector itself. *)
Lemma put_idx_slice_spec a s0 s1 rs idx vals :
  rs ≠ [] → (∀ r, r ∈ rs → s0 ≤ r < s1) → s1 ≤ length a →
  length vals = length rs →
  index_array rs s0 = Some idx →
  put_idx_slice a s0 s1 idx vals = Some (writes a rs vals).
Proof.
  intros Hne Hrs Hlen Hv Hidx. unfold index_array in Hidx.
  assert (idx = (λ r : nat, (Z.of_nat r - Z.of_nat s0)%Z) <$> rs) as ->.
  { destruct rs; [done|]. by injection Hidx as <-. }
  unfold put_idx_slice.
  rewrite (mapM_fmap_Some_in _ _ (λ r, r - s0)).
  2:{ intros r Hr. destruct (Hrs r Hr). rewrite norm_index_nat by done.
      rewrite slice_length by lia. by rewrite decide_True by lia. }
  cbn [mbind option_bind].
  rewrite broadcast_same by (by rewrite length_fmap).
  cbn [mbind option_bind]. f_equal. unfold writes. clear Hne Hv Hidx.
  revert a vals Hlen. induction rs as [|r rs IH]; intros a vals Hlen; [done|].
  destruct vals as [|x vals]; [done|].
  cbn [fmap list_fmap zip_with foldl fst snd].
  destruct (Hrs r) as [? ?]; [by left|].
  replace (s0 + (r - s0)) with r by lia.
  apply IH.
  - intros r' Hr'. apply Hrs. by right.
  - by rewrite length_insert.
Qed.

(** *** Loops with an invariant *)

End ops.

Lemma foldlM_inv {St X} (f : St → X → option St) (I : nat → St → Prop)
    (xs : list X) s s' :
  I 0 s →
  (∀ i x st st', xs !! i = Some x → I i st → f st x = Some st' → I (S i) st') →
  foldlM f s xs = Some s' → I (length xs) s'.
Proof.
  revert I s. induction xs as [|x xs IH]; intros I s H0 Hstep H.
  - by injection H as <-.
  - cbn [foldlM] in H. destruct (f s x) as [st|] eqn:E; [|done].
    cbn [mbind option_bind] in H.
    apply (IH (λ i, I (S i)) st); [|intros i y st1 st2 Hy|done].
    + by apply (Hstep 0 x s st).
    + by apply (Hstep (S i) y st1 st2).
Qed.

Lemma foldlM_total {St X} (f : St → X → option St) (I : nat → St → Prop)
    (xs : list X) s :
  I 0 s →
  (∀ i x st, xs !! i = Some x → I i st → is_Some (f st x)) →
  (∀ i x st st', xs !! i = Some x → I i st → f st x = Some st' → I (S i) st') →
  is_Some (foldlM f s xs).
Proof.
  revert I s. induction xs as [|x xs IH]; intros I s H0 Hok Hstep.
  - by eexists.
  - cbn [foldlM]. destruct (Hok 0 x s) as [st E]; [done..|]. rewrite E.
    cbn [mbind option_bind]. apply (IH (λ i, I (S i))).
    + by apply (Hstep 0 x s st).
    + intros i y st1 Hy. by apply (Hok (S i)).
    + intros i y st1 st2 Hy. by apply (Hstep (S i)).
Qed.

Lemma foldlM_run {St X} (f : St → X → option St) (I : nat → St → Prop)
    (xs : list X) s :
  I 0 s →
  (∀ i x st, xs !! i = Some x → I i st →
     ∃ st', f st x = Some st' ∧ I (S i) st') →
  ∃ s', foldlM f s xs = Some s' ∧ I (length xs) s'.
Proof.
  revert I s. induction xs as [|x xs IH]; intros I s H0 Hstep.
  - by exists s.
  - cbn [foldlM]. destruct (Hstep 0 x s) as (st & E & HI); [done..|].
    rewrite E. cbn [mbind option_bind].
    apply (IH (λ i, I (S i))); [done|].
    intros i y st1 Hy. by apply (Hstep (S i)).
Qed.

End NpFacts.

(** * Padding and unpadding with a well-formed padder *)

Module PadFacts.
Import Py Np Pyscf BasisPadder Spec PyFacts InitFacts CtorFacts ScanFacts
  NpFacts.

Lemma blocks_cover off ws i :
  off ≤ i < off + sum_list ws →
  ∃ a s0 s1, blocks off ws !! a = Some (s0, s1) ∧ s0 ≤ i < s1.
Proof.
  revert off. induction ws as [|w ws IH]; intros off Hi; [simpl in Hi; lia|].
  simpl in Hi. destruct (decide (i < off + w)) as [Hlt|Hge].
  - exists 0, off, (off + w). split; [done|lia].
  - destruct (IH (off + w)) as (a & s0 & s1 & Ha & ?); [lia|].
    by exists (S a), s0, s1.
Qed.

Section padder.
Context {A : Type} (zero : A).
Variable bp : BasisPadder.t.
Hypothesis Hwf : wf bp.

Abbreviation atoms := (atom_pure_symbol (mol bp)).
Abbreviation sl := (aoslice_by_atom (mol bp)).
Abbreviation nao := (length (ao_labels_raw (mol bp))).

Lemma sl_length : length sl = length atoms.
Proof using Hwf.
  destruct (wf_blocks _ Hwf) as (ws & -> & Hl & _). by rewrite blocks_length.
Qed.

Lemma sl_bounds a s0 s1 : sl !! a = Some (s0, s1) → s0 ≤ s1 ∧ s1 ≤ nao.
Proof using Hwf.
  destruct (wf_blocks _ Hwf) as (ws & -> & _ & ->). intros H.
  apply blocks_lookup in H as (w & Hw & -> & ->).
  apply sum_list_take_le in Hw. lia.
Qed.

Lemma sl_disjoint a a' s0 s1 s0' s1' :
  a' < a → sl !! a' = Some (s0', s1') → sl !! a = Some (s0, s1) → s1' ≤ s0.
Proof using Hwf.
  destruct (wf_blocks _ Hwf) as (ws & -> & _ & _). intros Hlt H' H.
  apply blocks_lookup in H' as (w' & Hw' & -> & ->).
  apply blocks_lookup in H as (w & Hw & -> & _).
  pose proof (sum_list_take_mono ws a' a w' Hlt Hw'). lia.
Qed.

Lemma sl_cover i :
  i < nao → ∃ a s0 s1, sl !! a = Some (s0, s1) ∧ s0 ≤ i < s1.
Proof using Hwf.
  destruct (wf_blocks _ Hwf) as (ws & -> & _ & ->).
  intros Hi. apply blocks_cover. lia.
Qed.

Lemma sl_atom a s0 s1 : sl !! a = Some (s0, s1) → ∃ s, atoms !! a = Some s.
Proof using Hwf.
  intros H. apply lookup_lt_Some in H. rewrite sl_length in H.
  by apply lookup_lt_is_Some_2.
Qed.

(** Everything the loops read for one atom. *)
Lemma wf_atom a s :
  atoms !! a = Some s →
  ∃ s0 s1 m rs,
    sl !! a = Some (s0, s1) ∧ s0 ≤ s1 ∧ s1 ≤ nao ∧
    mask_of bp atoms a s = Some m ∧ rs_of bp atoms a s = Some rs ∧
    count_true m = length rs ∧
    rs ≡ₚ seq s0 (s1 - s0) ∧ rs ≠ [].
Proof using Hwf.
  intros Ha.
  assert (is_Some (sl !! a)) as [[s0 s1] Hsl].
  { apply lookup_lt_is_Some_2. rewrite sl_length. by eapply lookup_lt_Some. }
  destruct (sl_bounds a s0 s1 Hsl) as [? ?].
  assert (Hs : s ∈ atoms) by by eapply list_elem_of_lookup_2.
  destruct (wf_dims _ Hwf s Hs)
    as (N & L & ml & rl & Hc & HN & HL & Hml & Hrl & Hlen & Hw & Hcnt).
  pose proof (rank_lt atoms a s Ha) as Hrk.
  destruct (lookup_lt_is_Some_2 ml (rank atoms a s)) as [m Hm]; [lia|].
  destruct (Forall2_lookup_l _ _ _ _ _ Hcnt Hm) as (rs & Hrs & Hmr).
  assert (rs_of bp atoms a s = Some rs) as Hrs'.
  { unfold rs_of. rewrite Hrl. done. }
  destruct (wf_perm _ Hwf a s s0 s1 rs Ha Hsl Hrs') as [Hp Hne].
  exists s0, s1, m, rs. split_and!; try done.
  unfold mask_of. rewrite Hml. done.
Qed.

Lemma wf_rs_range a s s0 s1 rs r :
  atoms !! a = Some s → sl !! a = Some (s0, s1) →
  rs_of bp atoms a s = Some rs → r ∈ rs → s0 ≤ r < s1.
Proof using Hwf.
  intros Ha Hsl Hrs Hr.
  destruct (wf_perm _ Hwf a s s0 s1 rs Ha Hsl Hrs) as [Hp _].
  rewrite Hp in Hr. apply elem_of_seq in Hr. lia.
Qed.

Lemma wf_rs_nodup a s rs :
  atoms !! a = Some s → rs_of bp atoms a s = Some rs → NoDup rs.
Proof using Hwf.
  intros Ha Hrs.
  destruct (wf_atom a s Ha) as (s0 & s1 & m & rs' & Hsl & _ & _ & _ & Hrs' & _ & Hp & _).
  assert (rs' = rs) as -> by congruence.
  rewrite Hp. apply NoDup_seq.
Qed.

Lemma wf_mask_width s ml k m :
  s ∈ atoms → get (indexing_l bp) s = Some ml → ml !! k = Some m →
  ∃ N L, get (max_n bp) s = Some N ∧ get (max_l bp) s = Some L ∧
         length m = N * (L + 1) ^ 2 ∧
         get (sym_cnt bp) s = Some (length (atoms_of s atoms)) ∧
         length ml = length (atoms_of s atoms).
Proof using Hwf.
  intros Hs Hml Hm.
  destruct (wf_dims _ Hwf s Hs)
    as (N & L & ml' & rl & Hc & HN & HL & Hml' & Hrl & Hlen & Hw & Hcnt).
  assert (ml' = ml) as -> by congruence.
  exists N, L. split_and!; try done.
  rewrite Forall_forall in Hw. apply Hw. by eapply list_elem_of_lookup_2.
Qed.

(** *** One turn of each loop *)

Lemma pad_atom_eq (v : list A) st a s s0 s1 k m rs arr row :
  atoms !! a = Some s → get st.2 s = Some k →
  get (indexing_l bp) s ≫= (.!! k) = Some m →
  get (indexing_r bp) s ≫= (.!! k) = Some rs →
  get st.1 s = Some arr → arr !! k = Some row →
  length m = length row → count_true m = length rs →
  (∀ r, r ∈ rs → s0 ≤ r < s1) →
  pad_atom bp v st (a, (s0, s1))
  = (idx ← index_array rs s0;
     _ ← take_idx (slice v s0 s1) idx;
     Some (set st.1 s (<[k := scatter_mask m (pick zero v rs) row]> arr),
           set st.2 s (k + 1))).
Proof.
  intros Ha Hk Hm Hrs Harr Hrow Hlen Hcnt Hrg. unfold pad_atom.
  rewrite Ha. cbn [mbind option_bind]. rewrite Hk. cbn [mbind option_bind].
  rewrite Hm. cbn [mbind option_bind]. rewrite Hrs. cbn [mbind option_bind].
  destruct (index_array rs s0) as [idx|] eqn:Eidx; [|done].
  cbn [mbind option_bind].
  destruct (take_idx (slice v s0 s1) idx) as [vals|] eqn:Ev; [|done].
  cbn [mbind option_bind].
  apply (take_idx_slice_inv zero) with (rs := rs) in Ev; [|done..].
  subst vals. rewrite Harr. cbn [mbind option_bind].
  unfold setitem_row_mask. rewrite Hrow. cbn [mbind option_bind].
  unfold mask_fits. rewrite (bool_decide_eq_true_2 (length m = length row)) by done.
  rewrite orb_true_r.
  rewrite broadcast_same by (by rewrite pick_length).
  done.
Qed.

Lemma unpad_atom_eq (coeff : dict (ndarray A)) st a s s0 s1 k m rs row :
  atoms !! a = Some s → get st.2 s = Some k →
  get (indexing_l bp) s ≫= (.!! k) = Some m →
  get (indexing_r bp) s ≫= (.!! k) = Some rs →
  (get coeff s ≫= first_slab) ≫= (.!! k) = Some row →
  length row = length m → count_true m = length rs →
  rs ≠ [] → (∀ r, r ∈ rs → s0 ≤ r < s1) → s1 ≤ length st.1 →
  unpad_atom bp coeff st (a, (s0, s1))
  = Some (writes st.1 rs (gather_mask m row), set st.2 s (k + 1)).
Proof.
  intros Ha Hk Hm Hrs Hrow Hlen Hcnt Hne Hrg Hs1. unfold unpad_atom.
  rewrite Ha. cbn [mbind option_bind].
  destruct (get coeff s ≫= first_slab) as [coeff_in|] eqn:Ec; [|done].
  cbn [mbind option_bind] in *. rewrite Hk. cbn [mbind option_bind].
  rewrite Hm. cbn [mbind option_bind]. rewrite Hrs. cbn [mbind option_bind].
  destruct (index_array rs s0) as [idx|] eqn:Eidx; [|by destruct rs].
  cbn [mbind option_bind].
  unfold getitem_row_mask. rewrite Hrow. cbn [mbind option_bind].
  unfold mask_fits. rewrite (bool_decide_eq_true_2 (length m = length row)) by done.
  rewrite orb_true_r. cbn [mbind option_bind].
  rewrite (put_idx_slice_spec _ _ _ rs); [done..| |done].
  rewrite gather_mask_length by done. done.
Qed.

(** *** The padding loop *)

Lemma pad_init (v : list A) :
  ∃ coeff_out,
    mapM (zeros_for zero bp) (keys (indexing_l bp)) = Some coeff_out ∧
    pad_inv zero bp v 0
      (coeff_out, (λ sym, (sym, 0)) <$> keys (indexing_l bp)).
Proof using Hwf.
  set (f := λ s, zeros2 zero (default 0 (get (sym_cnt bp) s))
                   (default 0 (get (max_n bp) s)
                    * (default 0 (get (max_l bp) s) + 1) ^ 2)).
  exists ((λ s, (s, f s)) <$> keys (indexing_l bp)). split.
  - apply mapM_ext_Some. intros s Hs. apply (wf_keys _ Hwf) in Hs.
    destruct (wf_dims _ Hwf s Hs) as (N & L & ml & rl & Hc & HN & HL & _).
    unfold zeros_for, f. rewrite Hc, HN, HL. done.
  - split; cbn [fst snd].
    + intros s Hs. rewrite (get_fmap_keys (λ _, 0)).
      rewrite decide_True by by apply (wf_keys _ Hwf). done.
    + intros s Hs. exists (f s). rewrite get_fmap_keys.
      rewrite decide_True by by apply (wf_keys _ Hwf).
      destruct (wf_dims _ Hwf s Hs)
        as (N & L & ml & rl & Hc & HN & HL & Hml & _ & Hlen & Hw & _).
      split_and!.
      * done.
      * unfold f, zeros2. rewrite Hc. simpl. by rewrite length_replicate.
      * intros; lia.
      * intros k m _ Hm. rewrite Hml in Hm. cbn [mbind option_bind] in Hm.
        unfold f, zeros2. rewrite Hc, HN, HL. simpl default.
        rewrite lookup_replicate_2 by (apply lookup_lt_Some in Hm; lia).
        rewrite Forall_forall in Hw.
        rewrite (Hw m) by by eapply list_elem_of_lookup_2. done.
Qed.

Lemma pad_step (v : list A) a x st st' :
  enumerate sl !! a = Some x → pad_inv zero bp v a st →
  pad_atom bp v st x = Some st' → pad_inv zero bp v (S a) st'.
Proof using Hwf.
  intros Hx [Hcnt Harr] H. apply enumerate_lookup in Hx as [Hx1 Hsl].
  destruct x as [a' [s0 s1]]. cbn [fst snd] in Hx1, Hsl. subst a'.
  destruct (sl_atom a s0 s1 Hsl) as [s Ha].
  destruct (wf_atom a s Ha)
    as (s0' & s1' & m & rs & Hsl' & Hle & Hnao & Hm & Hrs & Hc & Hp & Hne).
  assert (s0' = s0 ∧ s1' = s1) as [-> ->] by (split; congruence).
  assert (Hs : s ∈ atoms) by by eapply list_elem_of_lookup_2.
  destruct (Harr s Hs) as (arr & Hget & Hlen & Hdone & Hzero).
  assert (Hrow : arr !! rank atoms a s = Some (replicate (length m) zero))
    by (by apply Hzero).
  assert (Hrg : ∀ r, r ∈ rs → s0 ≤ r < s1)
    by (intros r Hr; exact (wf_rs_range a s s0 s1 rs r Ha Hsl Hrs Hr)).
  rewrite (pad_atom_eq v st a s s0 s1 _ m rs arr _ Ha (Hcnt s Hs) Hm Hrs
             Hget Hrow) in H;
    [|by rewrite length_replicate|done|done].
  destruct (index_array rs s0); [|done]. cbn [mbind option_bind] in H.
  destruct (take_idx _ _); [|done]. cbn [mbind option_bind] in H.
  injection H as <-. split; cbn [fst snd].
  - intros s' Hs'. rewrite get_set. destruct (decide (s = s')) as [<-|E].
    + rewrite (rank_snoc_same _ _ _ Ha). f_equal. lia.
    + rewrite (rank_snoc_other _ _ s' s Ha) by done. by apply Hcnt.
  - intros s' Hs'. rewrite get_set. destruct (decide (s = s')) as [<-|E].
    + eexists. split_and!; [done| | |].
      * by rewrite length_insert.
      * intros a' m' rs' Hlt Ha' Hm' Hrs'.
        pose proof (rank_lt _ _ _ Ha).
        destruct (decide (a' = a)) as [->|Hne'].
        -- assert (m' = m) as -> by congruence.
           assert (rs' = rs) as -> by congruence.
           by rewrite list_lookup_insert_eq by lia.
        -- assert (a' < a) as Hlt' by lia.
           pose proof (rank_mono atoms a' a s Hlt' Ha').
           rewrite list_lookup_insert_ne by lia. by apply Hdone.
      * intros k m' Hk Hm'. rewrite (rank_snoc_same _ _ _ Ha) in Hk.
        rewrite list_lookup_insert_ne by lia. apply Hzero; [lia|done].
    + destruct (Harr s' Hs') as (arr' & Hget' & Hlen' & Hdone' & Hzero').
      exists arr'. split_and!; [done..| |].
      * intros a' m' rs' Hlt Ha' Hm' Hrs'. apply Hdone'; try done.
        assert (a' ≠ a) by congruence. lia.
      * intros k m' Hk. rewrite (rank_snoc_other _ _ s' s Ha) in Hk by done.
        by apply Hzero'.
Qed.

Lemma pad_step_ok (v : list A) a x st :
  length v = nao →
  enumerate sl !! a = Some x → pad_inv zero bp v a st →
  is_Some (pad_atom bp v st x).
Proof using Hwf.
  intros Hv Hx [Hcnt Harr]. apply enumerate_lookup in Hx as [Hx1 Hsl].
  destruct x as [a' [s0 s1]]. cbn [fst snd] in Hx1, Hsl. subst a'.
  destruct (sl_atom a s0 s1 Hsl) as [s Ha].
  destruct (wf_atom a s Ha)
    as (s0' & s1' & m & rs & Hsl' & Hle & Hnao & Hm & Hrs & Hc & Hp & Hne).
  assert (s0' = s0 ∧ s1' = s1) as [-> ->] by (split; congruence).
  assert (Hs : s ∈ atoms) by by eapply list_elem_of_lookup_2.
  destruct (Harr s Hs) as (arr & Hget & Hlen & Hdone & Hzero).
  assert (Hrow : arr !! rank atoms a s = Some (replicate (length m) zero))
    by (by apply Hzero).
  assert (Hrg : ∀ r, r ∈ rs → s0 ≤ r < s1)
    by (intros r Hr; exact (wf_rs_range a s s0 s1 rs r Ha Hsl Hrs Hr)).
  rewrite (pad_atom_eq v st a s s0 s1 _ m rs arr _ Ha (Hcnt s Hs) Hm Hrs
             Hget Hrow);
    [|by rewrite length_replicate|done|done].
  destruct (take_idx_slice_ok v s0 s1 rs Hne Hrg) as (idx & vals & -> & E);
    [lia|].
  cbn [mbind option_bind]. rewrite E. by eexists.
Qed.

Lemma enumerate_sl_length : length (enumerate sl) = length atoms.
Proof using Hwf. by rewrite enumerate_length, sl_length. Qed.

Lemma pad_rows (v : list A) w a s m rs :
  pad_basis zero bp v = Some w →
  atoms !! a = Some s →
  mask_of bp atoms a s = Some m → rs_of bp atoms a s = Some rs →
  ∃ arr, get w s = Some arr ∧
         length arr = length (atoms_of s atoms) ∧
         arr !! rank atoms a s
         = Some (scatter_mask m (pick zero v rs) (replicate (length m) zero)).
Proof using Hwf.
  intros H Ha Hm Hrs. unfold pad_basis in H.
  destruct (pad_init v) as (co & Hco & Hinit). rewrite Hco in H.
  cbn [mbind option_bind] in H.
  destruct (foldlM _ _ _) as [[w' cnt]|] eqn:E; [|done].
  injection H as <-.
  apply (foldlM_inv _ (pad_inv zero bp v)) in E;
    [|done|intros; by eapply pad_step].
  destruct E as [_ Harr].
  assert (Hs : s ∈ atoms) by by eapply list_elem_of_lookup_2.
  destruct (Harr s Hs) as (arr & Hget & Hlen & Hdone & _).
  exists arr. split_and!; [done..|]. apply Hdone; try done.
  rewrite enumerate_sl_length. by eapply lookup_lt_Some.
Qed.

Lemma pad_basis_ok (v : list A) :
  length v = nao → is_Some (pad_basis zero bp v).
Proof using Hwf.
  intros Hv. unfold pad_basis.
  destruct (pad_init v) as (co & -> & Hinit). cbn [mbind option_bind].
  destruct (foldlM_total (pad_atom bp v) (pad_inv zero bp v)
              (enumerate sl) (co, (λ sym, (sym, 0)) <$> keys (indexing_l bp)))
    as [st ->]; [done| | |by eexists].
  - intros. by eapply pad_step_ok.
  - intros. by eapply pad_step.
Qed.

(** *** The unpadding loop *)

Lemma unpad_spec (coeff : dict (ndarray A)) :
  (∀ a s m, atoms !! a = Some s → mask_of bp atoms a s = Some m →
     ∃ row, row_of coeff atoms a s = Some row ∧ length row = length m) →
  ∃ out, unpad_basis zero bp coeff = Some out ∧ length out = nao ∧
    ∀ a s m rs row t r,
      atoms !! a = Some s → mask_of bp atoms a s = Some m →
      rs_of bp atoms a s = Some rs → row_of coeff atoms a s = Some row →
      rs !! t = Some r → out !! r = gather_mask m row !! t.
Proof using Hwf.
  intros Hshape. unfold unpad_basis.
  destruct (foldlM_run (unpad_atom bp coeff) (unpad_inv bp coeff)
              (enumerate sl)
              (replicate (length (ao_labels (mol bp))) zero,
               (λ sym, (sym, 0)) <$> keys (indexing_l bp)))
    as ([out cnt] & -> & Hlen & _ & Hout).
  - split_and!; cbn [fst snd].
    + unfold ao_labels. by rewrite length_replicate, length_fmap.
    + intros s Hs. rewrite (get_fmap_keys (λ _, 0)).
      rewrite decide_True by by apply (wf_keys _ Hwf). done.
    + intros; lia.
  - intros a x st Hx (Hlen & Hcnt & Hdone).
    apply enumerate_lookup in Hx as [Hx1 Hsl].
    destruct x as [a' [s0 s1]]. cbn [fst snd] in Hx1, Hsl. subst a'.
    destruct (sl_atom a s0 s1 Hsl) as [s Ha].
    destruct (wf_atom a s Ha)
      as (s0' & s1' & m & rs & Hsl' & Hle & Hnao & Hm & Hrs & Hc & Hp & Hne).
    assert (s0' = s0 ∧ s1' = s1) as [-> ->] by (split; congruence).
    assert (Hs : s ∈ atoms) by by eapply list_elem_of_lookup_2.
    destruct (Hshape a s m Ha Hm) as (row & Hrow & Hrl).
    assert (Hrg : ∀ r, r ∈ rs → s0 ≤ r < s1)
      by (intros r Hr; exact (wf_rs_range a s s0 s1 rs r Ha Hsl Hrs Hr)).
    rewrite (unpad_atom_eq coeff st a s s0 s1 _ m rs row Ha (Hcnt s Hs)
               Hm Hrs Hrow Hrl Hc Hne Hrg) by lia.
    eexists. split; [done|]. split_and!; cbn [fst snd].
    + by rewrite writes_length.
    + intros s' Hs'. rewrite get_set. destruct (decide (s = s')) as [<-|E].
      * rewrite (rank_snoc_same _ _ _ Ha). f_equal. lia.
      * rewrite (rank_snoc_other _ _ s' s Ha) by done. by apply Hcnt.
    + intros a' s' m' rs' row' t r Hlt Ha' Hm' Hrs' Hrow' Ht.
      destruct (decide (a' = a)) as [->|Hne'].
      * assert (s' = s) as -> by congruence.
        assert (m' = m) as -> by congruence.
        assert (rs' = rs) as -> by congruence.
        assert (row' = row) as -> by congruence.
        apply writes_lookup; [by rewrite Hp; apply NoDup_seq| |done|].
        -- rewrite gather_mask_length by done. done.
        -- destruct (Hrg r); [by eapply list_elem_of_lookup_2|]. lia.
      * assert (a' < a) as Hlt' by lia.
        destruct (wf_atom a' s' Ha')
          as (t0 & t1 & _ & _ & Hsl'' & _ & _ & _ & _ & _ & _ & _).
        pose proof (wf_rs_range a' s' t0 t1 rs' r Ha' Hsl'' Hrs'
                      ltac:(by eapply list_elem_of_lookup_2)).
        pose proof (sl_disjoint a a' s0 s1 t0 t1 Hlt' Hsl'' Hsl).
        rewrite writes_other; [by eapply Hdone|].
        intros Hr. apply Hrg in Hr. lia.
  - exists out. cbn [fmap option_fmap option_map fst]. split_and!; [done..|].
    intros a s m rs row t r Ha Hm Hrs Hrow Ht.
    eapply Hout; try done.
    rewrite enumerate_sl_length. by eapply lookup_lt_Some.
Qed.

End padder.
End PadFacts.

Module RoundTrip.
Import Py Np Pyscf BasisPadder Spec PyFacts InitFacts CtorFacts ScanFacts
  NpFacts PadFacts.

Lemma get_fmap_values {V W} (f : V → W) (d : dict V) k :
  get ((λ x : string * V, (x.1, f x.2)) <$> d) k = f <$> get d k.
Proof.
  induction d as [|[k0 v0] d IH]; [done|].
  rewrite fmap_cons. cbn [get fst snd]. by destruct (decide (k0 = k)).
Qed.

Lemma foldlM_ext {St X} (f g : St → X → option St) s xs :
  (∀ st x, f st x = g st x) → foldlM f s xs = foldlM g s xs.
Proof.
  intros H. revert s. induction xs as [|x xs IH]; intros s; [done|].
  cbn [foldlM]. rewrite H. destruct (g s x); [apply IH|done].
Qed.

Section padder.
Context {A : Type} (zero : A).

Lemma row_of_arr2 (w : dict (list (list A))) atoms a s :
  row_of (arr2_dict w) atoms a s = get w s ≫= (.!! rank atoms a s).
Proof.
  unfold row_of, arr2_dict. rewrite get_fmap_values.
  by destruct (get w s).
Qed.

(** [unpad_basis] only looks at the leading slab of each entry. *)
Lemma unpad_basis_ext bp (coeff coeff' : dict (ndarray A)) :
  (∀ s, get coeff s ≫= first_slab = get coeff' s ≫= first_slab) →
  unpad_basis zero bp coeff = unpad_basis zero bp coeff'.
Proof.
  intros H. unfold unpad_basis. f_equal. apply foldlM_ext.
  intros st [a [s0 s1]]. unfold unpad_atom.
  destruct (atom_pure_symbol (mol bp) !! a) as [s|]; [|done].
  cbn [mbind option_bind]. by rewrite H.
Qed.

Lemma first_slab_squeeze0 (a : ndarray A) :
  first_slab (squeeze0 a) = first_slab a.
Proof. by destruct a as [rows|[|slab slabs]]. Qed.

Variable bp : BasisPadder.t.
Hypothesis Hwf : wf bp.

Abbreviation atoms := (atom_pure_symbol (mol bp)).
Abbreviation sl := (aoslice_by_atom (mol bp)).
Abbreviation nao := (length (ao_labels_raw (mol bp))).

(** A slot of the index map belongs to an atom. *)
Lemma slot_atom s k m :
  get (indexing_l bp) s ≫= (.!! k) = Some m →
  ∃ a, atoms !! a = Some s ∧ rank atoms a s = k ∧
       mask_of bp atoms a s = Some m.
Proof using Hwf.
  intros H. destruct (get (indexing_l bp) s) as [ml|] eqn:Hml; [|done].
  cbn [mbind option_bind] in H.
  assert (Hs : s ∈ atoms).
  { apply (wf_keys _ Hwf). by eapply get_Some_keys. }
  destruct (wf_mask_width bp Hwf s ml k m Hs Hml H)
    as (N & L & _ & _ & _ & _ & Hlen).
  assert (is_Some (atoms_of s atoms !! k)) as [a Ha].
  { apply lookup_lt_is_Some_2. rewrite <- Hlen. by eapply lookup_lt_Some. }
  apply rank_atoms_of in Ha as [Ha Hk]. exists a. split_and!; [done..|].
  unfold mask_of. rewrite Hml, Hk. done.
Qed.

Lemma unpad_pad_wf (v : list A) :
  length v = nao →
  ∃ w, pad_basis zero bp v = Some w ∧
       unpad_basis zero bp (arr2_dict w) = Some v.
Proof using Hwf.
  intros Hv. destruct (pad_basis_ok zero bp Hwf v Hv) as [w Hw].
  exists w. split; [done|].
  destruct (unpad_spec zero bp Hwf (arr2_dict w)) as (out & -> & Hlen & Hout).
  { intros a s m Ha Hm.
    destruct (wf_atom bp Hwf a s Ha)
      as (s0 & s1 & m' & rs & _ & _ & _ & Hm' & Hrs & _).
    assert (m' = m) as -> by congruence.
    destruct (pad_rows zero bp Hwf v w a s m rs Hw Ha Hm Hrs)
      as (arr & Hget & _ & Hrow).
    eexists. rewrite row_of_arr2, Hget. split; [exact Hrow|].
    by rewrite scatter_mask_length, length_replicate. }
  f_equal. apply list_eq. intros i.
  destruct (decide (i < nao)) as [Hi|Hi].
  - destruct (sl_cover bp Hwf i Hi) as (a & s0 & s1 & Hsl & Hrg).
    destruct (sl_atom bp Hwf a s0 s1 Hsl) as [s Ha].
    destruct (wf_atom bp Hwf a s Ha)
      as (s0' & s1' & m & rs & Hsl' & _ & _ & Hm & Hrs & Hc & Hp & _).
    assert (s0' = s0 ∧ s1' = s1) as [-> ->] by (split; congruence).
    assert (i ∈ rs) as Hin by (rewrite Hp; apply elem_of_seq; lia).
    apply list_elem_of_lookup_1 in Hin as [t Ht].
    destruct (pad_rows zero bp Hwf v w a s m rs Hw Ha Hm Hrs)
      as (arr & Hget & _ & Hrow).
    rewrite (Hout a s m rs _ t i Ha Hm Hrs
               ltac:(rewrite row_of_arr2, Hget; exact Hrow) Ht).
    rewrite gather_scatter;
      [|by rewrite length_replicate|by rewrite pick_length].
    apply pick_lookup; [done|lia].
  - rewrite !lookup_ge_None_2 by lia. done.
Qed.

Lemma pad_zero_slots (v : list A) w sym k j :
  pad_basis zero bp v = Some w →
  slot (indexing_l bp) sym k j = Some false →
  slot w sym k j = Some zero.
Proof using Hwf.
  intros Hw H. unfold slot in *.
  destruct (get (indexing_l bp) sym ≫= (.!! k)) as [m|] eqn:Hm; [|done].
  cbn [mbind option_bind] in H.
  destruct (slot_atom sym k m Hm) as (a & Ha & <- & Hm').
  destruct (wf_atom bp Hwf a sym Ha)
    as (s0 & s1 & m' & rs & _ & _ & _ & Hm'' & Hrs & _).
  assert (m' = m) as -> by congruence.
  destruct (pad_rows zero bp Hwf v w a sym m rs Hw Ha Hm' Hrs)
    as (arr & -> & _ & Hrow).
  cbn [mbind option_bind]. rewrite Hrow. cbn [mbind option_bind].
  rewrite scatter_false_lookup by done.
  apply lookup_replicate_2. by eapply lookup_lt_Some.
Qed.

Lemma pad_unpad_wf (w : dict (list (list A))) :
  shaped bp w →
  ∃ v w', unpad_basis zero bp (arr2_dict w) = Some v ∧
          pad_basis zero bp v = Some w' ∧
          ∀ sym k j (b : bool),
            slot (indexing_l bp) sym k j = Some b →
            slot w' sym k j = if b then slot w sym k j else Some zero.
Proof using Hwf.
  intros Hsh.
  assert (Hshape : ∀ a s m, atoms !! a = Some s →
            mask_of bp atoms a s = Some m →
            ∃ row, row_of (arr2_dict w) atoms a s = Some row ∧
                   length row = length m).
  { intros a s m Ha Hm. unfold mask_of in Hm.
    destruct (get (indexing_l bp) s) as [ml|] eqn:Hml; [|done].
    cbn [mbind option_bind] in Hm.
    destruct (Hsh s ml Hml) as (arr & Hget & Hf).
    destruct (Forall2_lookup_l _ _ _ _ _ Hf Hm) as (row & Hrow & Hlen).
    exists row. rewrite row_of_arr2, Hget. done. }
  destruct (unpad_spec zero bp Hwf (arr2_dict w) Hshape)
    as (v & Hv & Hlen & Hout).
  destruct (pad_basis_ok zero bp Hwf v Hlen) as [w' Hw'].
  exists v, w'. split_and!; [done..|].
  intros sym k j b H. destruct b; [|by eapply pad_zero_slots].
  unfold slot in *.
  destruct (get (indexing_l bp) sym ≫= (.!! k)) as [m|] eqn:Hm; [|done].
  cbn [mbind option_bind] in H.
  destruct (slot_atom sym k m Hm) as (a & Ha & <- & Hm').
  destruct (wf_atom bp Hwf a sym Ha)
    as (s0 & s1 & m' & rs & Hsl & _ & Hs1 & Hm'' & Hrs & Hc & Hp & _).
  assert (m' = m) as -> by congruence.
  destruct (Hshape a sym m Ha Hm') as (row & Hrow & Hrl).
  destruct (pad_rows zero bp Hwf v w' a sym m rs Hw' Ha Hm' Hrs)
    as (arr & -> & _ & Hrow').
  cbn [mbind option_bind]. rewrite Hrow'. cbn [mbind option_bind].
  rewrite row_of_arr2 in Hrow. rewrite Hrow. cbn [mbind option_bind].
  assert (pick zero v rs = gather_mask m row) as ->.
  { apply list_eq. intros t.
    destruct (rs !! t) as [r|] eqn:Ht.
    - assert (r ∈ rs) as Hr by by eapply list_elem_of_lookup_2.
      pose proof (wf_rs_range bp Hwf a sym s0 s1 rs r Ha Hsl Hrs Hr).
      rewrite (pick_lookup zero v rs t r Ht) by lia.
      eapply Hout; try done. by rewrite row_of_arr2.
    - apply lookup_ge_None in Ht.
      rewrite !lookup_ge_None_2; [done| |].
      + rewrite gather_mask_length by done. lia.
      + rewrite pick_length. lia. }
  rewrite (scatter_gather_lookup m row _ j true);
    [done|by rewrite length_replicate|done|done].
Qed.

End padder.
End RoundTrip.

(** * The species-agnostic split of [PySCFProjector] *)

Module ProjectorFacts.
Import Py Np Pyscf BasisPadder Spec PyFacts PySCFProjector RoundTrip.

Section dict.
Context {V : Type}.
Implicit Types (d : dict V) (k : string).

Lemma keys_set d k v :
  keys (set d k v) = if mem d k then keys d else keys d ++ [k].
Proof.
  unfold mem, keys. induction d as [|[k0 v0] d IH]; [done|].
  cbn [set get]. destruct (decide (k0 = k)) as [->|Hne]; [done|].
  rewrite !fmap_cons, IH. cbn [fst]. by destruct (get d k).
Qed.

Lemma NoDup_keys_set d k v : NoDup (keys d) → NoDup (keys (set d k v)).
Proof.
  intros H. rewrite keys_set. unfold mem.
  destruct (get d k) eqn:E; [done|].
  apply get_None_keys in E. apply NoDup_app. split_and!; [done| |].
  - intros x Hx ->%list_elem_of_singleton. done.
  - apply NoDup_singleton.
Qed.

Lemma pop_spec d k :
  NoDup (keys d) → is_Some (get d k) →
  ∃ d', pop d k = Some d' ∧ get d' k = None ∧
        ∀ k', k' ≠ k → get d' k' = get d k'.
Proof.
  unfold keys. induction d as [|[k0 v0] d IH]; intros Hnd Hk.
  - by destruct Hk.
  - rewrite fmap_cons in Hnd. apply NoDup_cons in Hnd as [Hk0 Hnd].
    cbn [pop get] in *. destruct (decide (k0 = k)) as [->|Hne].
    + exists d. split_and!; [done| |].
      * by apply get_None_keys.
      * intros k' Hk'. by rewrite decide_False.
    + destruct (IH Hnd Hk) as (d' & -> & Hn & Ho).
      exists ((k0, v0) :: d'). cbn [mbind option_bind get]. split_and!.
      * done.
      * by rewrite decide_False.
      * intros k' Hk'. destruct (decide (k0 = k')); [done|]. by apply Ho.
Qed.
End dict.

Section projector.
Context {A : Type} (zero : A).
Context {DM V : Type}.
Variable get_coeff : DM → list A.
Variable sub_dm_init : DM → DM.
Variable einsum_V : list A → V.

Abbreviation heapA := (gmap loc (dict (ndarray A))).

Lemma bind_getitem {Y} (r : loc) k (f : ndarray A → prog Y) (h : heapA) d x :
  h !! r = Some d → get d k = Some x →
  bind (dict_getitem r k) f h = f x h.
Proof.
  intros Hr Hk. unfold bind, dict_getitem. rewrite Hr.
  cbn [mbind option_bind]. by rewrite Hk.
Qed.

Lemma bind_setitem {Y} (r : loc) k v (f : unit → prog Y) (h : heapA) d :
  h !! r = Some d →
  bind (dict_setitem r k v) f h = f () (<[r := set d k v]> h).
Proof. intros Hr. unfold bind, dict_setitem. by rewrite Hr. Qed.

(** The loop completes whenever the dictionary has the key ['X']; it keeps
    that key and all others, and gives every species an entry. *)
Lemma split_loop_run (r : loc) part i (h : heapA) d :
  h !! r = Some d → NoDup (keys d) → is_Some (get d "X") →
  ∃ d', split_loop r part i h = (<[r := d']> h, Some ()) ∧
        NoDup (keys d') ∧ is_Some (get d' "X") ∧
        (∀ sym, sym ∈ keys part → is_Some (get d' sym)) ∧
        (∀ k, is_Some (get d k) → is_Some (get d' k)).
Proof.
  revert i h d. induction part as [|[sym n] part IH]; intros i h d Hr Hnd HX.
  - exists d. cbn [split_loop]. unfold ret. rewrite insert_id by done.
    split_and!; try done. intros sym Hs. by apply elem_of_nil in Hs.
  - cbn [split_loop]. destruct HX as [X HX].
    rewrite (bind_getitem r "X" _ h d X Hr HX).
    rewrite (bind_setitem r sym _ _ h d Hr).
    set (d1 := set d sym (slice_axis1 X i (i + n))).
    destruct (IH (i + n) (<[r := d1]> h) d1) as (d' & E & Hnd' & HX' & Hsym & Hk).
    + by rewrite lookup_insert_eq.
    + by apply NoDup_keys_set.
    + subst d1. rewrite get_set. case_decide; by eexists.
    + exists d'. rewrite E, insert_insert_eq. split_and!; try done.
      * intros s Hs. unfold keys in Hs. rewrite fmap_cons in Hs.
        cbn [fst] in Hs. apply elem_of_cons in Hs as [->|Hs].
        -- apply Hk. subst d1. rewrite get_set_eq. by eexists.
        -- by apply Hsym.
      * intros k Hd. apply Hk. subst d1. rewrite get_set.
        case_decide; [by eexists|done].
Qed.

(** The values stored by the loop when no species is called ['X']. *)
Lemma split_loop_values (r : loc) part i (h : heapA) d X :
  h !! r = Some d → get d "X" = Some X → "X" ∉ keys part →
  NoDup (keys part) →
  ∃ d', split_loop r part i h = (<[r := d']> h, Some ()) ∧
        get d' "X" = Some X ∧
        (∀ sym, sym ∉ keys part → get d' sym = get d sym) ∧
        (∀ j sym n, part !! j = Some (sym, n) →
           get d' sym
           = Some (slice_axis1 X (i + sum_list (take j part.*2))
                     (i + sum_list (take j part.*2) + n))).
Proof.
  revert i h d. induction part as [|[sym n] part IH];
    intros i h d Hr HX HnX Hnd.
  - exists d. cbn [split_loop]. unfold ret. rewrite insert_id by done.
    split_and!; try done.
  - unfold keys in HnX, Hnd. rewrite fmap_cons in HnX, Hnd. cbn [fst] in *.
    apply not_elem_of_cons in HnX as [HnX1 HnX].
    apply NoDup_cons in Hnd as [Hsym Hnd].
    cbn [split_loop].
    rewrite (bind_getitem r "X" _ h d X Hr HX).
    rewrite (bind_setitem r sym _ _ h d Hr).
    set (d1 := set d sym (slice_axis1 X i (i + n))).
    destruct (IH (i + n) (<[r := d1]> h) d1) as (d' & E & HX' & Hother & Hval).
    + by rewrite lookup_insert_eq.
    + subst d1. by rewrite get_set_ne.
    + done.
    + done.
    + exists d'. rewrite E, insert_insert_eq. split_and!; try done.
      * intros s Hs. unfold keys in Hs. rewrite fmap_cons in Hs.
        cbn [fst] in Hs. apply not_elem_of_cons in Hs as [Hne Hs].
        rewrite Hother by done. subst d1. by rewrite get_set_ne.
      * intros j s m Hj. destruct j as [|j].
        -- simpl in Hj. injection Hj as <- <-.
           rewrite Hother by done. subst d1. rewrite get_set_eq.
           simpl. by rewrite Nat.add_0_r.
        -- simpl in Hj. rewrite (Hval j s m Hj), fmap_cons. cbn [take snd].
           assert (∀ (x : nat) l, sum_list (x :: l) = x + sum_list l) as Hc
             by done.
           rewrite Hc. do 2 f_equal; lia.
Qed.

(** After the split the dictionary is only read. *)
Lemma get_V_tail (self : PySCFProjector.t) (r : loc) (h : heapA) :
  (bind (deref r) (λ d,
   bind (lift (unpad_basis zero (bp self) d)) (λ flat,
   ret (einsum_V flat))) h).1 = h.
Proof.
  unfold bind, deref, lift, ret. destruct (h !! r) as [d|]; [|done].
  by destruct (unpad_basis zero (bp self) d).
Qed.

Lemma get_V_agnostic_heap (self : PySCFProjector.t) part (r : loc)
    (h : heapA) (d1 d2 : dict (ndarray A)) :
  spec_agnostic self = true → spec_partition self = Some part →
  split_loop r part 0 h = (<[r := d1]> h, Some ()) →
  pop d1 "X" = Some d2 →
  (get_V zero einsum_V self r h).1 = <[r := d2]> h.
Proof.
  intros Hag Hpart Hsplit Hpop. unfold get_V. rewrite Hag, Hpart.
  unfold bind at 1.
  assert (bind (lift (Some part))
            (λ part0, bind (split_loop r part0 0) (λ _, dict_pop r "X")) h
          = (<[r := d2]> h, Some ())) as ->.
  { unfold bind, lift. rewrite Hsplit. unfold dict_pop.
    rewrite lookup_insert_eq. cbn [mbind option_bind]. rewrite Hpop.
    by rewrite insert_insert_eq. }
  apply get_V_tail.
Qed.

Lemma forallb_same_length {B} (r : list B) (rows : list (list B)) W :
  length r = W → Forall (λ row, length row = W) rows →
  forallb (λ r', bool_decide (length r' = length r)) rows = true.
Proof.
  intros Hr. induction 1 as [|x rows Hx _ IH]; [done|].
  cbn [forallb]. rewrite IH, bool_decide_eq_true_2; [done|congruence].
Qed.

Lemma concatenate0_uniform (arrs : list (list (list A))) W :
  arrs ≠ [] → Forall (Forall (λ row, length row = W)) arrs →
  concatenate0 arrs = Some (concat arrs).
Proof.
  intros Hne HW. unfold concatenate0. destruct arrs as [|a arrs]; [done|].
  assert (Forall (λ row, length row = W) (concat (a :: arrs))) as Hall.
  { apply Forall_concat. done. }
  destruct (concat (a :: arrs)) as [|r rows] eqn:E; [done|].
  rewrite (forallb_same_length r (r :: rows) W); [done| |done].
  by apply Forall_cons in Hall as [? _].
Qed.

Lemma slice_concat {B} (l : list (list B)) j x :
  l !! j = Some x →
  slice (concat l) (sum_list (take j (length <$> l)))
        (sum_list (take j (length <$> l)) + length x) = x.
Proof.
  unfold slice. revert j. induction l as [|y l IH]; intros j Hj; [done|].
  destruct j as [|j]; simpl in Hj.
  - injection Hj as ->. simpl. rewrite Nat.sub_0_r, drop_0.
    by rewrite take_app_length.
  - rewrite fmap_cons. cbn [take concat].
    assert (∀ (n : nat) k, sum_list (n :: k) = n + sum_list k) as Hc by done.
    rewrite Hc, drop_app_add.
    replace (length y + sum_list (take j (length <$> l)) + length x
             - (length y + sum_list (take j (length <$> l))))
      with (sum_list (take j (length <$> l)) + length x
            - sum_list (take j (length <$> l))) by lia.
    by apply IH.
Qed.

End projector.
End ProjectorFacts.

(** * [GaussianProjector.get_basis_rep] *)

Module GaussianFacts.
Import Py GaussianProjector.

Lemma zip_take_min {X Y} (xs : list X) (ys : list Y) :
  zip xs ys
  = zip (take (length xs `min` length ys) xs)
        (take (length xs `min` length ys) ys).
Proof.
  revert ys. induction xs as [|x xs IH]; intros [|y ys]; try done.
  cbn [length Nat.min take zip_with]. f_equal. apply IH.
Qed.

Section projector.
Context {Rho Pos Basis Coef Angs : Type}.
Variable fmt_idx : string → Pos → option string.
Variable project_body : Rho → Pos → Basis → string → option (list Coef).

Abbreviation projector := (@GaussianProjector.t Basis Angs).

(** The loop's result does not depend on the cache it starts from, on the
    memory flag, or on anything of the projector but its basis tables. *)
Lemma rep_loop_out m m' (self self' : projector) rho atoms cache cache' br :
  basis self = basis self' → basis_strings self = basis_strings self' →
  (rep_loop fmt_idx project_body m self rho atoms cache br).2
  = (rep_loop fmt_idx project_body m' self' rho atoms cache' br).2.
Proof.
  intros Hb Hs. revert cache cache' br.
  induction atoms as [|[pos spec] atoms IH]; intros cache cache' br; [done|].
  cbn [rep_loop]. unfold project. rewrite <- Hb, <- Hs.
  destruct (fmt_idx spec pos) as [idx|]; [|done]. cbn [mbind option_bind].
  destruct (get (basis self) spec) as [b|]; [|done]. cbn [mbind option_bind].
  destruct (get (basis_strings self) spec) as [bs|]; [|done].
  cbn [mbind option_bind].
  destruct (project_body rho pos b bs) as [coeff|]; [|done].
  cbn [mbind option_bind]. apply IH.
Qed.

Lemma get_basis_rep_out m m' (self self' : projector) rho positions species :
  basis self = basis self' → basis_strings self = basis_strings self' →
  (get_basis_rep fmt_idx project_body m self rho positions species).2
  = (get_basis_rep fmt_idx project_body m' self' rho positions species).2.
Proof.
  intros Hb Hs. unfold get_basis_rep.
  pose proof (rep_loop_out m m' self self' rho (zip positions species)
                (all_angs self) (all_angs self') [] Hb Hs) as H.
  destruct (rep_loop _ _ m self _ _ _ _) as [c1 r1].
  destruct (rep_loop _ _ m' self' _ _ _ _) as [c2 r2].
  cbn [snd] in *. by rewrite H.
Qed.

Lemma get_basis_rep_tables m (self : projector) rho positions species :
  let self' := (get_basis_rep fmt_idx project_body m self rho positions
                  species).1 in
  basis self' = basis self ∧ basis_strings self' = basis_strings self.
Proof.
  cbn zeta. unfold get_basis_rep. by destruct (rep_loop _ _ _ _ _ _ _ _).
Qed.

End projector.
End GaussianFacts.

(** * The radial function [g] *)

Module RadialFacts.
Import Py GaussianProjector Spec.
#[local] Open Scope R_scope.

Lemma zip_with_fmap_same {X Y Z W} (f : Y → Z → W) (g : X → Y) (h : X → Z)
    (l : list X) :
  zip_with f (g <$> l) (h <$> l) = (λ x, f (g x) (h x)) <$> l.
Proof. induction l as [|x l IH]; [done|]. cbn. by rewrite IH. Qed.

Lemma zip_with_self_fmap {X Y W} (f : X → Y → W) (g : X → Y) (l : list X) :
  zip_with f l (g <$> l) = (λ x, f x (g x)) <$> l.
Proof. induction l as [|x l IH]; [done|]. cbn. by rewrite IH. Qed.

Lemma sqrt_PI_pos : 0 < sqrt PI.
Proof. apply sqrt_lt_R0, PI_RGT_0. Qed.

Lemma GAMMA_closed_form l :
  (l ≤ 6)%nat → GAMMA !! l = Some (gamma_half l).
Proof.
  intros H. unfold GAMMA, gamma_half.
  do 7 (destruct l as [|l];
        [cbn [fmap list_fmap lookup list_lookup]; f_equal;
         match goal with
         | |- context [odd_fact ?n] =>
             let z := eval vm_compute in (odd_fact n) in
             change (odd_fact n) with z
         end;
         cbn [Nat.add pow]; field|]).
  lia.
Qed.

Lemma gamma_half_pos l : 0 < gamma_half l.
Proof.
  unfold gamma_half. apply Rmult_lt_0_compat; [|apply sqrt_PI_pos].
  apply Rdiv_lt_0_compat.
  - apply IZR_lt. induction l as [|l IH]; cbn [odd_fact]; lia.
  - apply pow_lt. lra.
Qed.

Lemma norm_const_pos a l : 0 < norm_const a l.
Proof.
  unfold norm_const. apply Rdiv_lt_0_compat.
  - apply Rmult_lt_0_compat; [apply exp_pos|]. apply sqrt_lt_R0. lra.
  - apply sqrt_lt_R0, gamma_half_pos.
Qed.

Lemma norm_term_closed a l :
  (l ≤ 6)%nat → norm_term a l = Some (norm_const a l).
Proof.
  intros H. unfold norm_term. by rewrite GAMMA_closed_form.
Qed.

(** The accumulation loop. *)
Lemma g_loop r l ac N0 (F0 : R → R) :
  (l ≤ 6)%nat →
  ∃ F, foldlM (g_step r l) (N0, F0 <$> r) ac
       = Some (N0 + sum_norm l ac, F <$> r) ∧
       ∀ x, F x = F0 x + contraction ac x.
Proof.
  intros Hl. revert N0 F0. induction ac as [|[a c] ac IH]; intros N0 F0.
  - exists F0. cbn [foldlM sum_norm contraction]. split.
    + by rewrite Rplus_0_r.
    + intros x. lra.
  - assert (g_step r l (N0, F0 <$> r) (a, c)
            = Some (N0 + norm_const a l,
                    (λ x, F0 x + exp (- a * x ^ 2) * c) <$> r)) as Hs.
    { unfold g_step. cbn [fst snd]. rewrite norm_term_closed by done.
      cbn [mbind option_bind]. by rewrite zip_with_fmap_same. }
    cbn [foldlM]. rewrite Hs. cbn [mbind option_bind].
    destruct (IH (N0 + norm_const a l)
                 (λ x, F0 x + exp (- a * x ^ 2) * c)) as (F & -> & HF).
    exists F. cbn [sum_norm contraction fst snd]. split.
    + do 2 f_equal. lra.
    + intros x. rewrite HF. lra.
Qed.

(** Closed form of [g]. *)
Lemma g_eq r r_o alpha l coeff M :
  np_max r_o = Some M → (l ≤ 6)%nat →
  g r r_o alpha l coeff = Some (g_value M l (zip alpha coeff) <$> r).
Proof.
  intros HM Hl. unfold g. rewrite HM. cbn [mbind option_bind].
  destruct (g_loop r l (zip alpha coeff) 0 (λ _, 0) Hl) as (F & -> & HF).
  cbn [mbind option_bind fst snd]. f_equal.
  rewrite zip_with_self_fmap, zip_with_fmap_same, zip_with_self_fmap.
  apply list_fmap_ext. intros i x _. unfold g_value.
  destruct (Rgt_dec x M); [done|].
  rewrite HF. unfold envelope. lra.
Qed.

Lemma contraction_at_origin ac : contraction ac 0 = sum_coeff ac.
Proof.
  induction ac as [|[a c] ac IH]; [done|].
  cbn [contraction sum_coeff fst snd]. rewrite IH.
  replace (- a * 0 ^ 2) with 0 by (simpl; ring). rewrite exp_0. lra.
Qed.

Lemma envelope_at_cutoff M : M ≠ 0 → envelope M M = 0.
Proof.
  intros HM. unfold envelope.
  replace (PI * M / M) with PI by (field; done).
  rewrite cos_PI. simpl. lra.
Qed.

Lemma envelope_at_origin M : envelope M 0 = 1.
Proof.
  unfold envelope. replace (PI * 0 / M) with 0 by (unfold Rdiv; ring).
  rewrite cos_0. simpl. lra.
Qed.

End RadialFacts.

(** * The padding round trips *)

Module PadderClaims.
Import Py Np Pyscf BasisPadder Spec PyFacts WfFacts RoundTrip Examples.

Lemma licit_intro basis mname atoms :
  Forall (λ s, nospace s ∧ basis s ≠ [] ∧ NoDup (basis s) ∧
               Forall (λ nl : nat * nat, 1 ≤ nl.1 ∧ nl.2 ≤ 6) (basis s))
         atoms →
  (∀ l m, nospace (mname l m)) →
  licit basis mname atoms.
Proof.
  intros H Hm. rewrite Forall_forall in H.
  split; [| done | | |].
  - intros s Hs. by apply H.
  - intros s Hs. by apply H.
  - intros s Hs. by apply H.
  - intros s nl Hs Hnl. destruct (H s Hs) as (_ & _ & _ & Hr).
    rewrite Forall_forall in Hr. by apply Hr.
Qed.

Lemma cart_name_nospace l m : nospace (cart_name l m).
Proof.
  unfold nospace, cart_name.
  destruct l as [|[|l]]; [by apply not_elem_of_nil| |by apply not_elem_of_nil].
  destruct m as [|[|[|[|m]]]]; apply (bool_decide_unpack _); vm_compute; exact I.
Qed.

Lemma get_fmap_keyed {V W} (f : string → V → W) (d : dict V) k :
  get ((λ x : string * V, (x.1, f x.1 x.2)) <$> d) k = f k <$> get d k.
Proof.
  induction d as [|[k0 v0] d IH]; [done|].
  rewrite fmap_cons. cbn [get fst snd].
  destruct (decide (k0 = k)) as [->|]; [done|apply IH].
Qed.

Lemma water_licit : licit sp_basis cart_name water.
Proof.
  apply licit_intro; [|apply cart_name_nospace].
  apply (bool_decide_unpack _). vm_compute. exact I.
Qed.

Lemma water_s_licit : licit s_basis cart_name water.
Proof.
  apply licit_intro; [|apply cart_name_nospace].
  apply (bool_decide_unpack _). vm_compute. exact I.
Qed.

(** C1: for a padder constructed from a geometry in which every species
    present has at least one basis function (species and function names
    without blanks, no shell listed twice, shell numbers from 1, angular
    momenta up to 6), and every flat coefficient vector [v] with one entry
    per atomic-orbital label, the constructor succeeds, [pad_basis v]
    succeeds, and [unpad_basis] of the padded mapping returns [v]
    itself. *)
Theorem unpad_pad_round_trip {A : Type} (zero : A) basis mname atoms
    (v : list A) :
  licit basis mname atoms →
  length v = length (ao_labels (M basis mname atoms)) →
  ∃ bp w, __init__ (M basis mname atoms) = Some bp ∧
          pad_basis zero bp v = Some w ∧
          unpad_basis zero bp (arr2_dict w) = Some v.
Proof.
  intros Hlic Hlen.
  destruct (init_wf basis mname atoms Hlic) as (bp & Hinit & Hwf & Hmol).
  destruct (unpad_pad_wf zero bp Hwf v) as (w & Hpad & Hunpad).
  { rewrite Hmol. unfold ao_labels in Hlen. by rewrite length_fmap in Hlen. }
  by exists bp, w.
Qed.

Lemma unpad_pad_round_trip_water :
  licit sp_basis cart_name water ∧
  length water_coeff = length (ao_labels (M sp_basis cart_name water)) ∧
  ∃ bp w, __init__ (M sp_basis cart_name water) = Some bp ∧
          pad_basis 0 bp water_coeff = Some w ∧
          unpad_basis 0 bp (arr2_dict w) = Some water_coeff.
Proof.
  split; [exact water_licit|]. split; [vm_compute; reflexivity|].
  apply (unpad_pad_round_trip 0 sp_basis cart_name water water_coeff).
  - exact water_licit.
  - vm_compute. reflexivity.
Defined.

(** The claim C1 as stated fails for a padder of a geometry with atoms
    that carry no basis function (water with functions on the oxygen
    only): the constructor returns a padder, and [pad_basis] raises on the
    vector with one entry per label, so that nothing is left to unpad. *)
Lemma round_trip_species_without_functions :
  ∃ bp, __init__ (M MoreExamples.ghost_basis cart_name water) = Some bp ∧
        length [5]
        = length (ao_labels (M MoreExamples.ghost_basis cart_name water)) ∧
        pad_basis 0 bp [5] = None.
Proof.
  exists MoreExamples.ghost_padder.
  split; [vm_compute; reflexivity|]. split; vm_compute; reflexivity.
Qed.


(** C6: for a padder constructed from a geometry in which every species
    present has at least one basis function (species and function names
    without blanks, no shell listed twice, shell numbers from 1, angular
    momenta up to 6), and a padded mapping [w] of the per-species shapes,
    [unpad_basis w] and [pad_basis] of the result succeed and give a
    mapping equal to [w] at every slot where [indexing_l] is [True] and to
    zero at every slot where it is [False]; and any output of [pad_basis]
    is zero at every slot where [indexing_l] is [False]. *)
Theorem pad_unpad_populated_slots {A : Type} (zero : A) basis mname atoms :
  licit basis mname atoms →
  ∃ bp, __init__ (M basis mname atoms) = Some bp ∧
    (∀ w, shaped bp w →
       ∃ v w', unpad_basis zero bp (arr2_dict w) = Some v ∧
               pad_basis zero bp v = Some w' ∧
               ∀ sym k j b, slot (indexing_l bp) sym k j = Some b →
                 slot w' sym k j = if b then slot w sym k j else Some zero) ∧
    (∀ v w sym k j,
       pad_basis zero bp v = Some w →
       slot (indexing_l bp) sym k j = Some false →
       slot w sym k j = Some zero).
Proof.
  intros Hlic.
  destruct (init_wf basis mname atoms Hlic) as (bp & Hinit & Hwf & Hmol).
  exists bp. split_and!; [done| |].
  - intros w Hw. by apply pad_unpad_wf.
  - intros v w sym k j. by apply pad_zero_slots.
Qed.

Lemma pad_unpad_populated_slots_water :
  ∃ bp, __init__ (M sp_basis cart_name water) = Some bp ∧
    (∀ w, shaped bp w →
       ∃ v w', unpad_basis 0 bp (arr2_dict w) = Some v ∧
               pad_basis 0 bp v = Some w' ∧
               ∀ sym k j b, slot (indexing_l bp) sym k j = Some b →
                 slot w' sym k j = if b then slot w sym k j else Some 0) ∧
    (∀ v w sym k j,
       pad_basis 0 bp v = Some w →
       slot (indexing_l bp) sym k j = Some false →
       slot w sym k j = Some 0).
Proof.
  apply (pad_unpad_populated_slots 0 sp_basis cart_name water).
  exact water_licit.
Defined.

(** The claim C6 as stated fails for a padder of a geometry with atoms
    that carry no basis function: a mapping of the padder's per-species
    shapes exists, and [unpad_basis] raises on it, so that nothing is left
    to pad again. *)
Lemma re_padding_species_without_functions :
  ∃ bp (w : dict (list (list nat))),
    __init__ (M MoreExamples.ghost_basis cart_name water) = Some bp ∧
    shaped bp w ∧
    unpad_basis 0 bp (arr2_dict w) = None.
Proof.
  exists MoreExamples.ghost_padder, [("O", [[5]])].
  split; [vm_compute; reflexivity|]. split; [|vm_compute; reflexivity].
  intros s ml Hs.
  assert (indexing_l MoreExamples.ghost_padder = [("O", [[true]])]) as Hl
    by (vm_compute; reflexivity).
  rewrite Hl in Hs. cbn [get] in Hs.
  destruct (decide ("O" = s)) as [<-|]; [|done].
  injection Hs as <-. exists [[5]]. split; [reflexivity|].
  repeat constructor.
Qed.

(** C10: for a padder constructed from a geometry in which every species
    present has at least one basis function (species and function names
    without blanks, no shell listed twice, shell numbers from 1, angular
    momenta up to 6), a padded mapping [w] of the per-species shapes, and
    a mapping [coeff] that gives for each species either the 2-D array of
    [w] or a 3-D array whose slab 0 is the array of [w]: [unpad_basis]
    accepts [coeff], as it accepts the mapping of 3-D arrays that lead
    with the arrays of [w] and go on with any other slabs; its result is
    the result for the 2-D arrays of [w], whatever the slabs after slab 0
    hold; and the result carries the entries of slab 0, since padding it
    again gives back [w] at every slot where [indexing_l] is [True]. *)
Theorem unpad_basis_gathers_slab0 {A : Type} (zero : A) basis mname atoms :
  licit basis mname atoms →
  ∃ bp, __init__ (M basis mname atoms) = Some bp ∧
    ∀ (w : dict (list (list A))) (coeff : dict (ndarray A)),
      shaped bp w →
      (∀ s, get coeff s ≫= first_slab = get w s) →
      ∃ u w', unpad_basis zero bp coeff = Some u ∧
              (∀ rest, unpad_basis zero bp (arr3_dict rest w) = Some u) ∧
              unpad_basis zero bp (arr2_dict w) = Some u ∧
              pad_basis zero bp u = Some w' ∧
              ∀ sym k j, slot (indexing_l bp) sym k j = Some true →
                slot w' sym k j = slot w sym k j.
Proof.
  intros Hlic.
  destruct (init_wf basis mname atoms Hlic) as (bp & Hinit & Hwf & Hmol).
  exists bp. split; [done|]. intros w coeff Hw Hc.
  destruct (pad_unpad_wf zero bp Hwf w Hw) as (u & w' & Hu & Hp & Hslots).
  exists u, w'. split_and!; [| |done|done|].
  - rewrite <- Hu. apply unpad_basis_ext. intros s. rewrite Hc.
    unfold arr2_dict. rewrite get_fmap_values. by destruct (get w s).
  - intros rest. rewrite <- Hu. apply unpad_basis_ext. intros s.
    unfold arr3_dict, arr2_dict.
    rewrite (get_fmap_keyed (λ k a, Arr3 (a :: rest k))), get_fmap_values.
    by destruct (get w s).
  - intros sym k j Hb. apply (Hslots sym k j true Hb).
Qed.

Lemma unpad_basis_gathers_slab0_water :
  ∃ bp, __init__ (M sp_basis cart_name water) = Some bp ∧
    ∀ (w : dict (list (list nat))) (coeff : dict (ndarray nat)),
      shaped bp w →
      (∀ s, get coeff s ≫= first_slab = get w s) →
      ∃ u w', unpad_basis 0 bp coeff = Some u ∧
              (∀ rest, unpad_basis 0 bp (arr3_dict rest w) = Some u) ∧
              unpad_basis 0 bp (arr2_dict w) = Some u ∧
              pad_basis 0 bp u = Some w' ∧
              ∀ sym k j, slot (indexing_l bp) sym k j = Some true →
                slot w' sym k j = slot w sym k j.
Proof.
  apply (unpad_basis_gathers_slab0 0 sp_basis cart_name water).
  exact water_licit.
Defined.

(** The claim C10 as stated fails for 3-D arrays without a slab, which
    [unpad_basis] refuses on the padder of water with one function per
    atom, and for the padder of a geometry with atoms that carry no basis
    function, which refuses 2-D and 3-D arrays alike. *)
Lemma unpad_basis_refused_arrays :
  (__init__ (M s_basis cart_name water) = Some water_s_padder ∧
   unpad_basis 0 water_s_padder [("O", Arr3 []); ("H", Arr3 [])] = None) ∧
  (∃ bp, __init__ (M MoreExamples.ghost_basis cart_name water) = Some bp ∧
         unpad_basis 0 bp [("O", Arr3 [[[5]]]); ("H", Arr3 [[[6]; [7]]])]
         = None ∧
         unpad_basis 0 bp [("O", Arr2 [[5]]); ("H", Arr2 [[6]; [7]])]
         = None).
Proof.
  split; [split; vm_compute; reflexivity|].
  exists MoreExamples.ghost_padder. split_and!; vm_compute; reflexivity.
Qed.

(** A run of [unpad_basis] on 3-D input: the second slab of the oxygen
    stack is not read. *)
Example unpad_basis_3d :
  unpad_basis 0 water_s_padder
    [("O", Arr3 [[[5]]; [[8]]]); ("H", Arr3 [[[6]; [7]]])]
  = Some [5; 6; 7].
Proof. vm_compute. reflexivity. Qed.

End PadderClaims.

(** * The species-agnostic concatenation and split *)

Module ProjectorClaims.
Import Py Np Pyscf BasisPadder Spec PyFacts RoundTrip ProjectorFacts Examples.
Import PySCFProjector.

Lemma get_Some_lookup {V} (d : dict V) k v :
  get d k = Some v → ∃ j, d !! j = Some (k, v).
Proof.
  induction d as [|[k0 v0] d IH]; [done|]. cbn [get].
  destruct (decide (k0 = k)) as [->|Hne].
  - intros [= ->]. by exists 0.
  - intros [j Hj]%IH. by exists (S j).
Qed.

Lemma keys_fmap_keyed {V W} (f : string * V → W) (d : dict V) :
  keys ((λ x, (x.1, f x)) <$> d) = keys d.
Proof.
  unfold keys. rewrite <- list_fmap_compose. by apply list_fmap_ext.
Qed.

Lemma insert_heap_inj {X} (h : gmap loc X) r (d1 d2 : X) :
  <[r := d1]> h = <[r := d2]> h → d1 = d2.
Proof.
  intros E. assert (<[r := d1]> h !! r = <[r := d2]> h !! r) as E'
    by by rewrite E.
  rewrite !lookup_insert_eq in E'. by injection E'.
Qed.

(** C2: in species-agnostic mode [get_basis_rep] stacks the per-species
    padded arrays along the atom axis under the key ['X'] and records every
    species' number of rows; [get_V] cuts the combined array along its
    second axis at the recorded boundaries.  When the combined gradient is
    a stack of [m] copies of the concatenated array (a leading system axis
    in front of the atom axis), the entry [get_V] stores for each species
    is the stack of [m] copies of that species' original padded array. *)
Theorem split_of_stacked_concatenation {A : Type} (zero : A) {DM V : Type}
    (get_coeff : DM → list A) (sub_dm_init : DM → DM)
    (einsum_V : list A → V) (self : PySCFProjector.t) (dm : DM)
    (coeff : dict (list (list A))) (W : nat) :
  spec_agnostic self = true →
  pad_basis zero (bp self)
    (get_coeff (if delta self then sub_dm_init dm else dm)) = Some coeff →
  coeff ≠ [] → NoDup (keys coeff) → "X" ∉ keys coeff →
  Forall (λ x : string * list (list A),
            Forall (λ row, length row = W) x.2) coeff →
  ∃ self' X,
    get_basis_rep zero get_coeff sub_dm_init self dm
      = (self', Some [("X", X)]) ∧
    X = concat coeff.*2 ∧
    spec_partition self'
      = Some ((λ x : string * list (list A), (x.1, length x.2)) <$> coeff) ∧
    ∀ (h : gmap loc (dict (ndarray A))) (r : loc) d m,
      h !! r = Some d → NoDup (keys d) →
      get d "X" = Some (Arr3 (replicate m X)) →
      ∃ d', (get_V zero einsum_V self' r h).1 = <[r := d']> h ∧
            get d' "X" = None ∧
            ∀ sym arr, get coeff sym = Some arr →
                       get d' sym = Some (Arr3 (replicate m arr)).
Proof.
  intros Hag Hpad Hne Hnd HX HW.
  set (part := (λ x : string * list (list A), (x.1, length x.2)) <$> coeff).
  set (self' := {| spec_agnostic := spec_agnostic self; delta := delta self;
                   bp := bp self; spec_partition := Some part |}).
  exists self', (concat coeff.*2). split_and!; [|done|done|].
  - unfold get_basis_rep. cbn zeta. rewrite Hpad, Hag.
    rewrite (concatenate0_uniform _ W).
    + unfold self', part. by rewrite Hag.
    + by destruct coeff.
    + apply Forall_fmap. by apply (Forall_impl _ _ _ HW).
  - intros h r d m Hr Hd Hd'.
    assert (keys part = keys coeff) as Hkeys by apply keys_fmap_keyed.
    destruct (split_loop_values r part 0 h d _ Hr Hd')
      as (d1 & E1 & HX1 & _ & Hval); [by rewrite Hkeys..|].
    destruct (split_loop_run r part 0 h d Hr Hd)
      as (d1' & E1' & Hnd1 & _); [by eexists|].
    assert (d1' = d1) as ->.
    { rewrite E1 in E1'. injection E1' as E1'.
      by apply eq_sym, insert_heap_inj in E1'. }
    destruct (pop_spec d1 "X" Hnd1) as (d2 & Hpop & Hnone & Hother);
      [by eexists|].
    exists d2. split_and!; [|done|].
    + by apply (get_V_agnostic_heap zero einsum_V self' part r h d1 d2).
    + intros sym arr Hsym.
      assert (sym ≠ "X") as Hsx.
      { intros ->. apply HX. by eapply get_Some_keys. }
      rewrite (Hother sym Hsx).
      destruct (get_Some_lookup _ _ _ Hsym) as [j Hj].
      rewrite (Hval j sym (length arr)).
      2:{ subst part. by rewrite list_lookup_fmap, Hj. }
      cbn [slice_axis1]. rewrite fmap_replicate. do 3 f_equal.
      assert (part.*2 = length <$> coeff.*2) as ->.
      { subst part. rewrite <- !list_fmap_compose. by apply list_fmap_ext. }
      rewrite !Nat.add_0_l. apply slice_concat.
      by rewrite list_lookup_fmap, Hj.
Qed.

Lemma split_of_stacked_concatenation_water :
  ∃ self' X,
    get_basis_rep 0 Examples.get_coeff Examples.sub_dm_init (agnostic None) water_s_coeff
      = (self', Some [("X", X)]) ∧
    X = concat water_s_padded.*2 ∧
    spec_partition self'
      = Some ((λ x : string * list (list nat), (x.1, length x.2))
                <$> water_s_padded) ∧
    ∀ (h : gmap loc (dict (ndarray nat))) (r : loc) d m,
      h !! r = Some d → NoDup (keys d) →
      get d "X" = Some (Arr3 (replicate m X)) →
      ∃ d', (get_V 0 Examples.einsum_V self' r h).1
              = <[r := d']> h ∧
            get d' "X" = None ∧
            ∀ sym arr, get water_s_padded sym = Some arr →
                       get d' sym = Some (Arr3 (replicate m arr)).
Proof.
  apply (split_of_stacked_concatenation 0 Examples.get_coeff
           Examples.sub_dm_init Examples.einsum_V (agnostic None)
           water_s_coeff water_s_padded 1).
  - reflexivity.
  - vm_compute. reflexivity.
  - discriminate.
  - apply (bool_decide_unpack _). vm_compute. exact I.
  - apply (bool_decide_unpack _). vm_compute. exact I.
  - apply (bool_decide_unpack _). vm_compute. exact I.
Defined.

(** The claim C2 as stated fails for the array [get_basis_rep] itself
    returns: it is 2-D, and the split runs along its columns.  For the
    water-like geometry with one function per atom, the piece stored for
    oxygen is the whole three-row array, not the one-row original. *)
Lemma split_of_plain_concatenation :
  get_basis_rep 0 Examples.get_coeff Examples.sub_dm_init (agnostic None) water_s_coeff
    = (agnostic (Some water_s_partition), Some [("X", [[5]; [6]; [7]])]) ∧
  pad_basis 0 water_s_padder water_s_coeff = Some water_s_padded ∧
  (get_V 0 Examples.einsum_V (agnostic (Some water_s_partition)) 0
     (store grad2)).1 !! 0
    = Some [("O", Arr2 [[5]; [6]; [7]]); ("H", Arr2 [[]; []; []])] ∧
  get water_s_padded "O" = Some [[5]] ∧
  Arr2 [[5]; [6]; [7]] ≠ Arr2 [[5]].
Proof.
  split_and!; [vm_compute; reflexivity..|discriminate].
Qed.

(** C9: in species-agnostic mode [get_V] rewrites the dictionary it is
    handed: after the call the caller's dictionary has no key ['X'], has
    an entry for every species of the partition, differs from what it was,
    and nothing else in the store has changed. *)
Theorem get_V_rewrites_argument {A : Type} (zero : A) {V : Type}
    (einsum_V : list A → V) (self : PySCFProjector.t) (part : dict nat)
    (h : gmap loc (dict (ndarray A))) (r : loc) (d : dict (ndarray A)) :
  spec_agnostic self = true → spec_partition self = Some part →
  h !! r = Some d → NoDup (keys d) → is_Some (get d "X") →
  ∃ d', (get_V zero einsum_V self r h).1 = <[r := d']> h ∧
        get d' "X" = None ∧
        (∀ sym, sym ∈ keys part → sym ≠ "X" → is_Some (get d' sym)) ∧
        (∀ k, k ≠ "X" → is_Some (get d k) → is_Some (get d' k)) ∧
        d' ≠ d.
Proof.
  intros Hag Hpart Hr Hnd HX.
  destruct (split_loop_run r part 0 h d Hr Hnd HX)
    as (d1 & E1 & Hnd1 & HX1 & Hsym & Hkeep).
  destruct (pop_spec d1 "X" Hnd1 HX1) as (d2 & Hpop & Hnone & Hother).
  exists d2. split_and!.
  - by apply (get_V_agnostic_heap zero einsum_V self part r h d1 d2).
  - done.
  - intros sym Hs Hne. rewrite Hother by done. by apply Hsym.
  - intros k Hne Hk. rewrite Hother by done. by apply Hkeep.
  - intros ->. rewrite Hnone in HX. by destruct HX.
Qed.

Lemma get_V_rewrites_argument_water :
  ∃ d', (get_V 0 Examples.einsum_V
           (agnostic (Some water_s_partition)) 0 (store grad3)).1
          = <[0 := d']> (store grad3) ∧
        get d' "X" = None ∧
        (∀ sym, sym ∈ keys water_s_partition → sym ≠ "X" →
                is_Some (get d' sym)) ∧
        (∀ k, k ≠ "X" → is_Some (get grad3 k) → is_Some (get d' k)) ∧
        d' ≠ grad3.
Proof.
  apply (get_V_rewrites_argument 0 Examples.einsum_V (agnostic (Some water_s_partition))
           water_s_partition (store grad3) 0 grad3).
  - reflexivity.
  - reflexivity.
  - vm_compute. reflexivity.
  - apply (bool_decide_unpack _). vm_compute. exact I.
  - vm_compute. eexists. reflexivity.
Defined.

End ProjectorClaims.

(** * [GaussianProjector.get_basis_rep]: arguments and repeatability *)

Module GaussianClaims.
Import Py GaussianFacts Examples.

(** C5: [get_basis_rep] does not compare the lengths of [positions] and
    [species]: it walks [zip(positions, species)], so a call with
    arguments of different lengths behaves, in its result and in the cache
    it leaves, as the call on both arguments cut to the shorter length. *)
Theorem get_basis_rep_truncates {Rho Pos Basis Coef Angs : Type}
    (fmt_idx : string → Pos → option string)
    (project_body : Rho → Pos → Basis → string → option (list Coef))
    (UseMemory : bool) (self : @GaussianProjector.t Basis Angs) (rho : Rho)
    (positions : list Pos) (species : list string) :
  GaussianProjector.get_basis_rep fmt_idx project_body UseMemory self rho
    positions species
  = GaussianProjector.get_basis_rep fmt_idx project_body UseMemory self rho
      (take (length positions `min` length species) positions)
      (take (length positions `min` length species) species).
Proof.
  unfold GaussianProjector.get_basis_rep. by rewrite <- zip_take_min.
Qed.

(** The claim C5 as stated fails: two positions and one species give a
    result, the one of the first position alone. *)
Lemma get_basis_rep_unequal_lengths :
  length [[0; 0; 0]; [1; 0; 0]] ≠ length ["O"] ∧
  (GaussianProjector.get_basis_rep Examples.fmt_idx Examples.project_body
     false oxygen_projector 3 [[0; 0; 0]; [1; 0; 0]] ["O"]).2
  = Some [("O", [[3]])].
Proof. split; [discriminate|vm_compute; reflexivity]. Qed.

(** C7: a second call of [get_basis_rep] with the same density, positions
    and species, on the projector as the first call has left it, returns
    what the first call returned, whether the memory of angular grids is
    switched on or off in either call. *)
Theorem get_basis_rep_repeatable {Rho Pos Basis Coef Angs : Type}
    (fmt_idx : string → Pos → option string)
    (project_body : Rho → Pos → Basis → string → option (list Coef))
    (m m' : bool) (self : @GaussianProjector.t Basis Angs) (rho : Rho)
    (positions : list Pos) (species : list string) :
  let first :=
    GaussianProjector.get_basis_rep fmt_idx project_body m self rho
      positions species in
  (GaussianProjector.get_basis_rep fmt_idx project_body m' first.1 rho
     positions species).2 = first.2.
Proof.
  cbn zeta.
  destruct (get_basis_rep_tables fmt_idx project_body m self rho positions
              species) as [Hb Hs].
  by apply get_basis_rep_out.
Qed.

End GaussianClaims.

(** * The radial function *)

Module RadialClaims.
Import Py GaussianProjector Spec RadialFacts.
#[local] Open Scope R_scope.

Lemma sum_norm_single a c l : sum_norm l [(a, c)] = norm_const a l.
Proof. cbn [sum_norm fst]. lra. Qed.

Lemma cos_3_2 : cos (PI * 3 / 2) = 0.
Proof.
  replace (PI * 3 / 2) with (3 * (PI / 2)) by lra. apply cos_3PI2.
Qed.

(** C3: for a positive cutoff and a single primitive with positive
    exponent [a] and coefficient [c], [g]
    returns at every radius [x] not beyond the cutoff the normalised
    Gaussian [N(l, a) * c * exp(-a x^2)] times [x^l] and the envelope,
    [N] being the closed-form constant built on [Gamma(l + 3/2)], and 0 at
    every radius beyond the cutoff. *)
Theorem g_single_primitive (r r_o : list R) (a c : R) (l : nat) (M : R) :
  np_max r_o = Some M → 0 < M → 0 < a → (l ≤ 6)%nat →
  g r r_o [a] l [c]
  = Some ((λ x, if Rgt_dec x M then 0
                else norm_const a l * c * exp (- a * x ^ 2) * x ^ l
                     * envelope M x) <$> r).
Proof.
  intros HM _ _ Hl. rewrite (g_eq r r_o [a] l [c] M HM Hl). f_equal.
  apply list_fmap_ext. intros i x _. unfold g_value.
  destruct (Rgt_dec x M); [done|].
  cbn [zip zip_with]. rewrite sum_norm_single.
  cbn [contraction fst snd]. lra.
Qed.

Lemma g_single_primitive_sample :
  g [1; 3] [2] [1 / 2] 1 [1]
  = Some ((λ x, if Rgt_dec x 2 then 0
                else norm_const (1 / 2) 1 * 1 * exp (- (1 / 2) * x ^ 2)
                     * x ^ 1 * envelope 2 x) <$> [1; 3]).
Proof.
  apply (g_single_primitive [1; 3] [2] (1 / 2) 1 1 2).
  - reflexivity.
  - lra.
  - lra.
  - lia.
Defined.

(** The claim C3 as stated fails twice.  Beyond the cutoff [g] returns 0
    while the formula does not vanish (radius 3, cutoff 2); and with two
    primitives [g] multiplies the bare contraction by the sum of the
    constants, which at the origin gives twice the value of the
    contraction of individually normalised primitives. *)
Lemma g_departs_from_formula :
  (g [3] [2] [1 / 2] 0 [1] = Some [0] ∧
   normalized_sum 0 [(1 / 2, 1)] 3 * 3 ^ 0 * envelope 2 3 ≠ 0) ∧
  (∃ y, g [0] [1] [1 / 2; 1 / 2] 0 [1; 1] = Some [y] ∧
        y = 2 * (normalized_sum 0 [(1 / 2, 1); (1 / 2, 1)] 0 * 0 ^ 0
                 * envelope 1 0) ∧
        y ≠ normalized_sum 0 [(1 / 2, 1); (1 / 2, 1)] 0 * 0 ^ 0
            * envelope 1 0).
Proof.
  pose proof (norm_const_pos (1 / 2) 0) as HN.
  split; [split|].
  - rewrite (g_eq [3] [2] [1 / 2] 0 [1] 2) by (reflexivity || lia).
    cbn [fmap list_fmap]. unfold g_value.
    destruct (Rgt_dec 3 2) as [_|Hn]; [done|]. exfalso. apply Hn. lra.
  - cbn [normalized_sum fst snd]. unfold envelope. rewrite cos_3_2.
    pose proof (exp_pos (- (1 / 2) * 3 ^ 2)) as He.
    apply Rmult_integral_contrapositive_currified.
    + apply Rmult_integral_contrapositive_currified; [|simpl; lra].
      assert (0 < norm_const (1 / 2) 0 * 1 * exp (- (1 / 2) * 3 ^ 2)).
      { apply Rmult_lt_0_compat; [lra|done]. }
      lra.
    + simpl. lra.
  - eexists. split; [|split].
    + rewrite (g_eq [0] [1] [1 / 2; 1 / 2] 0 [1; 1] 1) by (reflexivity || lia).
      cbn [fmap list_fmap]. reflexivity.
    + unfold g_value. destruct (Rgt_dec 0 1) as [Hgt|_]; [lra|].
      rewrite contraction_at_origin, envelope_at_origin.
      cbn [zip zip_with sum_coeff sum_norm normalized_sum fst snd].
      replace (- (1 / 2) * 0 ^ 2) with 0 by (simpl; ring). rewrite exp_0.
      simpl. lra.
    + unfold g_value. destruct (Rgt_dec 0 1) as [Hgt|_]; [lra|].
      rewrite contraction_at_origin, envelope_at_origin.
      cbn [zip zip_with sum_coeff sum_norm normalized_sum fst snd].
      replace (- (1 / 2) * 0 ^ 2) with 0 by (simpl; ring). rewrite exp_0.
      simpl. lra.
Qed.

(** C4: over the reals, for a positive cutoff (the largest entry of a
    non-empty [r_o]), positive exponents and an angular momentum of the
    table of [GAMMA] (at most 6), [g] returns an array of the length of
    [r] that is 0 at every entry of [r] that is at least the cutoff:
    beyond it by the explicit assignment, and at the cutoff itself because
    the envelope vanishes there. *)
Theorem g_zero_from_cutoff (r r_o alpha : list R) (l : nat)
    (coeff : list R) (M : R) :
  np_max r_o = Some M → 0 < M → Forall (λ a, 0 < a) alpha → (l ≤ 6)%nat →
  ∃ f, g r r_o alpha l coeff = Some f ∧ length f = length r ∧
       ∀ i x, r !! i = Some x → M <= x → f !! i = Some 0.
Proof.
  intros HM Hpos _ Hl. eexists. split; [by apply g_eq|].
  split; [by rewrite length_fmap|].
  intros i x Hx Hle. rewrite list_lookup_fmap, Hx.
  cbn [fmap option_fmap option_map]. f_equal. unfold g_value.
  destruct (Rgt_dec x M) as [|Hn]; [done|].
  assert (x = M) as -> by lra.
  rewrite envelope_at_cutoff by lra. lra.
Qed.

Lemma g_zero_from_cutoff_sample :
  ∃ f, g [1; 2; 3] [2] [1 / 2] 1 [1] = Some f ∧
       length f = length [1; 2; 3] ∧
       ∀ i x, [1; 2; 3] !! i = Some x → 2 <= x → f !! i = Some 0.
Proof.
  apply (g_zero_from_cutoff [1; 2; 3] [2] [1 / 2] 1 [1] 2).
  - reflexivity.
  - lra.
  - repeat constructor. lra.
  - lia.
Defined.

(** The claim C4 as stated fails for a shell whose angular momentum is
    beyond the table of [GAMMA]: with cutoff 2, one primitive and [l = 7],
    [g] raises instead of returning zeros at the radii 2 and 3. *)
Lemma g_raises_beyond_table :
  np_max [2] = Some 2 ∧ 0 < 2 ∧ 0 < 1 / 2 ∧
  g [0; 2; 3] [2] [1 / 2] 7 [1] = None.
Proof.
  split; [reflexivity|]. split; [lra|]. split; [lra|].
  unfold g. cbn [np_max foldl mbind option_bind zip zip_with foldlM].
  unfold g_step, norm_term. rewrite (lookup_ge_None_2 GAMMA 7); [done|].
  unfold GAMMA. rewrite length_fmap. cbn [length]. lia.
Qed.

(** C8: over the reals, for a positive cutoff (the largest entry of a
    non-empty [r_o]) and positive exponents, [g] returns at every zero
    entry of [r]: for a shell of a single primitive with [l = 0], the
    normalisation constant [N(0, a)] of the primitive times its
    coefficient [c]; and for a shell of any number of primitives with an
    angular momentum from 1 to 6, exactly 0. *)
Theorem g_at_origin_value (r r_o : list R) (a c : R) (alpha : list R)
    (l : nat) (coeff : list R) (M : R) :
  np_max r_o = Some M → 0 < M → 0 < a → Forall (λ a, 0 < a) alpha →
  (1 ≤ l ≤ 6)%nat →
  (∃ f, g r r_o [a] 0 [c] = Some f ∧
        ∀ i, r !! i = Some 0 → f !! i = Some (norm_const a 0 * c)) ∧
  (∃ f, g r r_o alpha l coeff = Some f ∧
        ∀ i, r !! i = Some 0 → f !! i = Some 0).
Proof.
  intros HM Hpos _ _ [Hl1 Hl6]. split.
  - eexists. split; [apply (g_eq r r_o [a] 0 [c] M HM); lia|].
    intros i Hx. rewrite list_lookup_fmap, Hx.
    cbn [fmap option_fmap option_map]. f_equal. unfold g_value.
    destruct (Rgt_dec 0 M) as [Hgt|_]; [lra|].
    rewrite contraction_at_origin, envelope_at_origin.
    cbn [zip zip_with sum_coeff snd]. rewrite sum_norm_single.
    simpl. lra.
  - eexists. split; [by apply g_eq|].
    intros i Hx. rewrite list_lookup_fmap, Hx.
    cbn [fmap option_fmap option_map]. f_equal. unfold g_value.
    destruct (Rgt_dec 0 M) as [Hgt|_]; [lra|].
    rewrite contraction_at_origin, envelope_at_origin.
    rewrite pow_i by lia. lra.
Qed.

Lemma g_at_origin_value_sample :
  (∃ f, g [0; 1] [2] [1 / 2] 0 [3] = Some f ∧
        ∀ i, [0; 1] !! i = Some 0 →
          f !! i = Some (norm_const (1 / 2) 0 * 3)) ∧
  (∃ f, g [0; 1] [2] [1 / 2; 1] 2 [1; 3] = Some f ∧
        ∀ i, [0; 1] !! i = Some 0 → f !! i = Some 0).
Proof.
  apply (g_at_origin_value [0; 1] [2] (1 / 2) 3 [1 / 2; 1] 2 [1; 3] 2).
  - reflexivity.
  - lra.
  - lra.
  - repeat constructor; lra.
  - lia.
Defined.

(** The claim C8 as stated fails twice at radius 0.  With [l = 0] and two
    primitives [g] returns the sum of the coefficients times the sum of
    the normalisation constants, which is twice the sum of the
    individually normalised primitives; and with a primitive and [l = 7],
    beyond the table of [GAMMA], it raises instead of returning 0. *)
Lemma g_at_origin_departs :
  (∃ y, g [0] [1] [1 / 2; 1 / 2] 0 [1; 2] = Some [y] ∧
        y = 2 * normalized_sum 0 [(1 / 2, 1); (1 / 2, 2)] 0 ∧
        y ≠ normalized_sum 0 [(1 / 2, 1); (1 / 2, 2)] 0) ∧
  g [0] [1] [1 / 2] 7 [1] = None.
Proof.
  pose proof (norm_const_pos (1 / 2) 0) as HN.
  split.
  - eexists. split; [|split].
    + rewrite (g_eq [0] [1] [1 / 2; 1 / 2] 0 [1; 2] 1) by (reflexivity || lia).
      cbn [fmap list_fmap]. reflexivity.
    + unfold g_value. destruct (Rgt_dec 0 1) as [Hgt|_]; [lra|].
      rewrite contraction_at_origin, envelope_at_origin.
      cbn [zip zip_with sum_coeff sum_norm normalized_sum fst snd].
      replace (- (1 / 2) * 0 ^ 2) with 0 by (simpl; ring). rewrite exp_0.
      simpl. lra.
    + unfold g_value. destruct (Rgt_dec 0 1) as [Hgt|_]; [lra|].
      rewrite contraction_at_origin, envelope_at_origin.
      cbn [zip zip_with sum_coeff sum_norm normalized_sum fst snd].
      replace (- (1 / 2) * 0 ^ 2) with 0 by (simpl; ring). rewrite exp_0.
      simpl. lra.
  - unfold g. cbn [np_max foldl mbind option_bind zip zip_with foldlM].
    unfold g_step, norm_term. rewrite (lookup_ge_None_2 GAMMA 7); [done|].
    unfold GAMMA. rewrite length_fmap. cbn [length]. lia.
Qed.

End RadialClaims.

(** * Layout of the index map and of the padded rows *)

Module LayoutFacts.
Import Py Np Pyscf BasisPadder Spec PyFacts LabelFacts InitFacts ModelFacts
  CtorFacts ScanFacts WfFacts NpFacts PadFacts RoundTrip Layout.

(** ** Lists *)

Lemma bind_lookup_at {X Y} (f : X → list Y) (pre post : list X) x m :
  m < length (f x) →
  ((pre ++ x :: post) ≫= f) !! (length (pre ≫= f) + m) = f x !! m.
Proof.
  intros Hm. rewrite bind_app, bind_cons.
  rewrite lookup_app_r by lia.
  replace (length (pre ≫= f) + m - length (pre ≫= f)) with m by lia.
  by rewrite lookup_app_l.
Qed.

Lemma bind_lookup_shoff {Y} (f : nat * nat → list Y) (B : list (nat * nat))
    nl m :
  (∀ b, length (f b) = 2 * b.2 + 1) → nl ∈ B → m < 2 * nl.2 + 1 →
  (B ≫= f) !! (shoff B nl + m) = f nl !! m.
Proof.
  intros Hf Hin Hm. induction B as [|b B IH]; [by apply elem_of_nil in Hin|].
  rewrite bind_cons. cbn [shoff]. destruct (decide (b = nl)) as [->|Hne].
  - rewrite lookup_app_l; [done|]. rewrite Hf. lia.
  - apply elem_of_cons in Hin as [->|Hin]; [done|].
    rewrite lookup_app_r by (rewrite Hf; lia).
    rewrite Hf.
    replace (2 * b.2 + 1 + shoff B nl + m - (2 * b.2 + 1))
      with (shoff B nl + m) by lia.
    by apply IH.
Qed.

Lemma scatter_mask_app {A} (m1 m2 : list bool) (v1 v2 r1 r2 : list A) :
  length r1 = length m1 → length v1 = count_true m1 →
  scatter_mask (m1 ++ m2) (v1 ++ v2) (r1 ++ r2)
  = scatter_mask m1 v1 r1 ++ scatter_mask m2 v2 r2.
Proof.
  revert v1 r1. induction m1 as [|b m1 IH]; intros v1 r1 Hr Hv.
  - destruct r1; [|done]. destruct v1; [|done]. done.
  - destruct r1 as [|x r1]; [done|]. rewrite count_true_cons in Hv.
    destruct b.
    + destruct v1 as [|y v1]; [done|]. simpl. f_equal.
      apply IH; cbn [length] in *; lia.
    + simpl. f_equal. apply IH; cbn [length] in *; lia.
Qed.

Lemma scatter_mask_all {A} k (vals : list A) (zero : A) :
  length vals = k →
  scatter_mask (replicate k true) vals (replicate k zero) = vals.
Proof.
  revert vals. induction k as [|k IH]; intros [|y vals] H; try done.
  cbn [replicate scatter_mask]. f_equal. apply IH. by injection H.
Qed.

Lemma scatter_mask_none {A} k (row : list A) :
  scatter_mask (replicate k false) [] row = row.
Proof.
  revert row. induction k as [|k IH]; intros [|x row]; try done.
  cbn [replicate scatter_mask]. f_equal. apply IH.
Qed.

(** ** The grid of shells *)

Lemma nl_range_split N L n l :
  1 ≤ n ≤ N → l ≤ L →
  ∃ pre post, nl_range N L = pre ++ (n, l) :: post ∧
    sum_list ((λ nl : nat * nat, 2 * nl.2 + 1) <$> pre)
    = (n - 1) * (L + 1) ^ 2 + l ^ 2.
Proof.
  intros Hn Hl. unfold nl_range.
  set (row := λ n : nat, seq 0 (L + 1) ≫= λ l : nat, [(n, l)]).
  assert (seq 1 N = seq 1 (n - 1) ++ n :: seq (S n) (N - n)) as ->.
  { transitivity (seq 1 ((n - 1) + S (N - n))); [f_equal; lia|].
    rewrite seq_app. cbn [seq]. f_equal. f_equal; [lia|f_equal; lia]. }
  rewrite bind_app, bind_cons.
  assert (seq 0 (L + 1) = seq 0 l ++ l :: seq (S l) (L - l)) as Hrow.
  { transitivity (seq 0 (l + S (L - l))); [f_equal; lia|].
    rewrite seq_app. cbn [seq]. done. }
  change (row n) with (seq 0 (L + 1) ≫= λ l0 : nat, [(n, l0)]).
  rewrite Hrow, bind_app, bind_cons. cbn [app].
  exists ((seq 1 (n - 1) ≫= row) ++ (seq 0 l ≫= λ l0 : nat, [(n, l0)])).
  eexists. split.
  - rewrite <- !app_assoc. cbn [app]. reflexivity.
  - rewrite fmap_app, sum_list_with_app.
    change (seq 1 (n - 1) ≫= row)
      with (seq 1 (n - 1) ≫= λ n0, seq 0 (L + 1) ≫= λ l0 : nat, [(n0, l0)]).
    rewrite nl_grid_width, row_widths. f_equal.
    destruct l as [|k]; [done|].
    replace (S k) with (k + 1) by lia. apply sum_odd.
Qed.

(** ** Rows of the index map and of the padded arrays *)

Lemma row_shape_app {A} (zero : A) (v : list A) (B : list (nat * nat)) off
    (nls : list (nat * nat)) :
  let mask := nls ≫= λ nl : nat * nat,
                replicate (2 * nl.2 + 1) (bool_decide (nl ∈ B)) in
  let rs := nls ≫= λ nl : nat * nat,
              if decide (nl ∈ B) then seq (off + shoff B nl) (2 * nl.2 + 1)
              else [] in
  scatter_mask mask (pick zero v rs) (replicate (length mask) zero)
  = nls ≫= λ nl : nat * nat,
      if decide (nl ∈ B)
      then pick zero v (seq (off + shoff B nl) (2 * nl.2 + 1))
      else replicate (2 * nl.2 + 1) zero.
Proof.
  cbn zeta.
  set (fm := λ nl : nat * nat,
         replicate (2 * nl.2 + 1) (bool_decide (nl ∈ B))).
  set (fr := λ nl : nat * nat,
         if decide (nl ∈ B) then seq (off + shoff B nl) (2 * nl.2 + 1)
         else []).
  induction nls as [|nl nls IH]; [done|].
  rewrite !bind_cons.
  assert (pick zero v (fr nl ++ nls ≫= fr)
          = pick zero v (fr nl) ++ pick zero v (nls ≫= fr)) as ->
    by apply fmap_app.
  rewrite length_app, (replicate_add (length (fm nl))).
  rewrite scatter_mask_app.
  - f_equal; [|apply IH]. subst fm fr. cbn beta. rewrite length_replicate.
    destruct (decide (nl ∈ B)) as [Hin|Hout].
    + rewrite bool_decide_eq_true_2 by done.
      apply scatter_mask_all. by rewrite pick_length, length_seq.
    + rewrite bool_decide_eq_false_2 by done. apply scatter_mask_none.
  - by rewrite !length_replicate.
  - rewrite pick_length. subst fm fr. cbn beta.
    rewrite count_true_replicate.
    destruct (decide (nl ∈ B)).
    + rewrite bool_decide_eq_true_2 by done. by rewrite length_seq.
    + by rewrite bool_decide_eq_false_2.
Qed.

Lemma padded_row_eq {A} (zero : A) (v : list A) B off N L :
  scatter_mask (mask_row B N L) (pick zero v (rs_row B off N L))
    (replicate (length (mask_row B N L)) zero)
  = padded_row zero v B off N L.
Proof. apply (row_shape_app zero v B off (nl_range N L)). Qed.


Lemma padded_row_lookup {A} (zero : A) (v : list A) B off N L n l m :
  1 ≤ n ≤ N → l ≤ L → m ≤ 2 * l →
  padded_row zero v B off N L !! slot_of L n l m
  = Some (if decide ((n, l) ∈ B)
          then default zero (v !! (off + shoff B (n, l) + m))
          else zero).
Proof.
  intros Hn Hl Hm. unfold padded_row, slot_of.
  destruct (nl_range_split N L n l Hn Hl) as (pre & post & -> & Hw).
  rewrite <- Hw.
  set (f := λ nl : nat * nat,
         if decide (nl ∈ B)
         then pick zero v (seq (off + shoff B nl) (2 * nl.2 + 1))
         else replicate (2 * nl.2 + 1) zero).
  assert (Hf : ∀ nl, length (f nl) = 2 * nl.2 + 1).
  { intros nl. subst f. cbn beta. destruct (decide (nl ∈ B)).
    - by rewrite pick_length, length_seq.
    - by rewrite length_replicate. }
  replace (sum_list ((λ nl : nat * nat, 2 * nl.2 + 1) <$> pre))
    with (length (pre ≫= f)).
  2:{ rewrite bind_length_sum. f_equal. apply list_fmap_ext.
      intros i x _. apply Hf. }
  rewrite bind_lookup_at by (rewrite Hf; cbn [snd]; lia).
  subst f. cbn beta. cbn [snd]. destruct (decide ((n, l) ∈ B)).
  - unfold pick. rewrite list_lookup_fmap, lookup_seq_lt by lia. done.
  - apply lookup_replicate_2. lia.
Qed.

(** ** Position of a label in the flat vector *)

Lemma label_at basis mname atoms a s nl m :
  atoms !! a = Some s → nl ∈ basis s → m ≤ 2 * nl.2 →
  ao_labels_raw (M basis mname atoms) !! ao_index basis atoms a s nl m
  = Some (a, s, str_of_nat nl.1 +:+ String (ANGULAR nl.2) "", mname nl.2 m).
Proof.
  intros Ha Hnl Hm. unfold ao_index.
  destruct (raw_labels_split basis mname atoms a s Ha) as [rest ->].
  assert (length (enumerate (take a atoms)
                    ≫= λ x : nat * string, atom_labels basis mname x.1 x.2)
          = sum_list (nao_atom basis <$> take a atoms)) as Hlen.
  { unfold enumerate. apply (zip_bind_length basis mname 0). }
  rewrite <- Nat.add_assoc, <- Hlen, lookup_app_r by lia.
  match goal with
  | |- _ !! ?i = _ => replace i with (shoff (basis s) nl + m) by lia
  end.
  assert (shoff (basis s) nl + m < length (atom_labels basis mname a s)) as Hlt.
  { unfold atom_labels.
    assert (is_Some ((basis s ≫= shell_labels mname a s)
                     !! (shoff (basis s) nl + m))) as Hs.
    { rewrite bind_lookup_shoff; [| |done|lia].
      - apply lookup_lt_is_Some. rewrite shell_labels_length. lia.
      - intros b. apply shell_labels_length. }
    by apply lookup_lt_is_Some in Hs. }
  rewrite lookup_app_l by done. unfold atom_labels.
  rewrite bind_lookup_shoff; [| |done|lia].
  - unfold shell_labels. rewrite list_lookup_fmap, lookup_seq_lt by lia. done.
  - intros b. apply shell_labels_length.
Qed.

Lemma ao_index_lt basis mname atoms a s nl m :
  atoms !! a = Some s → nl ∈ basis s → m ≤ 2 * nl.2 →
  ao_index basis atoms a s nl m < length (ao_labels_raw (M basis mname atoms)).
Proof.
  intros Ha Hnl Hm. apply lookup_lt_is_Some.
  rewrite (label_at basis mname atoms a s nl m) by done. by eexists.
Qed.

(** ** The maxima recorded by the constructor *)

Lemma tight_n_step st x st' Ls :
  scan_label st x = Some st' → tight_n st Ls → tight_n st' (Ls ++ [x]).
Proof.
  intros H Ht. unfold scan_label in H.
  fold (label_sym x) in H. fold (label_n x) in H. fold (label_l x) in H.
  set (s0 := label_sym x) in *.
  destruct (label_n x) as [n0|] eqn:En; [|done].
  destruct (label_l x) as [l0|] eqn:El; [|done].
  cbn [mbind option_bind] in H. injection H as <-.
  intros s N. cbn [snd]. rewrite get_set.
  assert (Hold : ∀ s' N', get st.2 s' = Some N' →
            N' = 0 ∨ ∃ y, y ∈ Ls ++ [x] ∧ label_sym y = s' ∧
                          label_n y = Some N').
  { intros s' N' E. destruct (Ht s' N' E) as [?|(y & Hy & ? & ?)]; [by left|].
    right. exists y. split_and!; [|done..]. apply elem_of_app. by left. }
  destruct (decide (s0 = s)) as [<-|Hne].
  - intros [= <-].
    destruct (Nat.max_spec n0
                (default 0 (get (if mem st.1 s0 then st
                                 else (set st.1 s0 0, set st.2 s0 0)).2 s0)))
      as [[_ ->]|[_ ->]].
    + destruct (mem st.1 s0).
      * destruct (get st.2 s0) as [d|] eqn:E; [|by left].
        cbn [default]. by apply Hold.
      * cbn [snd]. rewrite get_set_eq. by left.
    + right. exists x. split_and!; [|done..]. apply elem_of_app. right. by left.
  - destruct (mem st.1 s0); [apply Hold|].
    cbn [snd]. rewrite get_set_ne by done. apply Hold.
Qed.

Lemma scan_tight_n Ls mx :
  foldlM scan_label ([], []) Ls = Some mx → tight_n mx Ls.
Proof.
  revert mx. induction Ls as [|x Ls IH] using rev_ind; intros mx H.
  - injection H as <-. intros s N E. done.
  - rewrite foldlM_app in H.
    destruct (foldlM scan_label ([], []) Ls) as [st|]; [|done].
    cbn in H. destruct (scan_label st x) as [st'|] eqn:E; [|done].
    injection H as <-. eapply tight_n_step; [done|]. by apply IH.
Qed.

Lemma scan_keys_nodup Ls st mx :
  NoDup (keys st.1) → NoDup (keys st.2) →
  foldlM scan_label st Ls = Some mx →
  NoDup (keys mx.1) ∧ NoDup (keys mx.2).
Proof.
  revert st. induction Ls as [|x Ls IH]; intros st H1 H2 H.
  - injection H as <-. done.
  - cbn [foldlM] in H. destruct (scan_label st x) as [st'|] eqn:E; [|done].
    cbn [mbind option_bind] in H. apply (IH st'); [| |done].
    + unfold scan_label in E. cbn zeta in E.
      destruct (int _) as [n0|]; [|done].
      destruct (last_char _ ≫= l_dict) as [l0|]; [|done].
      cbn [mbind option_bind] in E. injection E as <-. cbn [fst].
      apply ProjectorFacts.NoDup_keys_set.
      destruct (mem st.1 _); [done|]. cbn [fst].
      by apply ProjectorFacts.NoDup_keys_set.
    + unfold scan_label in E. cbn zeta in E.
      destruct (int _) as [n0|]; [|done].
      destruct (last_char _ ≫= l_dict) as [l0|]; [|done].
      cbn [mbind option_bind] in E. injection E as <-. cbn [snd].
      apply ProjectorFacts.NoDup_keys_set.
      destruct (mem st.1 _); [done|]. cbn [snd].
      by apply ProjectorFacts.NoDup_keys_set.
Qed.

Section model.
Variable basis : string → list (nat * nat).
Variable mname : nat → nat → string.
Variable atoms : list string.
Hypothesis Hlic : licit basis mname atoms.

(** The padder the constructor returns, written out. *)
Lemma init_layout :
  ∃ bp, __init__ (M basis mname atoms) = Some bp ∧
        mol bp = M basis mname atoms ∧
        NoDup (keys (indexing_l bp)) ∧
        (∀ s, s ∈ keys (indexing_l bp) ↔ s ∈ atoms) ∧
        (∀ s, get (sym_cnt bp) s
              = if decide (s ∈ atoms) then Some (length (atoms_of s atoms))
                else None) ∧
        ∀ s, s ∈ atoms →
          ∃ N L, get (max_n bp) s = Some N ∧ get (max_l bp) s = Some L ∧
                 L ≤ 6 ∧
                 (∀ nl, nl ∈ basis s → 1 ≤ nl.1 ≤ N ∧ nl.2 ≤ L) ∧
                 (∃ nl, nl ∈ basis s ∧ nl.1 = N) ∧
                 (∃ nl, nl ∈ basis s ∧ nl.2 = L) ∧
                 get (indexing_l bp) s
                 = Some ((λ a, mask_row (basis s) N L) <$> atoms_of s atoms) ∧
                 get (indexing_r bp) s
                 = Some ((λ a, rs_row (basis s)
                                 (sum_list (nao_atom basis <$> take a atoms))
                                 N L) <$> atoms_of s atoms).
Proof using Hlic.
  destruct (scan_model basis mname atoms Hlic) as (mx & Hscan & Hinv).
  pose proof (scan_tight_n _ _ Hscan) as Htn.
  destruct (scan_keys_nodup _ ([], []) mx NoDup_nil_2 NoDup_nil_2 Hscan)
    as [_ Hnd].
  unfold __init__. rewrite Hscan. cbn [mbind option_bind].
  change (atom_pure_symbol (M basis mname atoms)) with atoms.
  set (cs := foldl count_atom ([], []) (enumerate atoms)).
  set (labels := ao_labels (M basis mname atoms)).
  set (rows := λ sym : string,
         index_atom labels sym (default 0 (get mx.2 sym))
           (default 0 (get mx.1 sym)) <$> atoms_of sym atoms).
  rewrite (mapM_ext_Some _ (λ sym, (sym, ((rows sym).*1, (rows sym).*2)))).
  2:{ intros sym Hsym. apply (scan_keys basis mname atoms Hlic mx sym Hinv) in Hsym.
      destruct (scan_bounds basis mname atoms Hlic mx sym Hinv Hsym)
        as (N & L & HN & HL & _).
      unfold index_species.
      destruct (count_atoms_spec atoms sym) as [_ Hidx].
      fold cs in Hidx. rewrite decide_True in Hidx by done.
      rewrite Hidx, HN, HL. cbn [mbind option_bind].
      subst rows. cbn beta. by rewrite HN, HL. }
  cbn [mbind option_bind]. eexists. split; [reflexivity|].
  cbn [mol sym_cnt max_n max_l indexing_l indexing_r].
  split_and!.
  - done.
  - by rewrite (keys_fmap_pair _ fst).
  - intros s. rewrite (keys_fmap_pair _ fst).
    by apply (scan_keys basis mname atoms Hlic).
  - intros s. by destruct (count_atoms_spec atoms s) as [Hcnt _].
  - intros s Hs.
    destruct (scan_bounds basis mname atoms Hlic mx s Hinv Hs)
      as (N & L & HN & HL & HL6 & Hbs).
    exists N, L. rewrite (get_fmap_pair _ fst), (get_fmap_pair _ snd).
    rewrite !decide_True by by apply (scan_keys basis mname atoms Hlic).
    assert (Hshell : ∀ x, x ∈ ao_labels_raw (M basis mname atoms) →
              label_sym x = s →
              ∃ nl, nl ∈ basis s ∧ label_n x = Some nl.1 ∧
                    label_l x = Some nl.2).
    { intros x Hx Hsx.
      destruct (raw_labels_elem basis mname atoms x Hx)
        as (ia & S0 & nl & Hia & Hnl & Hxs).
      assert (S0 ∈ atoms) as HS0 by by eapply list_elem_of_lookup_2.
      destruct (label_parse mname ia S0 nl x) as (E1 & E2 & E3); [|done|].
      { by apply (licit_range _ _ _ Hlic S0 nl). }
      assert (S0 = s) as -> by congruence. by exists nl. }
    assert (Hone : ∃ nl, nl ∈ basis s).
    { pose proof (licit_nonempty _ _ _ Hlic s Hs) as Hne.
      destruct (basis s) as [|nl0 B0]; [done|]. exists nl0. by left. }
    assert (Hrow : ∀ i a, atoms_of s atoms !! i = Some a →
              index_atom labels s N L a
              = (mask_row (basis s) N L,
                 rs_row (basis s)
                   (sum_list (nao_atom basis <$> take a atoms)) N L)).
    { intros i a Ha. apply rank_atoms_of in Ha as [Ha _].
      subst labels. by apply index_atom_spec. }
    split_and!; [done..| | | |].
    + destruct (Htn s N HN) as [->|(x & Hx & Hsx & Hnx)].
      * destruct Hone as [nl Hnl]. destruct (Hbs nl Hnl) as [? _]. lia.
      * destruct (Hshell x Hx Hsx) as (nl & Hnl & E & _).
        exists nl. split; [done|]. congruence.
    + destruct (si_tight _ _ Hinv s L HL) as [->|(x & Hx & Hsx & Hlx)].
      * destruct Hone as [nl Hnl]. destruct (Hbs nl Hnl) as [_ ?].
        exists nl. split; [done|lia].
      * destruct (Hshell x Hx Hsx) as (nl & Hnl & _ & E).
        exists nl. split; [done|]. congruence.
    + f_equal. subst rows. cbn beta. rewrite HN, HL. cbn [default].
      cbn [fst snd]. unfold Datatypes.id.
      apply list_eq. intros i. rewrite !list_lookup_fmap.
      destruct (atoms_of s atoms !! i) as [a|] eqn:Ha; [|done].
      cbn [fmap option_fmap option_map]. by rewrite (Hrow i a Ha).
    + f_equal. subst rows. cbn beta. rewrite HN, HL. cbn [default].
      cbn [fst snd]. unfold Datatypes.id.
      apply list_eq. intros i. rewrite !list_lookup_fmap.
      destruct (atoms_of s atoms !! i) as [a|] eqn:Ha; [|done].
      cbn [fmap option_fmap option_map]. by rewrite (Hrow i a Ha).
Qed.

End model.

End LayoutFacts.

(** * Properties of [BasisPadder] *)

Module PadderProps.
Import Py Np Pyscf BasisPadder Spec PyFacts LabelFacts InitFacts ModelFacts
  CtorFacts ScanFacts WfFacts NpFacts PadFacts RoundTrip Layout LayoutFacts
  Examples.

Lemma init_unique m bp bp' :
  __init__ m = Some bp → __init__ m = Some bp' → bp = bp'.
Proof. congruence. Qed.

(** The constructed padder with both descriptions of it. *)
Lemma init_both basis mname atoms :
  licit basis mname atoms →
  ∃ bp, __init__ (M basis mname atoms) = Some bp ∧ wf bp ∧
        mol bp = M basis mname atoms ∧
        NoDup (keys (indexing_l bp)) ∧
        (∀ s, s ∈ keys (indexing_l bp) ↔ s ∈ atoms) ∧
        (∀ s, get (sym_cnt bp) s
              = if decide (s ∈ atoms) then Some (length (atoms_of s atoms))
                else None) ∧
        ∀ a s, atoms !! a = Some s →
          ∃ N L, get (max_n bp) s = Some N ∧ get (max_l bp) s = Some L ∧
                 L ≤ 6 ∧
                 (∀ nl, nl ∈ basis s → 1 ≤ nl.1 ≤ N ∧ nl.2 ≤ L) ∧
                 (∃ nl, nl ∈ basis s ∧ nl.1 = N) ∧
                 (∃ nl, nl ∈ basis s ∧ nl.2 = L) ∧
                 mask_of bp atoms a s = Some (mask_row (basis s) N L) ∧
                 rs_of bp atoms a s
                 = Some (rs_row (basis s)
                           (sum_list (nao_atom basis <$> take a atoms)) N L).
Proof.
  intros Hlic.
  destruct (init_wf basis mname atoms Hlic) as (bp & Hinit & Hwf & Hmol).
  destruct (init_layout basis mname atoms Hlic)
    as (bp' & Hinit' & _ & Hnd & Hkeys & Hcnt & Hrows).
  assert (bp' = bp) as -> by by eapply init_unique.
  exists bp. split_and!; [done..|].
  intros a s Ha.
  assert (Hs : s ∈ atoms) by by eapply list_elem_of_lookup_2.
  destruct (Hrows s Hs) as (N & L & HN & HL & HL6 & Hb & HNa & HLa & Hl & Hr).
  exists N, L. split_and!; [done..| |].
  - unfold mask_of. rewrite Hl. cbn [mbind option_bind].
    by rewrite list_lookup_fmap, (atoms_of_rank _ _ _ Ha).
  - unfold rs_of. rewrite Hr. cbn [mbind option_bind].
    by rewrite list_lookup_fmap, (atoms_of_rank _ _ _ Ha).
Qed.

(** The constructor counts the atoms of each species and records, per
    species, the largest principal number and the largest angular momentum
    among its shells. *)
Theorem constructor_tables basis mname atoms :
  licit basis mname atoms →
  ∃ bp, __init__ (M basis mname atoms) = Some bp ∧
    (∀ s, get (sym_cnt bp) s
          = if decide (s ∈ atoms) then Some (length (atoms_of s atoms))
            else None) ∧
    (∀ s, s ∈ keys (indexing_l bp) ↔ s ∈ atoms) ∧
    ∀ s, s ∈ atoms →
      ∃ N L, get (max_n bp) s = Some N ∧ get (max_l bp) s = Some L ∧
             (∀ nl, nl ∈ basis s → nl.1 ≤ N ∧ nl.2 ≤ L) ∧
             (∃ nl, nl ∈ basis s ∧ nl.1 = N) ∧
             (∃ nl, nl ∈ basis s ∧ nl.2 = L).
Proof.
  intros Hlic.
  destruct (init_both basis mname atoms Hlic)
    as (bp & Hinit & _ & _ & _ & Hkeys & Hcnt & Hrows).
  exists bp. split_and!; [done..|]. intros s Hs.
  apply list_elem_of_lookup_1 in Hs as [a Ha].
  destruct (Hrows a s Ha) as (N & L & HN & HL & _ & Hb & HNa & HLa & _).
  exists N, L. split_and!; [done..| |done|done].
  intros nl Hnl. destruct (Hb nl Hnl). lia.
Qed.

Lemma constructor_tables_water :
  ∃ bp, __init__ (M sp_basis cart_name water) = Some bp ∧
    (∀ s, get (sym_cnt bp) s
          = if decide (s ∈ water) then Some (length (atoms_of s water))
            else None) ∧
    (∀ s, s ∈ keys (indexing_l bp) ↔ s ∈ water) ∧
    ∀ s, s ∈ water →
      ∃ N L, get (max_n bp) s = Some N ∧ get (max_l bp) s = Some L ∧
             (∀ nl, nl ∈ sp_basis s → nl.1 ≤ N ∧ nl.2 ≤ L) ∧
             (∃ nl, nl ∈ sp_basis s ∧ nl.1 = N) ∧
             (∃ nl, nl ∈ sp_basis s ∧ nl.2 = L).
Proof.
  apply (constructor_tables sp_basis cart_name water).
  exact PadderClaims.water_licit.
Defined.



(** [pad_basis] stores the coefficient of the [m]-th function of shell
    [(n, l)] of atom [a] in the row of [a] among the atoms of its species,
    at column [(n-1) * (max_l+1)^2 + l^2 + m]; the columns of the shells the
    atom does not have hold zero. *)
Theorem pad_basis_layout {A : Type} (zero : A) basis mname atoms
    (v : list A) :
  licit basis mname atoms →
  length v = length (ao_labels (M basis mname atoms)) →
  ∃ bp w, __init__ (M basis mname atoms) = Some bp ∧
          pad_basis zero bp v = Some w ∧
    (∀ a s N L n l m,
       atoms !! a = Some s →
       get (max_n bp) s = Some N → get (max_l bp) s = Some L →
       1 ≤ n ≤ N → l ≤ L → m ≤ 2 * l →
       slot w s (rank atoms a s) (slot_of L n l m)
       = if decide ((n, l) ∈ basis s)
         then v !! ao_index basis atoms a s (n, l) m
         else Some zero) ∧
    (∀ a s nl m,
       atoms !! a = Some s → nl ∈ basis s → m ≤ 2 * nl.2 →
       ao_labels_raw (M basis mname atoms) !! ao_index basis atoms a s nl m
       = Some (a, s, str_of_nat nl.1 +:+ String (ANGULAR nl.2) "",
               mname nl.2 m)).
Proof.
  intros Hlic Hlen.
  destruct (init_both basis mname atoms Hlic)
    as (bp & Hinit & Hwf & Hmol & _ & _ & _ & Hrows).
  assert (Hlen' : length v = length (ao_labels_raw (mol bp))).
  { rewrite Hmol. unfold ao_labels in Hlen. by rewrite length_fmap in Hlen. }
  destruct (pad_basis_ok zero bp Hwf v Hlen') as [w Hpad].
  exists bp, w. split_and!; [done..| |].
  - intros a s N L n l m Ha HN HL Hn Hl Hm.
    destruct (Hrows a s Ha) as (N' & L' & HN' & HL' & _ & _ & _ & _ & Hmk & Hrs).
    assert (N' = N) as -> by congruence.
    assert (L' = L) as -> by congruence.
    assert (Ha' : atom_pure_symbol (mol bp) !! a = Some s) by by rewrite Hmol.
    destruct (pad_rows zero bp Hwf v w a s (mask_row (basis s) N L)
                (rs_row (basis s)
                   (sum_list (nao_atom basis <$> take a atoms)) N L)
                Hpad Ha') as (arr & Hw & _ & Hrow).
    { by rewrite Hmol. }
    { by rewrite Hmol. }
    rewrite Hmol in Hrow. cbn [atom_pure_symbol M] in Hrow.
    unfold slot. rewrite Hw. cbn [mbind option_bind]. rewrite Hrow.
    cbn [mbind option_bind]. rewrite padded_row_eq.
    rewrite padded_row_lookup by done.
    destruct (decide ((n, l) ∈ basis s)) as [Hin|]; [|done].
    pose proof (ao_index_lt basis mname atoms a s (n, l) m Ha Hin Hm) as Hlt.
    unfold ao_index in *. rewrite Hmol in Hlen'. rewrite <- Hlen' in Hlt.
    destruct (lookup_lt_is_Some_2 v _ Hlt) as [x Hx]. by rewrite Hx.
  - intros a s nl m Ha Hnl Hm. by apply label_at.
Qed.

Lemma pad_basis_layout_water :
  ∃ bp w, __init__ (M sp_basis cart_name water) = Some bp ∧
          pad_basis 0 bp water_coeff = Some w ∧
    (∀ a s N L n l m,
       water !! a = Some s →
       get (max_n bp) s = Some N → get (max_l bp) s = Some L →
       1 ≤ n ≤ N → l ≤ L → m ≤ 2 * l →
       slot w s (rank water a s) (slot_of L n l m)
       = if decide ((n, l) ∈ sp_basis s)
         then water_coeff !! ao_index sp_basis water a s (n, l) m
         else Some 0) ∧
    (∀ a s nl m,
       water !! a = Some s → nl ∈ sp_basis s → m ≤ 2 * nl.2 →
       ao_labels_raw (M sp_basis cart_name water)
         !! ao_index sp_basis water a s nl m
       = Some (a, s, str_of_nat nl.1 +:+ String (ANGULAR nl.2) "",
               cart_name nl.2 m)).
Proof.
  apply (pad_basis_layout 0 sp_basis cart_name water water_coeff).
  - exact PadderClaims.water_licit.
  - vm_compute. reflexivity.
Defined.

(** ** Loops that raise *)

Lemma foldlM_fail {St X} (f : St → X → option St) s xs x :
  x ∈ xs → (∀ st, f st x = None) → foldlM f s xs = None.
Proof.
  intros Hx Hf. revert s. induction xs as [|y xs IH]; intros s.
  - by apply elem_of_nil in Hx.
  - cbn [foldlM]. apply elem_of_cons in Hx as [<-|Hx].
    + by rewrite Hf.
    + destruct (f s y); [by apply IH|done].
Qed.

Lemma foldlM_fail_at {St X} (f : St → X → option St) (I : nat → St → Prop)
    xs i0 s j x :
  I i0 s →
  (∀ i y st st', xs !! i = Some y → I (i0 + i) st → f st y = Some st' →
     I (S (i0 + i)) st') →
  xs !! j = Some x → (∀ st, I (i0 + j) st → f st x = None) →
  foldlM f s xs = None.
Proof.
  revert i0 s j. induction xs as [|y xs IH]; intros i0 s j H0 Hstep Hj Hf.
  - done.
  - cbn [foldlM]. destruct j as [|j].
    + injection Hj as ->. rewrite Hf; [done|]. by rewrite Nat.add_0_r.
    + destruct (f s y) as [s'|] eqn:E; [|done]. cbn [mbind option_bind].
      apply (IH (S i0) s' j).
      * specialize (Hstep 0 y s s'). rewrite Nat.add_0_r in Hstep.
        by apply Hstep.
      * intros i z st st' Hi HI Hz.
        replace (S i0 + i) with (i0 + S i) in * by lia.
        by apply (Hstep (S i) z st st').
      * done.
      * intros st HI. apply Hf. by replace (i0 + S j) with (S i0 + j) by lia.
Qed.

Lemma foldlM_ext_in {St X} (f g : St → X → option St) s xs :
  (∀ st x, x ∈ xs → f st x = g st x) → foldlM f s xs = foldlM g s xs.
Proof.
  revert s. induction xs as [|x xs IH]; intros s H; [done|].
  cbn [foldlM]. rewrite H by by left.
  destruct (g s x); [|done]. cbn [mbind option_bind].
  apply IH. intros st y Hy. apply H. by right.
Qed.

(** ** Keys and shape of the padded mapping *)

Lemma mapM_zeros_keys {A} (zero : A) bp ks co :
  mapM (zeros_for zero bp) ks = Some co → keys co = ks.
Proof.
  revert co. induction ks as [|s ks IH]; intros co H.
  - by injection H as <-.
  - cbn [mapM] in H.
    destruct (zeros_for zero bp s) as [x|] eqn:E; [|done].
    cbn [mbind option_bind] in H.
    destruct (mapM (zeros_for zero bp) ks) as [co'|]; [|done].
    cbn [mbind option_bind mret option_ret] in H. injection H as <-.
    unfold keys. rewrite fmap_cons. f_equal; [|by apply IH].
    unfold zeros_for in E.
    destruct (get (sym_cnt bp) s); [|done].
    destruct (get (max_n bp) s); [|done].
    destruct (get (max_l bp) s); [|done].
    by injection E as <-.
Qed.

Lemma pad_atom_keys {A} bp (v : list A) st x st' :
  pad_atom bp v st x = Some st' → keys st'.1 = keys st.1.
Proof.
  destruct x as [a [s0 s1]]. unfold pad_atom. intros H.
  destruct (atom_pure_symbol (mol bp) !! a) as [s|]; [|done].
  cbn [mbind option_bind] in H.
  destruct (get st.2 s) as [k|]; [|done]. cbn [mbind option_bind] in H.
  destruct (get (indexing_l bp) s ≫= (.!! k)) as [m|]; [|done].
  cbn [mbind option_bind] in H.
  destruct (get (indexing_r bp) s ≫= (.!! k)) as [rs|]; [|done].
  cbn [mbind option_bind] in H.
  destruct (index_array rs s0) as [idx|]; [|done].
  cbn [mbind option_bind] in H.
  destruct (take_idx (slice v s0 s1) idx) as [vals|]; [|done].
  cbn [mbind option_bind] in H.
  destruct (get st.1 s) as [arr|] eqn:Harr; [|done].
  cbn [mbind option_bind] in H.
  destruct (setitem_row_mask arr k m vals) as [arr'|]; [|done].
  cbn [mbind option_bind] in H. injection H as <-. cbn [fst].
  apply keys_set_present. by eexists.
Qed.

Lemma pad_basis_keys {A} (zero : A) bp v w :
  pad_basis zero bp v = Some w → keys w = keys (indexing_l bp).
Proof.
  unfold pad_basis. intros H.
  destruct (mapM (zeros_for zero bp) (keys (indexing_l bp))) as [co|] eqn:E;
    [|done].
  cbn [mbind option_bind] in H. apply mapM_zeros_keys in E.
  destruct (foldlM _ _ _) as [st|] eqn:F; [|done].
  cbn in H. injection H as <-.
  apply (foldlM_inv (pad_atom bp v)
           (λ _ st, keys st.1 = keys (indexing_l bp))) in F; [done|done|].
  intros i x st0 st' _ HI Hs. by rewrite (pad_atom_keys _ _ _ _ _ Hs).
Qed.

Lemma pad_shape {A : Type} (zero : A) basis mname atoms (v : list A) :
  licit basis mname atoms →
  length v = length (ao_labels (M basis mname atoms)) →
  ∃ bp w, __init__ (M basis mname atoms) = Some bp ∧
          pad_basis zero bp v = Some w ∧
          keys w = keys (indexing_l bp) ∧
          (∀ s, s ∈ keys w ↔ s ∈ atoms) ∧
          ∀ s, s ∈ atoms →
            ∃ N L arr,
              get (max_n bp) s = Some N ∧ get (max_l bp) s = Some L ∧
              get w s = Some arr ∧
              get (sym_cnt bp) s = Some (length arr) ∧
              Forall (λ row, length row = N * (L + 1) ^ 2) arr.
Proof.
  intros Hlic Hlen.
  destruct (init_both basis mname atoms Hlic)
    as (bp & Hinit & Hwf & Hmol & _ & Hkeys & Hcnt & Hrows).
  assert (Hlen' : length v = length (ao_labels_raw (mol bp))).
  { rewrite Hmol. unfold ao_labels in Hlen. by rewrite length_fmap in Hlen. }
  destruct (pad_basis_ok zero bp Hwf v Hlen') as [w Hpad].
  pose proof (pad_basis_keys zero bp v w Hpad) as Hk.
  exists bp, w. split_and!; [done..| |].
  - intros s. rewrite Hk. apply Hkeys.
  - intros s Hs. destruct (list_elem_of_lookup_1 _ _ Hs) as [a0 Ha0].
    destruct (Hrows a0 s Ha0) as (N & L & HN & HL & _ & _ & _ & _ & Hmk0 & Hrs0).
    assert (Ha0' : atom_pure_symbol (mol bp) !! a0 = Some s) by by rewrite Hmol.
    destruct (pad_rows zero bp Hwf v w a0 s (mask_row (basis s) N L)
                (rs_row (basis s)
                   (sum_list (nao_atom basis <$> take a0 atoms)) N L)
                Hpad Ha0') as (arr & Hw & Hlarr & _).
    { by rewrite Hmol. }
    { by rewrite Hmol. }
    rewrite Hmol in Hlarr. cbn [atom_pure_symbol M] in Hlarr.
    exists N, L, arr. split_and!; [done..| |].
    + rewrite Hcnt, decide_True by done. by rewrite Hlarr.
    + apply Forall_lookup. intros k row Hk0.
      assert (k < length (atoms_of s atoms)) as Hlt.
      { rewrite <- Hlarr. by eapply lookup_lt_Some. }
      destruct (lookup_lt_is_Some_2 _ _ Hlt) as [a Ha].
      apply rank_atoms_of in Ha as [Ha Hrk].
      destruct (Hrows a s Ha)
        as (N' & L' & HN' & HL' & _ & _ & _ & _ & Hmk & Hrs).
      assert (N' = N) as -> by congruence.
      assert (L' = L) as -> by congruence.
      assert (Ha' : atom_pure_symbol (mol bp) !! a = Some s) by by rewrite Hmol.
      destruct (pad_rows zero bp Hwf v w a s (mask_row (basis s) N L)
                  (rs_row (basis s)
                     (sum_list (nao_atom basis <$> take a atoms)) N L)
                  Hpad Ha') as (arr' & Hw' & _ & Hrow).
      { by rewrite Hmol. }
      { by rewrite Hmol. }
      rewrite Hmol in Hrow. cbn [atom_pure_symbol M] in Hrow.
      assert (arr' = arr) as -> by congruence.
      rewrite Hrk, Hk0 in Hrow. injection Hrow as ->.
      by rewrite scatter_mask_length, length_replicate, mask_row_length.
Qed.



(** ** Inputs the padder refuses *)

Lemma slice_app_l {A} (v e : list A) lo hi :
  hi ≤ length v → slice (v ++ e) lo hi = slice v lo hi.
Proof.
  intros H. unfold slice. destruct (decide (lo ≤ length v)) as [Hlo|Hlo].
  - rewrite drop_app_le by done. apply take_app_le.
    rewrite length_drop. lia.
  - replace (hi - lo) with 0 by lia. done.
Qed.

(** [pad_basis] and [unpad_basis] raise when an atom's species has no
    entry in the index map: such a species has no atomic-orbital label, so
    the constructor never met it in its second loop. *)
Theorem padding_unknown_species {A : Type} (zero : A) (bp : BasisPadder.t)
    (a : nat) (s : string) (x : nat * nat) (v : list A)
    (coeff : dict (ndarray A)) :
  atom_pure_symbol (mol bp) !! a = Some s →
  aoslice_by_atom (mol bp) !! a = Some x →
  s ∉ keys (indexing_l bp) →
  pad_basis zero bp v = None ∧ unpad_basis zero bp coeff = None.
Proof.
  intros Ha Hx Hs. apply get_None_keys in Hs.
  assert (Hin : (a, x) ∈ enumerate (aoslice_by_atom (mol bp))).
  { by apply elem_of_enumerate. }
  split.
  - unfold pad_basis.
    destruct (mapM _ _) as [co|]; [|done]. cbn [mbind option_bind].
    rewrite (foldlM_fail _ _ _ (a, x) Hin); [done|].
    intros st. destruct x as [s0 s1]. unfold pad_atom. rewrite Ha.
    cbn [mbind option_bind]. destruct (get st.2 s); [|done].
    cbn [mbind option_bind]. by rewrite Hs.
  - unfold unpad_basis.
    rewrite (foldlM_fail _ _ _ (a, x) Hin); [done|].
    intros st. destruct x as [s0 s1]. unfold unpad_atom. rewrite Ha.
    cbn [mbind option_bind].
    destruct (get coeff s ≫= first_slab); [|done].
    cbn [mbind option_bind]. destruct (get st.2 s); [|done].
    cbn [mbind option_bind]. by rewrite Hs.
Qed.

Lemma padding_unknown_species_ghost :
  pad_basis 0 MoreExamples.ghost_padder [5; 6; 7] = None ∧
  unpad_basis 0 MoreExamples.ghost_padder
    [("O", Arr2 [[5]]); ("H", Arr2 [[6]; [7]])] = None.
Proof.
  apply (padding_unknown_species 0 MoreExamples.ghost_padder 1 "H" (1, 1)).
  - vm_compute. reflexivity.
  - vm_compute. reflexivity.
  - apply (bool_decide_unpack _). vm_compute. exact I.
Defined.

(** [unpad_basis] raises when the mapping it is handed has no array for
    the species of some atom, or an empty stack of slabs. *)
Theorem unpad_basis_missing_entry {A : Type} (zero : A) (bp : BasisPadder.t)
    (a : nat) (s : string) (x : nat * nat) (coeff : dict (ndarray A)) :
  atom_pure_symbol (mol bp) !! a = Some s →
  aoslice_by_atom (mol bp) !! a = Some x →
  get coeff s = None ∨ get coeff s = Some (Arr3 []) →
  unpad_basis zero bp coeff = None.
Proof.
  intros Ha Hx Hs.
  assert (Hin : (a, x) ∈ enumerate (aoslice_by_atom (mol bp))).
  { by apply elem_of_enumerate. }
  unfold unpad_basis.
  rewrite (foldlM_fail _ _ _ (a, x) Hin); [done|].
  intros st. destruct x as [s0 s1]. unfold unpad_atom. rewrite Ha.
  cbn [mbind option_bind]. by destruct Hs as [-> | ->].
Qed.

Lemma unpad_basis_missing_entry_water :
  unpad_basis 0 MoreExamples.water_padder [("O", Arr2 [[1; 2; 3; 4; 5; 6; 7; 8]])]
  = None.
Proof.
  apply (unpad_basis_missing_entry 0 MoreExamples.water_padder 1 "H" (5, 6)).
  - vm_compute. reflexivity.
  - vm_compute. reflexivity.
  - left. vm_compute. reflexivity.
Defined.

Section lengths.
Context {A : Type} (zero : A).
Variable bp : BasisPadder.t.
Hypothesis Hwf : wf bp.

Lemma pad_surplus (v extra : list A) :
  length v = length (ao_labels_raw (mol bp)) →
  pad_basis zero bp (v ++ extra) = pad_basis zero bp v.
Proof using Hwf.
  intros Hlen. unfold pad_basis.
  destruct (mapM _ _) as [co|]; [|done]. cbn [mbind option_bind]. f_equal.
  apply foldlM_ext_in. intros st [a [s0 s1]] Hin.
  apply elem_of_enumerate in Hin. cbn [fst snd] in Hin.
  destruct (sl_bounds bp Hwf a s0 s1 Hin) as [_ Hs1].
  unfold pad_atom. rewrite slice_app_l by lia. done.
Qed.

Lemma pad_short (v : list A) :
  length v < length (ao_labels_raw (mol bp)) → pad_basis zero bp v = None.
Proof using Hwf.
  intros Hlen. unfold pad_basis.
  destruct (pad_init zero bp Hwf v) as (co & -> & Hinit).
  cbn [mbind option_bind].
  destruct (sl_cover bp Hwf (length v) Hlen) as (a & s0 & s1 & Hsl & Hr).
  rewrite (foldlM_fail_at (pad_atom bp v) (pad_inv zero bp v)
             (enumerate (aoslice_by_atom (mol bp))) 0 _ a (a, (s0, s1)));
    [done|done| | |].
  - intros i y st st' Hy HI Hst. cbn [Nat.add] in *.
    by apply (pad_step zero bp Hwf v i y st st').
  - by apply enumerate_lookup.
  - cbn [Nat.add]. intros st [Hcnt _].
    destruct (sl_atom bp Hwf a s0 s1 Hsl) as [s Ha].
    destruct (wf_atom bp Hwf a s Ha)
      as (s0' & s1' & m & rs & Hsl' & _ & _ & Hm & Hrs & _ & Hperm & Hne).
    rewrite Hsl in Hsl'. injection Hsl' as <- <-.
    assert (Hs : s ∈ atom_pure_symbol (mol bp))
      by by eapply list_elem_of_lookup_2.
    unfold pad_atom. rewrite Ha. cbn [mbind option_bind].
    rewrite (Hcnt s Hs). cbn [mbind option_bind].
    unfold mask_of in Hm. unfold rs_of in Hrs. rewrite Hm, Hrs.
    cbn [mbind option_bind].
    assert (index_array rs s0
            = Some ((λ r : nat, (Z.of_nat r - Z.of_nat s0)%Z) <$> rs)) as ->.
    { unfold index_array. by destruct rs. }
    cbn [mbind option_bind].
    destruct (take_idx (slice v s0 s1) _) as [vals|] eqn:Et; [|done].
    exfalso.
    assert (Hin : s1 - 1 ∈ rs).
    { rewrite Hperm. apply elem_of_seq. lia. }
    unfold take_idx in Et.
    assert (is_Some (mapM (λ i, p ← norm_index (length (slice v s0 s1)) i;
                                slice v s0 s1 !! p)
                       ((λ r : nat, (Z.of_nat r - Z.of_nat s0)%Z) <$> rs)))
      as Hsome by by eexists.
    apply mapM_is_Some_1 in Hsome. rewrite Forall_forall in Hsome.
    destruct (Hsome (Z.of_nat (s1 - 1) - Z.of_nat s0)%Z) as [y Hy].
    { apply (list_elem_of_fmap_2
               (λ r : nat, (Z.of_nat r - Z.of_nat s0)%Z) rs (s1 - 1) Hin). }
    unfold compose in Hy. rewrite norm_index_nat in Hy by lia.
    rewrite decide_False in Hy; [done|].
    unfold slice. rewrite length_take, length_drop. lia.
Qed.
End lengths.

(** [pad_basis] reads exactly one coefficient per atomic-orbital label: it
    raises on a shorter vector and ignores whatever follows in a longer
    one. *)
Theorem pad_basis_input_length {A : Type} (zero : A) basis mname atoms :
  licit basis mname atoms →
  ∃ bp, __init__ (M basis mname atoms) = Some bp ∧
    (∀ v : list A,
       length v < length (ao_labels (M basis mname atoms)) →
       pad_basis zero bp v = None) ∧
    (∀ v extra : list A,
       length v = length (ao_labels (M basis mname atoms)) →
       pad_basis zero bp (v ++ extra) = pad_basis zero bp v).
Proof.
  intros Hlic.
  destruct (init_wf basis mname atoms Hlic) as (bp & Hinit & Hwf & Hmol).
  assert (Hn : length (ao_labels (M basis mname atoms))
               = length (ao_labels_raw (mol bp))).
  { rewrite Hmol. unfold ao_labels. by rewrite length_fmap. }
  exists bp. split_and!; [done| |].
  - intros v Hv. apply pad_short; [done|lia].
  - intros v extra Hv. apply pad_surplus; [done|lia].
Qed.

Lemma pad_basis_input_length_water :
  ∃ bp, __init__ (M sp_basis cart_name water) = Some bp ∧
    (∀ v : list nat,
       length v < length (ao_labels (M sp_basis cart_name water)) →
       pad_basis 0 bp v = None) ∧
    (∀ v extra : list nat,
       length v = length (ao_labels (M sp_basis cart_name water)) →
       pad_basis 0 bp (v ++ extra) = pad_basis 0 bp v).
Proof.
  apply (pad_basis_input_length 0 sp_basis cart_name water).
  exact PadderClaims.water_licit.
Defined.

(** ** [get_basis_json] *)




End PadderProps.

(** * Properties of [PySCFProjector] *)

Module ProjectorProps.
Import Py Np Pyscf BasisPadder Spec PyFacts WfFacts PadFacts RoundTrip
  ProjectorFacts Layout LayoutFacts PadderProps Examples MoreExamples
  ProjectorExamples.
Import PySCFProjector.

Lemma pop_None {V} (d : dict V) k : get d k = None → pop d k = None.
Proof.
  induction d as [|[k0 v0] d IH]; [done|]. cbn [get pop].
  destruct (decide (k0 = k)); [done|]. intros H. by rewrite IH.
Qed.

Lemma elem_get {V} (d : dict V) k v :
  NoDup (keys d) → (k, v) ∈ d → get d k = Some v.
Proof.
  unfold keys. induction d as [|[k0 v0] d IH]; intros Hnd Hin.
  - by apply elem_of_nil in Hin.
  - rewrite fmap_cons in Hnd. apply NoDup_cons in Hnd as [Hk0 Hnd].
    cbn [get]. apply elem_of_cons in Hin as [[= <- <-]|Hin].
    + by rewrite decide_True.
    + rewrite decide_False; [by apply IH|].
      intros ->. apply Hk0.
      apply (list_elem_of_fmap_2 fst d (k, v) Hin).
Qed.

Section projector.
Context {A : Type} (zero : A).
Context {DM V : Type}.
Variable get_coeff : DM → list A.
Variable sub_dm_init : DM → DM.
Variable einsum_V : list A → V.

Lemma get_V_plain (self : PySCFProjector.t) (r : loc)
    (h : gmap loc (dict (ndarray A))) :
  spec_agnostic self = false →
  get_V zero einsum_V self r h
  = (h, d ← h !! r; einsum_V <$> unpad_basis zero (bp self) d).
Proof.
  intros Hag. unfold get_V. rewrite Hag.
  unfold bind, ret, deref, lift. destruct (h !! r) as [d|]; [|done].
  cbn [mbind option_bind]. by destruct (unpad_basis zero (bp self) d).
Qed.

Lemma get_V_agnostic_run (self : PySCFProjector.t) part (r : loc)
    (h : gmap loc (dict (ndarray A))) (d1 d2 : dict (ndarray A)) :
  spec_agnostic self = true → spec_partition self = Some part →
  split_loop r part 0 h = (<[r := d1]> h, Some ()) →
  pop d1 "X" = Some d2 →
  get_V zero einsum_V self r h
  = (<[r := d2]> h, einsum_V <$> unpad_basis zero (bp self) d2).
Proof.
  intros Hag Hpart Hsplit Hpop. unfold get_V. rewrite Hag, Hpart.
  unfold bind, lift, ret, deref. rewrite Hsplit. unfold dict_pop.
  rewrite lookup_insert_eq. cbn [mbind option_bind]. rewrite Hpop.
  rewrite insert_insert_eq, lookup_insert_eq.
  by destruct (unpad_basis zero (bp self) d2).
Qed.

Lemma get_V_agnostic_fails (self : PySCFProjector.t) (r : loc)
    (h : gmap loc (dict (ndarray A))) :
  spec_agnostic self = true →
  spec_partition self = None ∨ (h !! r ≫= λ d, get d "X") = None →
  get_V zero einsum_V self r h = (h, None).
Proof.
  intros Hag H. unfold get_V. rewrite Hag.
  destruct (spec_partition self) as [part|] eqn:Hp; [|done].
  destruct H as [|H]; [done|].
  unfold bind at 1 2. unfold lift.
  destruct part as [|[sym n] part].
  - cbn [split_loop]. unfold bind, ret, dict_pop.
    destruct (h !! r) as [d|]; [|done]. cbn [mbind option_bind] in *.
    by rewrite pop_None.
  - cbn [split_loop]. unfold bind at 1 2. unfold dict_getitem. by rewrite H.
Qed.

End projector.

(** [get_V] changes the store only in species-agnostic mode and only when
    the dictionary has the key ['X']: in the other mode the dictionary is
    left as it is, and in species-agnostic mode a call before any
    [get_basis_rep], or on a dictionary without ['X'], raises without
    having changed anything. *)
Theorem get_V_store_unchanged {A : Type} (zero : A) {V : Type}
    (einsum_V : list A → V) (self : PySCFProjector.t)
    (h : gmap loc (dict (ndarray A))) (r : loc) :
  spec_agnostic self = false ∨
  spec_partition self = None ∨ (h !! r ≫= λ d, get d "X") = None →
  (get_V zero einsum_V self r h).1 = h ∧
  (spec_agnostic self = true → (get_V zero einsum_V self r h).2 = None).
Proof.
  intros H. destruct (spec_agnostic self) eqn:Hag.
  - destruct H as [|H]; [done|].
    by rewrite (get_V_agnostic_fails zero einsum_V self r h Hag H).
  - by rewrite (get_V_plain zero einsum_V self r h Hag).
Qed.

Lemma get_V_store_unchanged_sample :
  (get_V 0 Examples.einsum_V (agnostic None) 0 (store grad3)).1 = store grad3 ∧
  (spec_agnostic (agnostic None) = true →
   (get_V 0 Examples.einsum_V (agnostic None) 0 (store grad3)).2 = None).
Proof.
  apply (get_V_store_unchanged 0 Examples.einsum_V (agnostic None)
           (store grad3) 0).
  right. left. reflexivity.
Defined.



Lemma unpad_basis_ext_in {A} (zero : A) (pd : BasisPadder.t)
    (coeff coeff' : dict (ndarray A)) :
  (∀ s, s ∈ atom_pure_symbol (mol pd) →
        get coeff s ≫= first_slab = get coeff' s ≫= first_slab) →
  unpad_basis zero pd coeff = unpad_basis zero pd coeff'.
Proof.
  intros H. unfold unpad_basis. f_equal. apply foldlM_ext.
  intros st [a [s0 s1]]. unfold unpad_atom.
  destruct (atom_pure_symbol (mol pd) !! a) as [s|] eqn:Ha; [|done].
  cbn [mbind option_bind]. rewrite H; [done|].
  by eapply list_elem_of_lookup_2.
Qed.

(** In species-agnostic mode, for a geometry whose species all carry the
    same shells and none of which is called ['X'], [get_basis_rep] returns
    the single array ['X'], and [get_V], handed a dictionary whose ['X'] is
    a stack led by that array, contracts the very coefficient vector that
    was padded. *)
Theorem agnostic_cycle {A : Type} (zero : A) {DM V : Type}
    (get_coeff : DM → list A) (sub_dm_init : DM → DM)
    (einsum_V : list A → V) basis mname atoms
    (self : PySCFProjector.t) (dm : DM) :
  licit basis mname atoms →
  (∀ s s', s ∈ atoms → s' ∈ atoms → basis s = basis s') →
  atoms ≠ [] → "X" ∉ atoms →
  __init__ (M basis mname atoms) = Some (bp self) →
  spec_agnostic self = true →
  length (get_coeff (if delta self then sub_dm_init dm else dm))
  = length (ao_labels (M basis mname atoms)) →
  ∃ self' X,
    get_basis_rep zero get_coeff sub_dm_init self dm
      = (self', Some [("X", X)]) ∧
    ∀ (h : gmap loc (dict (ndarray A))) (r : loc) d rest,
      h !! r = Some d → NoDup (keys d) →
      get d "X" = Some (Arr3 (X :: rest)) →
      (get_V zero einsum_V self' r h).2
      = Some (einsum_V
                (get_coeff (if delta self then sub_dm_init dm else dm))).
Proof.
  intros Hlic Hsame Hne HX Hinit Hag Hlen.
  set (v := get_coeff (if delta self then sub_dm_init dm else dm)) in *.
  destruct (init_both basis mname atoms Hlic)
    as (bp0 & Hinit0 & Hwf & Hmol & Hnd & Hkeys & Hcnt & Hrows).
  assert (bp0 = bp self) as -> by congruence.
  destruct (pad_shape zero basis mname atoms v Hlic Hlen)
    as (bp' & coeff & Hinit' & Hpad & Hk & Hkat & Hsh).
  assert (bp' = bp self) as -> by congruence.
  destruct (unpad_pad_wf zero (bp self) Hwf v) as (w & Hpad' & Hunpad).
  { rewrite Hmol. unfold ao_labels in Hlen. by rewrite length_fmap in Hlen. }
  assert (w = coeff) as -> by congruence.
  assert (Hndc : NoDup (keys coeff)) by by rewrite Hk.
  assert (HXk : "X" ∉ keys coeff) by by rewrite Hkat.
  destruct atoms as [|s0 atoms0] eqn:Eat; [done|]. rewrite <- Eat in *.
  assert (Hs0 : s0 ∈ atoms) by (rewrite Eat; by left).
  assert (Hnec : coeff ≠ []).
  { intros ->. apply Hkat in Hs0. by apply elem_of_nil in Hs0. }
  destruct (Hsh s0 Hs0) as (N0 & L0 & arr0 & HN0 & HL0 & _).
  assert (Hmax : ∀ s, s ∈ atoms →
            get (max_n (bp self)) s = Some N0 ∧
            get (max_l (bp self)) s = Some L0).
  { intros s Hs.
    destruct (list_elem_of_lookup_1 _ _ Hs) as [a Ha].
    destruct (list_elem_of_lookup_1 _ _ Hs0) as [a0 Ha0].
    destruct (Hrows a s Ha)
      as (N & L & HN & HL & _ & Hb & (n1 & Hn1 & En1) & (n2 & Hn2 & En2) & _).
    destruct (Hrows a0 s0 Ha0)
      as (N' & L' & HN' & HL' & _ & Hb0 & (m1 & Hm1 & Em1) & (m2 & Hm2 & Em2)
          & _).
    assert (N' = N0) as -> by congruence.
    assert (L' = L0) as -> by congruence.
    rewrite (Hsame s s0 Hs Hs0) in Hb, Hn1, Hn2.
    destruct (Hb0 n1 Hn1) as [? _]. destruct (Hb0 n2 Hn2) as [_ ?].
    destruct (Hb m1 Hm1) as [? _]. destruct (Hb m2 Hm2) as [_ ?].
    rewrite HN, HL. split; f_equal; lia. }
  assert (Hwd : Forall (λ x : string * list (list A),
                   Forall (λ row, length row = N0 * (L0 + 1) ^ 2) x.2) coeff).
  { apply Forall_forall. intros [s arr] Hin. cbn [snd].
    assert (Hs : s ∈ atoms).
    { apply Hkat. apply (list_elem_of_fmap_2 fst coeff (s, arr) Hin). }
    destruct (Hsh s Hs) as (N & L & arr' & HN & HL & Hw & _ & Hall).
    destruct (Hmax s Hs) as [HN' HL'].
    assert (N = N0) as -> by congruence.
    assert (L = L0) as -> by congruence.
    rewrite (elem_get coeff s arr Hndc Hin) in Hw. by injection Hw as <-. }
  set (part := (λ x : string * list (list A), (x.1, length x.2)) <$> coeff).
  set (self' := {| spec_agnostic := true; delta := delta self;
                   bp := bp self; spec_partition := Some part |}).
  exists self', (concat coeff.*2). split.
  - unfold get_basis_rep. cbn zeta. fold v. rewrite Hpad, Hag.
    rewrite (concatenate0_uniform _ (N0 * (L0 + 1) ^ 2)).
    + done.
    + by destruct coeff.
    + apply Forall_fmap. by apply (Forall_impl _ _ _ Hwd).
  - intros h r d rest Hr Hd HdX.
    assert (keys part = keys coeff) as Hkp
      by apply ProjectorClaims.keys_fmap_keyed.
    destruct (split_loop_values r part 0 h d _ Hr HdX)
      as (d1 & E1 & HX1 & _ & Hval); [by rewrite Hkp..|].
    destruct (split_loop_run r part 0 h d Hr Hd)
      as (d1' & E1' & Hnd1 & _); [by eexists|].
    assert (d1' = d1) as ->.
    { rewrite E1 in E1'. injection E1' as E1'.
      by apply eq_sym, ProjectorClaims.insert_heap_inj in E1'. }
    destruct (pop_spec d1 "X" Hnd1) as (d2 & Hpop & Hnone & Hother);
      [by eexists|].
    rewrite (get_V_agnostic_run zero einsum_V self' part r h d1 d2);
      [|done..].
    cbn [snd bp self'].
    rewrite (unpad_basis_ext_in zero (bp self) d2 (arr2_dict coeff)).
    { by rewrite Hunpad. }
    intros s Hs. rewrite Hmol in Hs. cbn [atom_pure_symbol M] in Hs.
    assert (Hsx : s ≠ "X") by (intros ->; done).
    rewrite (Hother s Hsx).
    destruct (get coeff s) as [arr|] eqn:Hsym.
    2:{ apply get_None_keys in Hsym. by apply Hkat in Hs. }
    unfold arr2_dict. rewrite get_fmap_values, Hsym.
    destruct (ProjectorClaims.get_Some_lookup _ _ _ Hsym) as [j Hj].
    rewrite (Hval j s (length arr)).
    2:{ subst part. by rewrite list_lookup_fmap, Hj. }
    cbn [mbind option_bind slice_axis1 first_slab fmap option_fmap
         option_map list_fmap lookup list_lookup].
    f_equal.
    assert (part.*2 = length <$> coeff.*2) as ->.
    { subst part. rewrite <- !list_fmap_compose. by apply list_fmap_ext. }
    rewrite !Nat.add_0_l. apply slice_concat.
    by rewrite list_lookup_fmap, Hj.
Qed.

Lemma agnostic_cycle_water :
  ∃ self' X,
    get_basis_rep 0 Examples.get_coeff Examples.sub_dm_init (agnostic None)
      water_s_coeff = (self', Some [("X", X)]) ∧
    ∀ (h : gmap loc (dict (ndarray nat))) (r : loc) d rest,
      h !! r = Some d → NoDup (keys d) →
      get d "X" = Some (Arr3 (X :: rest)) →
      (get_V 0 Examples.einsum_V self' r h).2
      = Some (Examples.einsum_V
                (Examples.get_coeff
                   (if delta (agnostic None)
                    then Examples.sub_dm_init water_s_coeff
                    else water_s_coeff))).
Proof.
  apply (agnostic_cycle 0 Examples.get_coeff Examples.sub_dm_init
           Examples.einsum_V s_basis cart_name water (agnostic None)
           water_s_coeff).
  - exact PadderClaims.water_s_licit.
  - reflexivity.
  - discriminate.
  - apply (bool_decide_unpack _). vm_compute. exact I.
  - vm_compute. reflexivity.
  - reflexivity.
  - vm_compute. reflexivity.
Defined.

End ProjectorProps.

(** * Properties of [GaussianProjector.get_basis_rep] *)

Module GaussianProps.
Import Py GaussianProjector GaussianFacts GaussianRows Examples.

Section projector.
Context {Rho Pos Basis Coef Angs : Type}.
Variable fmt_idx : string → Pos → option string.
Variable project_body : Rho → Pos → Basis → string → option (list Coef).

Abbreviation gproj := (@GaussianProjector.t Basis Angs).

(** The loop raises as soon as one atom does. *)
Lemma rep_loop_fails m (self : gproj) rho atoms x cache br :
  x ∈ atoms →
  get (basis self) x.2 = None ∨ get (basis_strings self) x.2 = None →
  (rep_loop fmt_idx project_body m self rho atoms cache br).2 = None.
Proof.
  intros Hx Hbad. revert cache br.
  induction atoms as [|[pos spec] atoms IH]; intros cache br.
  - by apply elem_of_nil in Hx.
  - cbn [rep_loop]. apply elem_of_cons in Hx as [->|Hx].
    + cbn [snd] in Hbad. destruct (fmt_idx spec pos) as [idx|]; [|done].
      cbn [mbind option_bind].
      destruct (get (basis self) spec) as [b|]; [|done].
      cbn [mbind option_bind]. destruct Hbad as [|Hbad]; [done|].
      by rewrite Hbad.
    + destruct (fmt_idx spec pos) as [idx|]; [|done].
      cbn [mbind option_bind].
      destruct (get (basis self) spec) as [b|]; [|done].
      cbn [mbind option_bind].
      destruct (get (basis_strings self) spec) as [bs|]; [|done].
      cbn [mbind option_bind]. unfold project.
      destruct (project_body rho pos b bs) as [c|]; [|done].
      cbn [mbind option_bind]. by apply IH.
Qed.

(** Without memory the cache is never written; with memory every write
    stores [None]. *)
Lemma rep_loop_cache_off (self : gproj) rho atoms cache br :
  (rep_loop fmt_idx project_body false self rho atoms cache br).1 = cache.
Proof.
  revert cache br. induction atoms as [|[pos spec] atoms IH];
    intros cache br; [done|].
  cbn [rep_loop]. destruct (fmt_idx spec pos) as [idx|]; [|done].
  cbn [mbind option_bind].
  destruct (get (basis self) spec) as [b|]; [|done].
  cbn [mbind option_bind].
  destruct (get (basis_strings self) spec) as [bs|]; [|done].
  cbn [mbind option_bind]. unfold project.
  destruct (project_body rho pos b bs) as [c|]; [|done].
  cbn [mbind option_bind]. apply IH.
Qed.

Lemma rep_loop_cache_on m (self : gproj) rho atoms cache br idx :
  let cache' :=
    (rep_loop fmt_idx project_body m self rho atoms cache br).1 in
  get cache' idx = get cache idx ∨ get cache' idx = Some None.
Proof.
  cbn zeta. revert cache br. induction atoms as [|[pos spec] atoms IH];
    intros cache br; [by left|].
  cbn [rep_loop]. destruct (fmt_idx spec pos) as [i|]; [|by left].
  cbn [mbind option_bind].
  destruct (get (basis self) spec) as [b|]; [|by left].
  cbn [mbind option_bind].
  destruct (get (basis_strings self) spec) as [bs|]; [|by left].
  cbn [mbind option_bind]. unfold project.
  destruct (project_body rho pos b bs) as [c|]; [|by left].
  cbn [mbind option_bind].
  match goal with
  | |- context [rep_loop _ _ m self rho atoms ?c1 ?b1] =>
      destruct (IH c1 b1) as [E|E]
  end; [|by right].
  rewrite E. destruct m; [|by left].
  rewrite PyFacts.get_set. destruct (decide (i = idx)); [by right|by left].
Qed.

End projector.

(** [get_basis_rep] raises when the species of some atom has no entry in
    the projector's basis or in its basis strings, wherever that atom
    stands in the list. *)
Theorem get_basis_rep_unknown_species {Rho Pos Basis Coef Angs : Type}
    (fmt_idx : string → Pos → option string)
    (project_body : Rho → Pos → Basis → string → option (list Coef))
    (UseMemory : bool) (self : @GaussianProjector.t Basis Angs) (rho : Rho)
    (positions : list Pos) (species : list string) (x : Pos * string) :
  x ∈ zip positions species →
  get (basis self) x.2 = None ∨ get (basis_strings self) x.2 = None →
  (get_basis_rep fmt_idx project_body UseMemory self rho positions
     species).2 = None.
Proof.
  intros Hx Hbad. unfold get_basis_rep.
  pose proof (rep_loop_fails fmt_idx project_body UseMemory self rho
                (zip positions species) x (all_angs self) [] Hx Hbad) as H.
  destruct (rep_loop _ _ _ _ _ _ _ _) as [cache r]. cbn [snd] in *.
  by rewrite H.
Qed.

Lemma get_basis_rep_unknown_species_sample :
  (get_basis_rep Examples.fmt_idx Examples.project_body true
     oxygen_projector 3 [[0; 0; 0]; [1; 0; 0]] ["O"; "H"]).2 = None.
Proof.
  apply (get_basis_rep_unknown_species Examples.fmt_idx
           Examples.project_body true oxygen_projector 3
           [[0; 0; 0]; [1; 0; 0]] ["O"; "H"] ([1; 0; 0], "H")).
  - apply (bool_decide_unpack _). vm_compute. exact I.
  - left. vm_compute. reflexivity.
Defined.

(** With the memory switched off [get_basis_rep] leaves the projector as
    it is; with the memory switched on the only change is in the cache of
    angular grids, and whatever it writes there is [None]. *)
Theorem get_basis_rep_memory {Rho Pos Basis Coef Angs : Type}
    (fmt_idx : string → Pos → option string)
    (project_body : Rho → Pos → Basis → string → option (list Coef))
    (self : @GaussianProjector.t Basis Angs) (rho : Rho)
    (positions : list Pos) (species : list string) :
  (get_basis_rep fmt_idx project_body false self rho positions species).1
  = self ∧
  let self' :=
    (get_basis_rep fmt_idx project_body true self rho positions species).1 in
  basis self' = basis self ∧ basis_strings self' = basis_strings self ∧
  ∀ idx, get (all_angs self') idx = get (all_angs self) idx ∨
         get (all_angs self') idx = Some None.
Proof.
  split.
  - unfold get_basis_rep.
    pose proof (rep_loop_cache_off fmt_idx project_body self rho
                  (zip positions species) (all_angs self) []) as H.
    destruct (rep_loop _ _ _ _ _ _ _ _) as [cache r]. cbn [fst] in *.
    rewrite H. by destruct self.
  - cbn zeta. unfold get_basis_rep.
    pose proof (rep_loop_cache_on fmt_idx project_body true self rho
                  (zip positions species) (all_angs self) []) as H.
    cbn zeta in H.
    destruct (rep_loop _ _ _ _ _ _ _ _) as [cache r]. cbn [fst] in *. done.
Qed.

Section rows.
Context {Rho Pos Basis Coef Angs : Type}.
Variable fmt_idx : string → Pos → option string.
Variable project_body : Rho → Pos → Basis → string → option (list Coef).
Variable self : @GaussianProjector.t Basis Angs.
Variable rho : Rho.
Variable W : string → nat.

Abbreviation rows := (projections project_body self rho).
Abbreviation fine := (projects fmt_idx project_body self rho W).

Lemma projections_none atoms spec :
  spec ∉ atoms.*2 → rows atoms spec = [].
Proof.
  induction atoms as [|x atoms IH]; [done|].
  rewrite fmap_cons. intros [Hne Hout]%not_elem_of_cons.
  unfold projections. cbn [omap list_omap].
  rewrite decide_False by done. by apply IH.
Qed.

Lemma projections_width atoms spec :
  Forall fine atoms → Forall (λ c, length c = W spec) (rows atoms spec).
Proof.
  induction 1 as [|x atoms (idx & b & bs & c & _ & Hb & Hbs & Hc & Hw) _ IH];
    [done|].
  unfold projections. cbn [omap list_omap].
  destruct (decide (x.2 = spec)) as [<-|]; [|done].
  rewrite Hb, Hbs. cbn [mbind option_bind]. rewrite Hc. by constructor.
Qed.

Lemma projections_some atoms spec :
  Forall fine atoms → spec ∈ atoms.*2 → rows atoms spec ≠ [].
Proof.
  induction 1 as [|x atoms (idx & b & bs & c & _ & Hb & Hbs & Hc & Hw) _ IH];
    intros Hin.
  - by apply elem_of_nil in Hin.
  - unfold projections. cbn [omap list_omap]. rewrite fmap_cons in Hin.
    destruct (decide (x.2 = spec)) as [<-|Hne].
    + rewrite Hb, Hbs. cbn [mbind option_bind]. by rewrite Hc.
    + apply elem_of_cons in Hin as [->|Hin]; [done|]. by apply IH.
Qed.

(** What the loop over the atoms leaves in [basis_rep]. *)
Lemma rep_loop_rows m atoms cache
    (d : dict (list (list (list Coef)))) :
  Forall fine atoms → NoDup (keys d) →
  ∃ cache' d',
    rep_loop fmt_idx project_body m self rho atoms cache d
    = (cache', Some d') ∧
    NoDup (keys d') ∧
    ∀ spec, get d' spec
            = if decide (spec ∈ atoms.*2)
              then Some (default [] (get d spec)
                         ++ ((λ c, [c]) <$> rows atoms spec))
              else get d spec.
Proof.
  intros Hall. revert cache d.
  induction Hall as [|[pos s] atoms (idx & b & bs & c & Hi & Hb & Hbs & Hc & Hw)
                       _ IH]; intros cache d Hnd.
  - exists cache, d. split_and!; [done..|]. intros spec.
    rewrite decide_False; [done|]. apply not_elem_of_nil.
  - cbn [fst snd] in *. cbn [rep_loop]. rewrite Hi. cbn [mbind option_bind].
    rewrite Hb. cbn [mbind option_bind]. rewrite Hbs.
    cbn [mbind option_bind]. unfold project. rewrite Hc.
    cbn [mbind option_bind].
    set (d1 := if mem d s then d else set d s []).
    assert (Hd1 : get d1 s = Some (default [] (get d s))).
    { subst d1. unfold mem. destruct (get d s) as [old|] eqn:E; [done|].
      by rewrite PyFacts.get_set_eq. }
    assert (Hd1' : ∀ spec, spec ≠ s → get d1 spec = get d spec).
    { intros spec Hne. subst d1. destruct (mem d s); [done|].
      by rewrite PyFacts.get_set_ne. }
    assert (Hnd1 : NoDup (keys d1)).
    { subst d1. destruct (mem d s); [done|].
      by apply ProjectorFacts.NoDup_keys_set. }
    rewrite Hd1. cbn [from_option Datatypes.id].
    set (d2 := set d1 s (default [] (get d s) ++ [[c]])).
    match goal with
    | |- context [rep_loop _ _ m self rho atoms ?c1 d2] =>
        destruct (IH c1 d2) as (cache' & d' & -> & Hnd' & Hget)
    end.
    { subst d2. by apply ProjectorFacts.NoDup_keys_set. }
    exists cache', d'. split_and!; [done..|]. intros spec.
    rewrite Hget, fmap_cons. cbn [snd].
    unfold projections at 2. cbn [omap list_omap snd fst].
    fold (rows atoms spec).
    destruct (decide (s = spec)) as [<-|Hne].
    + rewrite Hb, Hbs. cbn [mbind option_bind]. rewrite Hc.
      rewrite (decide_True (P := s ∈ s :: atoms.*2)) by by left.
      subst d2. rewrite PyFacts.get_set_eq.
      cbn [from_option Datatypes.id].
      destruct (decide (s ∈ atoms.*2)) as [Hin|Hout].
      * rewrite fmap_cons, <- app_assoc. done.
      * rewrite (projections_none atoms s Hout). done.
    + subst d2. rewrite PyFacts.get_set_ne, Hd1' by done.
      destruct (decide (spec ∈ atoms.*2)) as [Hin|Hout].
      * rewrite decide_True; [done|by right].
      * rewrite decide_False; [done|].
        intros [->|?]%elem_of_cons; done.
Qed.

Lemma concat_singletons (l : list (list Coef)) :
  concat ((λ c, [c]) <$> l) = l.
Proof. induction l as [|c l IH]; [done|]. cbn. by rewrite IH. Qed.

Lemma concatenate0_rows (l : list (list Coef)) w :
  l ≠ [] → Forall (λ c, length c = w) l →
  concatenate0 ((λ c, [c]) <$> l) = Some l.
Proof.
  intros Hne Hall. unfold concatenate0. rewrite concat_singletons.
  destruct l as [|c l]; [done|].
  apply Forall_cons in Hall as [Hc Hall].
  by rewrite (ProjectorFacts.forallb_same_length c l w).
Qed.

Lemma get_basis_rep_rows_aux m positions species :
  Forall fine (zip positions species) →
  ∃ out,
    (get_basis_rep fmt_idx project_body m self rho positions species).2
    = Some out ∧
    NoDup (keys out) ∧
    ∀ spec, get out spec
            = if decide (spec ∈ (zip positions species).*2)
              then Some (rows (zip positions species) spec)
              else None.
Proof.
  intros Hall. unfold get_basis_rep.
  destruct (rep_loop_rows m (zip positions species) (all_angs self) [] Hall)
    as (cache' & d' & -> & Hnd & Hget); [apply NoDup_nil_2|].
  cbn [snd mbind option_bind].
  assert (Hd : ∀ x, x ∈ d' →
            x.1 ∈ (zip positions species).*2 ∧
            x.2 = (λ c, [c]) <$> rows (zip positions species) x.1).
  { intros [k val] Hin. cbn [fst snd].
    pose proof (ProjectorProps.elem_get d' k val Hnd Hin) as E.
    rewrite Hget in E.
    destruct (decide (k ∈ (zip positions species).*2)); [|done].
    split; [done|]. by injection E as <-. }
  rewrite (ScanFacts.mapM_ext_Some _
             (λ x : string * list (list (list Coef)), (x.1, concat x.2))).
  2:{ intros x Hx. destruct (Hd x Hx) as [Hin ->].
      rewrite (concatenate0_rows _ (W x.1)).
      - cbn [mbind option_bind]. by rewrite concat_singletons.
      - by apply projections_some.
      - by apply projections_width. }
  eexists. split; [done|]. split.
  - unfold keys. rewrite <- list_fmap_compose.
    assert (fst ∘ (λ x : string * list (list (list Coef)),
                     (x.1, concat x.2)) = fst) as -> by done.
    done.
  - intros spec. rewrite (RoundTrip.get_fmap_values (λ l : list (list (list Coef)), concat l)), Hget.
    destruct (decide (spec ∈ (zip positions species).*2)); [|done].
    cbn [fmap option_fmap option_map get from_option app].
    by rewrite concat_singletons.
Qed.
End rows.

(** When every atom projects, and the atoms of one species give rows of
    one width, [get_basis_rep] returns a dictionary with one entry per
    species met; the array of a species holds the coefficient rows of the
    atoms of that species, one row per atom, in the order of the atoms. *)
Theorem get_basis_rep_rows {Rho Pos Basis Coef Angs : Type}
    (fmt_idx : string → Pos → option string)
    (project_body : Rho → Pos → Basis → string → option (list Coef))
    (UseMemory : bool) (self : @GaussianProjector.t Basis Angs) (rho : Rho)
    (W : string → nat) (positions : list Pos) (species : list string) :
  Forall (projects fmt_idx project_body self rho W) (zip positions species) →
  ∃ out,
    (get_basis_rep fmt_idx project_body UseMemory self rho positions
       species).2 = Some out ∧
    NoDup (keys out) ∧
    ∀ spec, get out spec
            = if decide (spec ∈ (zip positions species).*2)
              then Some (projections project_body self rho
                           (zip positions species) spec)
              else None.
Proof.
  intros Hall.
  destruct (get_basis_rep_rows_aux fmt_idx project_body self rho W UseMemory
              positions species Hall) as (out & Hout & Hnd & Hget).
  exists out. by split_and!.
Qed.

Lemma get_basis_rep_rows_sample :
  ∃ out,
    (get_basis_rep Examples.fmt_idx Examples.project_body true
       oxygen_projector 3 [[0; 0; 0]; [1; 0; 0]] ["O"; "O"]).2 = Some out ∧
    NoDup (keys out) ∧
    ∀ spec, get out spec
            = if decide (spec ∈ (zip [[0; 0; 0]; [1; 0; 0]] ["O"; "O"]).*2)
              then Some (projections Examples.project_body oxygen_projector 3
                           (zip [[0; 0; 0]; [1; 0; 0]] ["O"; "O"]) spec)
              else None.
Proof.
  apply (get_basis_rep_rows Examples.fmt_idx Examples.project_body true
           oxygen_projector 3 (λ _, 1) [[0; 0; 0]; [1; 0; 0]] ["O"; "O"]).
  repeat constructor; (eexists _, _, _, _; vm_compute; repeat split).
Defined.

End GaussianProps.

(** * Properties of the radial functions *)

Module RadialProps.
Import Py GaussianProjector Spec RadialFacts Radials.
#[local] Open Scope R_scope.

Lemma envelope_range M x : 0 <= envelope M x <= 1.
Proof.
  unfold envelope.
  pose proof (COS_bound (PI * x / M)) as [Hlo Hhi].
  set (t := 0.5 * (1 - cos (PI * x / M))).
  assert (0 <= t <= 1) as [Ht0 Ht1] by (subst t; lra).
  pose proof (pow_le t 8 Ht0) as Hp0.
  pose proof (pow_incr t 1 8 (conj Ht0 Ht1)) as Hp1.
  rewrite pow1 in Hp1. lra.
Qed.

(** Over the reals, for a positive cutoff, positive exponents and an
    angular momentum of the table, [g] returns one value per radius: 0
    beyond the cutoff, and inside it the sum of the normalisation
    constants of the primitives times the contraction of the bare
    Gaussians, times [r^l] and the envelope. *)
Theorem g_contracted (r r_o alpha : list R) (l : nat) (coeff : list R)
    (M : R) :
  np_max r_o = Some M → 0 < M → Forall (λ a, 0 < a) alpha → (l ≤ 6)%nat →
  g r r_o alpha l coeff
  = Some ((λ x, if Rgt_dec x M then 0
                else sum_norm l (zip alpha coeff)
                     * contraction (zip alpha coeff) x
                     * x ^ l * envelope M x) <$> r).
Proof.
  intros HM _ _ Hl. rewrite (g_eq r r_o alpha l coeff M HM Hl). f_equal.
  apply list_fmap_ext. intros i x _. unfold g_value.
  destruct (Rgt_dec x M); [done|]. lra.
Qed.

Lemma g_contracted_sample :
  g [0; 1; 3] [2] [1 / 2; 1] 1 [1; 3]
  = Some ((λ x, if Rgt_dec x 2 then 0
                else sum_norm 1 (zip [1 / 2; 1] [1; 3])
                     * contraction (zip [1 / 2; 1] [1; 3]) x
                     * x ^ 1 * envelope 2 x) <$> [0; 1; 3]).
Proof.
  apply (g_contracted [0; 1; 3] [2] [1 / 2; 1] 1 [1; 3] 2).
  - reflexivity.
  - lra.
  - repeat constructor; lra.
  - lia.
Defined.

(** Over the reals, for a positive cutoff: without primitives (an empty
    [alpha] or an empty [coeff]) [g] returns zeros, whatever [l] is; with
    a primitive and an angular momentum beyond the table of [GAMMA]
    (more than 6) it raises; and it raises on an empty [r_o]. *)
Theorem g_edge_cases (r r_o alpha : list R) (l : nat) (coeff : list R)
    (M : R) :
  np_max r_o = Some M → 0 < M →
  (zip alpha coeff = [] →
   g r r_o alpha l coeff = Some (replicate (length r) 0)) ∧
  (zip alpha coeff ≠ [] → (6 < l)%nat → g r r_o alpha l coeff = None) ∧
  g r [] alpha l coeff = None.
Proof.
  intros HM _. split_and!; [| |done].
  - intros Hz. unfold g. rewrite HM, Hz. cbn [mbind option_bind foldlM fst snd].
    f_equal. induction r as [|x r IH]; [done|].
    cbn [fmap list_fmap zip_with length replicate]. f_equal; [|apply IH].
    destruct (Rgt_dec x M); lra.
  - intros Hz Hl. unfold g. rewrite HM. cbn [mbind option_bind].
    destruct (zip alpha coeff) as [|[a c] ac]; [done|].
    assert (∀ st, g_step r l st (a, c) = None) as Hstep.
    { intros st. unfold g_step, norm_term.
      rewrite (lookup_ge_None_2 GAMMA l); [done|]. unfold GAMMA.
      rewrite length_fmap. cbn [length]. lia. }
    cbn [foldlM]. by rewrite Hstep.
Qed.

Lemma g_edge_cases_sample :
  (zip [1 / 2] ([] : list R) = [] →
   g [0; 1] [2] [1 / 2] 9 [] = Some (replicate (length [0; 1]) 0)) ∧
  (zip [1 / 2] ([] : list R) ≠ [] → (6 < 9)%nat →
   g [0; 1] [2] [1 / 2] 9 [] = None) ∧
  g [0; 1] [] [1 / 2] 9 [] = None.
Proof.
  apply (g_edge_cases [0; 1] [2] [1 / 2] 9 [] 2).
  - reflexivity.
  - lra.
Defined.

(** Over the reals, for a positive cutoff, positive exponents and an
    angular momentum of the table: the envelope only damps, so no value of
    [g] exceeds in magnitude the radial function without envelope. *)
Theorem g_envelope_bound (r r_o alpha : list R) (l : nat) (coeff : list R)
    (M : R) :
  np_max r_o = Some M → 0 < M → Forall (λ a, 0 < a) alpha → (l ≤ 6)%nat →
  ∃ f, g r r_o alpha l coeff = Some f ∧ length f = length r ∧
       ∀ i x, r !! i = Some x →
         ∃ y, f !! i = Some y ∧
              Rabs y <= Rabs (sum_norm l (zip alpha coeff)
                              * contraction (zip alpha coeff) x * x ^ l).
Proof.
  intros HM _ _ Hl. eexists. split; [by apply g_eq|].
  split; [by rewrite length_fmap|].
  intros i x Hx. eexists. split.
  - rewrite list_lookup_fmap, Hx. reflexivity.
  - unfold g_value. destruct (Rgt_dec x M).
    + rewrite Rabs_R0. apply Rabs_pos.
    + pose proof (envelope_range M x) as [He0 He1].
      set (u := sum_norm l (zip alpha coeff)
                * contraction (zip alpha coeff) x * x ^ l).
      replace (contraction (zip alpha coeff) x
               * (x ^ l * envelope M x * sum_norm l (zip alpha coeff)))
        with (u * envelope M x) by (subst u; ring).
      rewrite Rabs_mult, (Rabs_right (envelope M x)) by lra.
      pose proof (Rabs_pos u). nra.
Qed.

Lemma g_envelope_bound_sample :
  ∃ f, g [0; 1; 3] [2] [1 / 2; 1] 1 [1; 3] = Some f ∧
       length f = length [0; 1; 3] ∧
       ∀ i x, [0; 1; 3] !! i = Some x →
         ∃ y, f !! i = Some y ∧
              Rabs y <= Rabs (sum_norm 1 (zip [1 / 2; 1] [1; 3])
                              * contraction (zip [1 / 2; 1] [1; 3]) x
                              * x ^ 1).
Proof.
  apply (g_envelope_bound [0; 1; 3] [2] [1 / 2; 1] 1 [1; 3] 2).
  - reflexivity.
  - lra.
  - repeat constructor; lra.
  - lia.
Defined.

(** ** [radials] *)

Lemma radial_ok r b ib :
  shell_ok b → (ib < length (alpha b))%nat → is_Some (radial r b ib).
Proof.
  intros [Hl Hro Hco Hcut Hal] Hib. unfold radial.
  destruct (lookup_lt_is_Some_2 (r_o b) ib) as [ro Ero]; [lia|].
  destruct (lookup_lt_is_Some_2 (alpha b) ib) as [a Ea]; [lia|].
  destruct (lookup_lt_is_Some_2 (coeff b) ib) as [c Ec]; [lia|].
  rewrite Ero, Ea, Ec. cbn [mbind option_bind].
  rewrite Forall_lookup in Hcut. destruct (Hcut ib ro Ero) as (M & HM & _).
  rewrite (g_eq r ro a (l b) c M HM Hl). by eexists.
Qed.

(** For a list of entries whose lists go together, [radials] returns one
    list per entry and in it one radial function per contracted function,
    the value of [g] on that function's exponents, cutoffs and
    coefficients.  Handed a single entry (a [dict]) it raises; handed
    anything else it returns the empty list. *)
Theorem radials_shells (r : list R) (bs : list shell) :
  Forall shell_ok bs →
  (∃ res, radials r (BList bs) = Some res ∧ length res = length bs ∧
     ∀ k b ib ro a c M,
       bs !! k = Some b → r_o b !! ib = Some ro → alpha b !! ib = Some a →
       coeff b !! ib = Some c → np_max ro = Some M →
       res !! k ≫= (.!! ib)
       = Some ((λ x, if Rgt_dec x M then 0
                     else sum_norm (l b) (zip a c) * contraction (zip a c) x
                          * x ^ l b * envelope M x) <$> r)) ∧
  (∀ b, radials r (BDict b) = None) ∧
  radials r BOther = Some [].
Proof.
  intros Hok. split_and!; [|done..].
  assert (is_Some (radials r (BList bs))) as [res Hres].
  { cbn [radials]. apply mapM_is_Some. apply Forall_forall.
    intros b Hb. unfold compose. apply mapM_is_Some. apply Forall_forall.
    intros ib Hib. unfold compose. apply elem_of_seq in Hib.
    rewrite Forall_forall in Hok. apply radial_ok; [by apply Hok|lia]. }
  exists res. split; [done|]. cbn [radials] in Hres.
  apply mapM_Some in Hres. split.
  - symmetry. by eapply Forall2_length.
  - intros k b ib ro a c M Hk Hro Ha Hc HM.
    destruct (Forall2_lookup_l _ _ _ k b Hres Hk) as (rb & -> & Hrb).
    cbn [mbind option_bind]. apply mapM_Some in Hrb.
    assert (ib < length (alpha b))%nat as Hib by by eapply lookup_lt_Some.
    destruct (Forall2_lookup_l _ _ _ ib ib Hrb) as (f & -> & Hf).
    { by apply lookup_seq_lt. }
    unfold radial in Hf. rewrite Hro, Ha, Hc in Hf.
    cbn [mbind option_bind] in Hf.
    rewrite Forall_forall in Hok.
    destruct (Hok b) as [Hl _ _ _ _]; [by eapply list_elem_of_lookup_2|].
    rewrite (g_eq r ro a (l b) c M HM Hl) in Hf. injection Hf as <-.
    f_equal. apply list_fmap_ext. intros i x _. unfold g_value.
    destruct (Rgt_dec x M); [done|]. lra.
Qed.

Lemma radials_shells_sample :
  (∃ res, radials [0; 1] (BList [s_shell]) = Some res ∧
     length res = length [s_shell] ∧
     ∀ k b ib ro a c M,
       [s_shell] !! k = Some b → r_o b !! ib = Some ro →
       alpha b !! ib = Some a →
       coeff b !! ib = Some c → np_max ro = Some M →
       res !! k ≫= (.!! ib)
       = Some ((λ x, if Rgt_dec x M then 0
                     else sum_norm (l b) (zip a c) * contraction (zip a c) x
                          * x ^ l b * envelope M x) <$> [0; 1])) ∧
  (∀ b, radials [0; 1] (BDict b) = None) ∧
  radials [0; 1] BOther = Some [].
Proof.
  apply (radials_shells [0; 1] [s_shell]).
  constructor; [|constructor].
  split; cbn; try done.
  - lia.
  - repeat constructor. exists 3. split; [|lra].
    cbn. f_equal. unfold Rmax. destruct (Rle_dec 2 3); lra.
  - repeat constructor; lra.
Defined.

End RadialProps.

(** * Properties of the tensor contractions *)

Module KernelProps.
Import Py Kernels.
#[local] Open Scope R_scope.

Lemma sum_R_app xs ys : sum_R (xs ++ ys) = sum_R xs + sum_R ys.
Proof.
  unfold sum_R. induction xs as [|x xs IH]; cbn [app foldr]; [lra|].
  rewrite IH. lra.
Qed.

Lemma dot_cons x u y w : dot (x :: u) (y :: w) = x * y + dot u w.
Proof. done. Qed.

Lemma dot_nil_r u : dot u [] = 0.
Proof. by destruct u. Qed.

Lemma dot_weighted_comm (a o b : list R) :
  dot (zip_with Rmult a o) b = dot (zip_with Rmult b o) a.
Proof.
  revert o b. induction a as [|x a IH]; intros o b.
  - cbn [zip_with]. by rewrite dot_nil_r.
  - destruct o as [|y o]; [by destruct b|].
    destruct b as [|z b]; [done|].
    cbn [zip_with]. rewrite !dot_cons, IH. lra.
Qed.

Lemma axis_same a : axis a a = a.
Proof. unfold axis. by destruct (decide (a = 1%nat)). Qed.

Lemma mapM_broadcast_same {B} n (rs : list (list B)) :
  Forall (λ r, length r = n) rs → mapM (Np.broadcast n) rs = Some rs.
Proof.
  induction 1 as [|r rs Hr _ IH]; [done|].
  cbn [mapM]. rewrite (NpFacts.broadcast_same n r Hr), IH. done.
Qed.

Lemma mapM_rows_broadcast_same {B} n (eri : list (list (list B))) :
  Forall (Forall (λ e, length e = n)) eri →
  mapM (mapM (Np.broadcast n)) eri = Some eri.
Proof.
  induction 1 as [|ei eri Hei _ IH]; [done|].
  cbn [mapM]. rewrite (mapM_broadcast_same n ei Hei), IH. done.
Qed.

(** On operands whose shared axis has one length, [get_dm] is the plain
    contraction. *)
Lemma get_dm_matching (mo_coeff : list (list R)) (mo_occ : list R) :
  Forall (λ row, length row = length mo_occ) mo_coeff →
  get_dm mo_coeff mo_occ
  = Some ((λ ci, (λ ck, dot (zip_with Rmult ci mo_occ) ck) <$> mo_coeff)
            <$> mo_coeff).
Proof.
  intros Hrect. destruct mo_coeff as [|c0 C]; [done|].
  unfold get_dm. set (CC := c0 :: C) in *.
  assert (length c0 = length mo_occ) as Hc0.
  { subst CC. by apply Forall_cons_1 in Hrect as [? _]. }
  assert (forallb (λ row, bool_decide (length row = length c0)) CC = true)
    as ->.
  { apply forallb_forall. intros row Hrow. apply bool_decide_eq_true_2.
    rewrite Forall_forall in Hrect. rewrite Hc0. apply Hrect.
    by apply list_elem_of_In. }
  rewrite Hc0, axis_same. cbn zeta.
  rewrite (NpFacts.broadcast_same _ mo_occ eq_refl).
  cbn [mbind option_bind]. by rewrite (mapM_broadcast_same _ CC Hrect).
Qed.

(** [get_dm] returns a square matrix with one row per row of [mo_coeff],
    and the matrix is symmetric. *)
Theorem get_dm_symmetric (mo_coeff : list (list R)) (mo_occ : list R) :
  Forall (λ row, length row = length mo_occ) mo_coeff →
  ∃ dm, get_dm mo_coeff mo_occ = Some dm ∧
        length dm = length mo_coeff ∧
        Forall (λ row, length row = length mo_coeff) dm ∧
        ∀ i k, dm !! i ≫= (.!! k) = dm !! k ≫= (.!! i).
Proof.
  intros Hrect. rewrite (get_dm_matching mo_coeff mo_occ Hrect).
  eexists. split; [done|]. split_and!.
  - by rewrite length_fmap.
  - apply Forall_fmap, Forall_forall. intros ci _. unfold compose.
    by rewrite length_fmap.
  - intros i k. rewrite !list_lookup_fmap.
    destruct (mo_coeff !! i) as [ci|] eqn:Ei;
      destruct (mo_coeff !! k) as [ck|] eqn:Ek;
      cbn [fmap option_fmap option_map mbind option_bind];
      rewrite ?list_lookup_fmap, ?Ei, ?Ek;
      cbn [fmap option_fmap option_map]; try done.
    f_equal. apply dot_weighted_comm.
Qed.

Lemma get_dm_symmetric_sample :
  ∃ dm, get_dm [[1; 2]; [3; 4]; [5; 6]] [2; 0] = Some dm ∧
        length dm = length [[1; 2]; [3; 4]; [5; 6]] ∧
        Forall (λ row, length row = length [[1; 2]; [3; 4]; [5; 6]]) dm ∧
        ∀ i k, dm !! i ≫= (.!! k) = dm !! k ≫= (.!! i).
Proof.
  apply (get_dm_symmetric [[1; 2]; [3; 4]; [5; 6]] [2; 0]).
  repeat constructor.
Defined.

(** ** [get_coeff] and the contraction of [get_V] *)

Lemma length_axpy a e u :
  length e = length u → length (axpy a e u) = length u.
Proof. intros H. unfold axpy. rewrite length_zip_with. lia. Qed.

Lemma dot_axpy a e u c :
  length e = length u →
  dot (axpy a e u) c = dot u c + a * dot e c.
Proof.
  revert e c. induction u as [|x u IH]; intros e c H.
  - destruct e; [|done]. cbn. unfold dot. cbn. lra.
  - destruct e as [|y e]; [done|]. destruct c as [|z c].
    + rewrite !dot_nil_r. lra.
    + unfold axpy. cbn [zip_with]. rewrite !dot_cons.
      fold (axpy a e u). rewrite IH by (cbn in H; lia). lra.
Qed.

Lemma dot_zeros K c : dot (replicate K 0) c = 0.
Proof.
  revert c. induction K as [|K IH]; intros c; [done|].
  destruct c as [|z c]; [done|]. cbn [replicate]. rewrite dot_cons, IH. lra.
Qed.

Lemma fold_axpy K (ps : list (list R * R)) c :
  Forall (λ p, length p.1 = K) ps →
  let co := foldr (λ p acc, axpy p.2 p.1 acc) (replicate K 0) ps in
  length co = K ∧
  dot co c = sum_R ((λ p : list R * R, p.2 * dot p.1 c) <$> ps).
Proof.
  cbn zeta. induction 1 as [|p ps Hp _ [IHl IHd]].
  - cbn [foldr fmap list_fmap]. rewrite length_replicate, dot_zeros. done.
  - cbn [foldr fmap list_fmap sum_R].
    fold (sum_R ((λ p : list R * R, p.2 * dot p.1 c) <$> ps)). split.
    + rewrite length_axpy; [done|]. by rewrite IHl.
    + rewrite dot_axpy by by rewrite IHl. rewrite IHd. lra.
Qed.

Lemma row_pairs (d : list R) (ei : list (list R)) c :
  dot d ((λ e, dot e c) <$> ei)
  = sum_R ((λ p : list R * R, p.2 * dot p.1 c) <$> zip ei d).
Proof.
  revert d. induction ei as [|e ei IH]; intros d.
  - cbn. apply dot_nil_r.
  - destruct d as [|x d]; [done|].
    cbn [fmap list_fmap zip zip_with]. rewrite dot_cons.
    cbn [sum_R foldr fst snd].
    fold (sum_R ((λ p : list R * R, p.2 * dot p.1 c) <$> zip ei d)).
    fold (zip ei d). by rewrite <- IH.
Qed.

Lemma frobenius_pairs (dm : list (list R)) (eri : list (list (list R))) c :
  frobenius dm ((λ ei : list (list R), (λ e, dot e c) <$> ei) <$> eri)
  = sum_R ((λ p : list R * R, p.2 * dot p.1 c)
             <$> concat (zip_with zip eri dm)).
Proof.
  unfold frobenius. revert dm. induction eri as [|ei eri IH]; intros dm.
  - by destruct dm.
  - destruct dm as [|d dm]; [done|].
    cbn [fmap list_fmap zip_with concat]. rewrite fmap_app, sum_R_app.
    cbn [sum_R foldr].
    fold (sum_R (zip_with dot dm
                   ((λ ei : list (list R), (λ e, dot e c) <$> ei) <$> eri))).
    rewrite <- IH, row_pairs. done.
Qed.

Lemma shapes_pairs (eri : list (list (list R))) (dm : list (list R)) K :
  forallb (λ p : list (list R) * list R,
             bool_decide (length p.1 = length p.2)
             && forallb (λ e, bool_decide (length e = K)) p.1)
          (zip eri dm) = true →
  Forall (λ p : list R * R, length p.1 = K) (concat (zip_with zip eri dm)).
Proof.
  revert dm. induction eri as [|ei eri IH]; intros dm H; [done|].
  destruct dm as [|d dm]; [done|].
  cbn [zip zip_with forallb fst snd] in H.
  apply andb_prop in H as [H1 H2]. apply andb_prop in H1 as [Hl He].
  cbn [zip_with concat]. apply Forall_app. split; [|by apply IH].
  clear -He. revert d. induction ei as [|e ei IH']; intros d; [done|].
  destruct d as [|x d]; [done|]. cbn [forallb] in He.
  apply andb_prop in He as [He1 He2]. apply bool_decide_eq_true_1 in He1.
  cbn [zip zip_with]. constructor; [done|]. by apply IH'.
Qed.

Lemma shapes_all (eri : list (list (list R))) (dm : list (list R)) K :
  length eri = length dm →
  forallb (λ p : list (list R) * list R,
             bool_decide (length p.1 = length p.2)
             && forallb (λ e, bool_decide (length e = K)) p.1)
          (zip eri dm) = true →
  forallb (forallb (λ e, bool_decide (length e = K))) eri = true.
Proof.
  revert dm. induction eri as [|ei eri IH]; intros dm Hl H; [done|].
  destruct dm as [|d dm]; [done|].
  cbn [zip zip_with forallb fst snd] in *.
  apply andb_prop in H as [H1 H2]. apply andb_prop in H1 as [_ He].
  rewrite He. cbn [andb]. apply (IH dm); [|done]. cbn in Hl. lia.
Qed.

Lemma all_lengths (eri : list (list (list R))) K :
  forallb (forallb (λ e, bool_decide (length e = K))) eri = true →
  Forall (Forall (λ e : list R, length e = K)) eri.
Proof.
  intros H. apply Forall_forall. intros ei Hei. apply Forall_forall.
  intros e He. rewrite forallb_forall in H.
  specialize (H ei (proj1 (list_elem_of_In _ _) Hei)).
  rewrite forallb_forall in H.
  specialize (H e (proj1 (list_elem_of_In _ _) He)).
  by apply bool_decide_eq_true_1 in H.
Qed.

Lemma pair_rows (eri : list (list (list R))) (dm : list (list R)) K :
  forallb (λ p : list (list R) * list R,
             bool_decide (length p.1 = length p.2)
             && forallb (λ e, bool_decide (length e = K)) p.1)
          (zip eri dm) = true →
  mapM (λ p : list (list R) * list R,
          ei ← Np.broadcast (axis (length p.1) (length p.2)) p.1;
          di ← Np.broadcast (axis (length p.1) (length p.2)) p.2;
          Some (zip ei di))
       (zip eri dm)
  = Some (zip_with zip eri dm).
Proof.
  revert dm. induction eri as [|ei eri IH]; intros dm H; [done|].
  destruct dm as [|d dm]; [done|].
  cbn [zip zip_with forallb fst snd] in H.
  apply andb_prop in H as [H1 H2]. apply andb_prop in H1 as [Hl _].
  apply bool_decide_eq_true_1 in Hl.
  cbn [zip zip_with mapM fst snd]. rewrite Hl, axis_same.
  rewrite (NpFacts.broadcast_same _ ei Hl).
  rewrite (NpFacts.broadcast_same _ d eq_refl).
  cbn [mbind option_bind]. fold (zip eri dm). rewrite (IH dm H2). done.
Qed.

(** On operands of matching shapes, [get_coeff] and the contraction of
    [get_V] are the plain contractions. *)
Lemma get_coeff_matching (dm : list (list R))
    (eri3c : list (list (list R))) :
  shapes_match eri3c dm = true →
  get_coeff dm eri3c
  = Some (foldr (λ p acc, axpy p.2 p.1 acc)
            (replicate (last_axis eri3c) 0)
            (concat (zip_with zip eri3c dm))).
Proof.
  intros Hs. unfold shapes_match in Hs. apply andb_prop in Hs as [Hl Hs].
  apply bool_decide_eq_true_1 in Hl. unfold get_coeff. cbn zeta.
  rewrite (shapes_all eri3c dm (last_axis eri3c) Hl Hs).
  rewrite Hl, axis_same.
  rewrite (NpFacts.broadcast_same _ eri3c Hl).
  rewrite (NpFacts.broadcast_same _ dm eq_refl).
  cbn [mbind option_bind]. by rewrite (pair_rows eri3c dm _ Hs).
Qed.

Lemma einsum_V_matching (dm : list (list R))
    (eri3c : list (list (list R))) (c : list R) :
  shapes_match eri3c dm = true → length c = last_axis eri3c →
  einsum_V eri3c c
  = Some ((λ ei : list (list R), (λ e, dot e c) <$> ei) <$> eri3c).
Proof.
  intros Hs Hc. unfold shapes_match in Hs. apply andb_prop in Hs as [Hl Hs].
  apply bool_decide_eq_true_1 in Hl. unfold einsum_V. cbn zeta.
  pose proof (shapes_all eri3c dm (last_axis eri3c) Hl Hs) as Hall.
  rewrite Hall, <- Hc, axis_same.
  rewrite (NpFacts.broadcast_same _ c eq_refl). cbn [mbind option_bind].
  rewrite Hc.
  by rewrite (mapM_rows_broadcast_same _ eri3c (all_lengths _ _ Hall)).
Qed.

Lemma contraction_adjoint (dm : list (list R))
    (eri3c : list (list (list R))) (c : list R) :
  shapes_match eri3c dm = true → length c = last_axis eri3c →
  ∃ co Vm, get_coeff dm eri3c = Some co ∧ einsum_V eri3c c = Some Vm ∧
           length co = length c ∧
           dot co c = frobenius dm Vm.
Proof.
  intros Hs Hc. rewrite (get_coeff_matching dm eri3c Hs).
  rewrite (einsum_V_matching dm eri3c c Hs Hc).
  unfold shapes_match in Hs. apply andb_prop in Hs as [Hl Hs].
  apply bool_decide_eq_true_1 in Hl.
  destruct (fold_axpy (last_axis eri3c) (concat (zip_with zip eri3c dm)) c
              (shapes_pairs eri3c dm _ Hs)) as [Hlen Hdot].
  eexists _, _. split_and!; [done..| |].
  - by rewrite Hlen.
  - rewrite Hdot. symmetry. apply frobenius_pairs.
Qed.

(** For operands of matching shapes, the contraction of [get_V] is the
    transpose of [get_coeff]: the inner product of [get_coeff dm] with a
    vector [c] equals the inner product of [dm] with the matrix the
    contraction of [get_V] makes of [c]. *)
Theorem get_coeff_adjoint (dm : list (list R))
    (eri3c : list (list (list R))) (c : list R) :
  shapes_match eri3c dm = true → length c = last_axis eri3c →
  ∃ co Vm, get_coeff dm eri3c = Some co ∧ einsum_V eri3c c = Some Vm ∧
           length co = length c ∧
           dot co c = frobenius dm Vm.
Proof.
  intros Hs Hc.
  destruct (contraction_adjoint dm eri3c c Hs Hc)
    as (co & Vm & Hco & HV & Hl & Hd).
  exists co, Vm. by split_and!.
Qed.

Lemma get_coeff_adjoint_sample :
  ∃ co Vm,
    get_coeff [[1; 2]; [3; 4]] [[[1; 0; 2]; [0; 1; 0]]; [[1; 1; 1]; [2; 0; 0]]]
    = Some co ∧
    einsum_V [[[1; 0; 2]; [0; 1; 0]]; [[1; 1; 1]; [2; 0; 0]]] [1; 2; 3]
    = Some Vm ∧
    length co = length [1; 2; 3] ∧
    dot co [1; 2; 3] = frobenius [[1; 2]; [3; 4]] Vm.
Proof.
  apply (get_coeff_adjoint [[1; 2]; [3; 4]]
           [[[1; 0; 2]; [0; 1; 0]]; [[1; 1; 1]; [2; 0; 0]]] [1; 2; 3]).
  - vm_compute. reflexivity.
  - reflexivity.
Defined.

End KernelProps.

(** * [unpad_basis] is the transpose of [pad_basis] *)

Module TransposeProps.
Import Py Np Pyscf BasisPadder Spec PyFacts InitFacts WfFacts NpFacts PadFacts
  RoundTrip Kernels KernelProps Transpose Examples.
#[local] Open Scope R_scope.

Lemma sum_R_perm (l l' : list R) : l ≡ₚ l' → sum_R l = sum_R l'.
Proof.
  unfold sum_R. induction 1; cbn [foldr]; lra || congruence.
Qed.

Lemma dot_fmap {X} (g h : X → R) (l : list X) :
  dot (g <$> l) (h <$> l) = sum_R ((λ x, g x * h x) <$> l).
Proof. unfold dot. by rewrite RadialFacts.zip_with_fmap_same. Qed.

Lemma fmap_seq_lookup {X} (l : list X) (d : X) :
  (λ i, default d (l !! i)) <$> seq 0 (length l) = l.
Proof.
  induction l as [|x l IH]; [done|].
  cbn [length seq fmap list_fmap]. f_equal.
  rewrite <- fmap_S_seq, <- list_fmap_compose. done.
Qed.

Lemma dot_as_sum (v u : list R) :
  length v = length u →
  dot v u
  = sum_R ((λ r, default 0 (v !! r) * default 0 (u !! r))
             <$> seq 0 (length v)).
Proof.
  intros H.
  rewrite <- (dot_fmap (λ i, default 0 (v !! i)) (λ i, default 0 (u !! i))).
  rewrite (fmap_seq_lookup v 0), H, (fmap_seq_lookup u 0). done.
Qed.

Lemma sum_blocks (f : nat → R) off ws :
  sum_R (f <$> seq off (sum_list ws))
  = sum_R ((λ b : nat * nat, sum_R (f <$> seq b.1 (b.2 - b.1)))
             <$> blocks off ws).
Proof.
  revert off. induction ws as [|w ws IH]; intros off; [done|].
  assert (sum_list (w :: ws) = (w + sum_list ws)%nat) as -> by done.
  rewrite seq_app, fmap_app, sum_R_app. cbn [blocks fmap list_fmap fst snd].
  unfold sum_R at 3. cbn [foldr].
  fold (sum_R ((λ b : nat * nat, sum_R (f <$> seq b.1 (b.2 - b.1)))
                 <$> blocks (off + w) ws)).
  rewrite <- IH. replace (off + w - off)%nat with w by lia. done.
Qed.

Lemma dot_scatter_gather (m : list bool) (vals row : list R) :
  length row = length m → length vals = count_true m →
  dot (scatter_mask m vals (replicate (length m) 0)) row
  = dot vals (gather_mask m row).
Proof.
  revert vals row. induction m as [|b m IH]; intros vals row Hr Hv.
  - destruct row; [|done]. cbn. by destruct vals.
  - destruct row as [|x row]; [done|]. rewrite count_true_cons in Hv.
    cbn [length replicate scatter_mask gather_mask]. destruct b.
    + destruct vals as [|y vals]; [done|].
      rewrite !dot_cons, IH; cbn [length] in *; [lra|lia..].
    + rewrite dot_cons, IH; cbn [length] in *; [lra|lia..].
Qed.

Section padder.
Variable bp : BasisPadder.t.
Hypothesis Hwf : wf bp.

Abbreviation atoms := (atom_pure_symbol (mol bp)).
Abbreviation sl := (aoslice_by_atom (mol bp)).

Lemma transpose_wf (v : list R) (w : dict (list (list R))) :
  length v = length (ao_labels_raw (mol bp)) → shaped bp w →
  ∃ P u, pad_basis 0 bp v = Some P ∧
         unpad_basis 0 bp (arr2_dict w) = Some u ∧
         length u = length v ∧
         padded_dot atoms P w = dot v u.
Proof using Hwf.
  intros Hv Hw.
  destruct (pad_basis_ok 0 bp Hwf v Hv) as [P HP].
  assert (Hrow : ∀ a s m, atoms !! a = Some s →
            mask_of bp atoms a s = Some m →
            ∃ row, row_of (arr2_dict w) atoms a s = Some row ∧
                   length row = length m).
  { intros a s m Ha Hm. unfold mask_of in Hm.
    destruct (get (indexing_l bp) s) as [ml|] eqn:Hml; [|done].
    cbn [mbind option_bind] in Hm.
    destruct (Hw s ml Hml) as (arr & Harr & Hsh).
    destruct (Forall2_lookup_l _ _ _ _ _ Hsh Hm) as (row & Hr & Hlen).
    exists row. rewrite row_of_arr2, Harr. done. }
  destruct (unpad_spec 0 bp Hwf (arr2_dict w) Hrow) as (u & Hu & Hlu & Hval).
  exists P, u. split_and!; [done..|by rewrite Hv|].
  destruct (wf_blocks _ Hwf) as (ws & Hsl & Hws & Hnao).
  set (f := λ r, default 0 (v !! r) * default 0 (u !! r)).
  rewrite dot_as_sum by by rewrite Hv.
  fold f. rewrite Hv, Hnao, sum_blocks, <- Hsl.
  unfold padded_dot.
  rewrite <- (fmap_seq_lookup sl (0%nat, 0%nat)) at 1.
  rewrite <- list_fmap_compose.
  assert (length sl = length atoms) as ->.
  { by rewrite Hsl, blocks_length. }
  f_equal. apply list_fmap_ext. intros a a' Hi.
  apply lookup_seq in Hi as [-> Ha]. cbn [Nat.add] in *. unfold compose.
  destruct (lookup_lt_is_Some_2 atoms a Ha) as [s Hs].
  destruct (wf_atom bp Hwf a s Hs)
    as (s0 & s1 & m & rs & Hsa & _ & _ & Hm & Hrs & Hcnt & Hperm & _).
  rewrite Hsa. cbn [default fst snd from_option Datatypes.id].
  destruct (pad_rows 0 bp Hwf v P a s m rs HP Hs Hm Hrs)
    as (arr & HPs & _ & HProw).
  destruct (Hrow a s m Hs Hm) as (row & Hrw & Hlen).
  rewrite row_of_arr2 in Hrw.
  unfold atom_row. rewrite Hs. cbn [mbind option_bind].
  rewrite HPs. cbn [mbind option_bind]. rewrite HProw, Hrw.
  cbn [from_option Datatypes.id].
  rewrite dot_scatter_gather;
    [|done|by rewrite (pick_length 0 v rs)].
  rewrite (sum_R_perm (f <$> seq s0 (s1 - s0)) (f <$> rs))
    by (by rewrite Hperm).
  assert (gather_mask m row = (λ r, default 0 (u !! r)) <$> rs) as ->.
  { apply list_eq. intros t. rewrite list_lookup_fmap.
    destruct (rs !! t) as [r|] eqn:Et.
    - cbn [fmap option_fmap option_map].
      rewrite (Hval a s m rs row t r Hs Hm Hrs) by (by rewrite ?row_of_arr2).
      assert (is_Some (gather_mask m row !! t)) as [y ->]; [|done].
      apply lookup_lt_is_Some. rewrite gather_mask_length by done.
      rewrite Hcnt. by eapply lookup_lt_Some.
    - cbn [fmap option_fmap option_map]. apply lookup_ge_None_2.
      rewrite gather_mask_length by done. rewrite Hcnt.
      by apply lookup_ge_None_1. }
  unfold pick. by rewrite dot_fmap.
Qed.
End padder.

(** Over the reals, [unpad_basis] is the transpose of [pad_basis]: for a
    flat vector [v] and a padded mapping [w] of the padder's shapes, the
    inner product of [pad_basis v] with [w], taken atom row by atom row,
    equals the inner product of [v] with [unpad_basis w]. *)
Theorem unpad_transposes_pad basis mname atoms :
  licit basis mname atoms →
  ∃ bp, __init__ (M basis mname atoms) = Some bp ∧
    ∀ (v : list R) (w : dict (list (list R))),
      length v = length (ao_labels (M basis mname atoms)) → shaped bp w →
      ∃ P u, pad_basis 0 bp v = Some P ∧
             unpad_basis 0 bp (arr2_dict w) = Some u ∧
             length u = length v ∧
             padded_dot atoms P w = dot v u.
Proof.
  intros Hlic.
  destruct (init_wf basis mname atoms Hlic) as (bp & Hinit & Hwf & Hmol).
  exists bp. split; [done|]. intros v w Hv Hw.
  destruct (transpose_wf bp Hwf v w) as (P & u & HP & Hu & Hl & Hd).
  { rewrite Hmol. unfold ao_labels in Hv. by rewrite length_fmap in Hv. }
  { done. }
  exists P, u. split_and!; [done..|].
  rewrite Hmol in Hd. done.
Qed.

Lemma unpad_transposes_pad_water :
  ∃ bp, __init__ (M sp_basis cart_name water) = Some bp ∧
    ∀ (v : list R) (w : dict (list (list R))),
      length v = length (ao_labels (M sp_basis cart_name water)) →
      shaped bp w →
      ∃ P u, pad_basis 0 bp v = Some P ∧
             unpad_basis 0 bp (arr2_dict w) = Some u ∧
             length u = length v ∧
             padded_dot water P w = dot v u.
Proof.
  apply (unpad_transposes_pad sp_basis cart_name water).
  exact PadderClaims.water_licit.
Defined.

(** Over the reals, with the species kept apart and no reference density
    subtracted, what [get_V] computes is the adjoint of what
    [get_basis_rep] computes: for a density matrix [dm] and a padded
    mapping [w] of the padder's shapes, the inner product of the padded
    coefficients of [dm] with [w] equals the inner product of [dm] with
    the matrix that unpadding [w] and contracting it with the integrals
    gives. *)
Theorem projector_adjoint basis mname atoms (eri3c : list (list (list R))) :
  licit basis mname atoms →
  last_axis eri3c = length (ao_labels (M basis mname atoms)) →
  ∃ bp, __init__ (M basis mname atoms) = Some bp ∧
    ∀ (dm : list (list R)) (w : dict (list (list R))),
      shapes_match eri3c dm = true → shaped bp w →
      ∃ co P u Vm,
        Kernels.get_coeff dm eri3c = Some co ∧ pad_basis 0 bp co = Some P ∧
        unpad_basis 0 bp (arr2_dict w) = Some u ∧
        Kernels.einsum_V eri3c u = Some Vm ∧
        padded_dot atoms P w = frobenius dm Vm.
Proof.
  intros Hlic HK.
  destruct (init_wf basis mname atoms Hlic) as (bp & Hinit & Hwf & Hmol).
  exists bp. split; [done|]. intros dm w Hs Hw.
  assert (Hn : length (ao_labels (M basis mname atoms))
               = length (ao_labels_raw (mol bp))).
  { rewrite Hmol. unfold ao_labels. by rewrite length_fmap. }
  assert (∃ co, Kernels.get_coeff dm eri3c = Some co ∧ length co = last_axis eri3c)
    as (co & Hco & Hlco).
  { destruct (contraction_adjoint dm eri3c (replicate (last_axis eri3c) 0))
      as (co & _ & Hco & _ & Hl & _); [done|by rewrite length_replicate|].
    exists co. split; [done|]. by rewrite Hl, length_replicate. }
  destruct (transpose_wf bp Hwf co w) as (P & u & HP & Hu & Hlu & Hd).
  { by rewrite Hlco, HK. }
  { done. }
  destruct (contraction_adjoint dm eri3c u Hs) as (co' & Vm & Hco' & HV & _ & Hadj).
  { by rewrite Hlu, Hlco. }
  assert (co' = co) as -> by congruence.
  exists co, P, u, Vm. split_and!; [done..|].
  rewrite Hmol in Hd. cbn [atom_pure_symbol M] in Hd. by rewrite Hd.
Qed.

Lemma projector_adjoint_water :
  ∃ bp, __init__ (M sp_basis cart_name water) = Some bp ∧
    ∀ (dm : list (list R)) (w : dict (list (list R))),
      shapes_match KernelExamples.water_eri3c dm = true → shaped bp w →
      ∃ co P u Vm,
        Kernels.get_coeff dm KernelExamples.water_eri3c = Some co ∧
        pad_basis 0 bp co = Some P ∧
        unpad_basis 0 bp (arr2_dict w) = Some u ∧
        Kernels.einsum_V KernelExamples.water_eri3c u = Some Vm ∧
        padded_dot water P w = frobenius dm Vm.
Proof.
  apply (projector_adjoint sp_basis cart_name water
           KernelExamples.water_eri3c).
  - exact PadderClaims.water_licit.
  - vm_compute. reflexivity.
Defined.

End TransposeProps.
